(** * Goroutines and channels of the concurrency patterns, and their properties

    The Go programs of [go_concurrent_patterns] (pipeline, fan-out/fan-in,
    worker pool) are embedded as control-flow automata: every goroutine body
    becomes a set of control points (one per blocking statement) and a
    function [next] giving the runtime operation the goroutine is about to
    perform.  The Go runtime (channels, [sync.WaitGroup], panics) is one
    interleaving semantics [exec] shared by all programs. *)

From stdpp Require Import base list numbers option relations.
From Stdlib Require Import ZArith Lia.

Local Open Scope Z_scope.

(** ** Go [int] (64-bit targets): two's complement wrap-around *)

Definition wrap64 (z : Z) : Z := (z + 2 ^ 63) `mod` 2 ^ 64 - 2 ^ 63.

Definition int_mul (a b : Z) : Z := wrap64 (a * b).
Definition int_add (a b : Z) : Z := wrap64 (a + b).
Definition int_sub (a b : Z) : Z := wrap64 (a - b).

Local Close Scope Z_scope.

(** ** Runtime objects *)

(** [make(chan int, cap)]: the buffered items, the capacity and the closed
    flag.  [cap = 0] is an unbuffered (rendezvous) channel. *)
Record chan := Chan { buf : list Z; cap : nat; closed : bool }.

(** What a goroutine does next; [k] is the control point it moves to. *)
Inductive action (G : Type) :=
| ASend (c : nat) (v : Z) (k : G)
| ARecv (c : nat) (k : option Z → G)
| AClose (c : nat) (k : G)
| AWgDone (w : nat) (k : G)
| AWgWait (w : nat) (k : G)
| APanic
| AHalt.
Arguments ASend {G}. Arguments ARecv {G}. Arguments AClose {G}.
Arguments AWgDone {G}. Arguments AWgWait {G}.
Arguments APanic {G}. Arguments AHalt {G}.

(** Control points of the goroutine bodies.  Channel and WaitGroup
    arguments are the identifiers the closure captured. *)
Inductive goroutine :=
(* generate / generator: [for _, n := range nums { out <- n }; close(out)] *)
| Generate (out : nat) (nums : list Z)
(* square: [for n := range in { out <- n * n }; close(out)] *)
| SquareRecv (inp out : nat)
| SquareSend (inp out : nat) (n : Z)
(* addTen: [for n := range in { out <- n + 10 }; close(out)] *)
| AddTenRecv (inp out : nat)
| AddTenSend (inp out : nat) (n : Z)
(* double: [for n := range in { out <- n * 2 }; close(out)] *)
| DoubleRecv (inp out : nat)
| DoubleSend (inp out : nat) (n : Z)
(* transform: [for n := range in { out <- fn(n) }; close(out)] *)
| TransformRecv (inp out : nat) (fn : Z → Z)
| TransformSend (inp out : nat) (fn : Z → Z) (n : Z)
(* the final [close(out)] of a stage *)
| CloseOut (out : nat)
(* fanIn forwarder:
   [defer wg.Done(); for val := range c { out <- val }] *)
| ForwardRecv (c out wg : nat)
| ForwardSend (c out wg : nat) (val : Z)
| DeferredDone (wg : nat)
(* fanIn closer: [wg.Wait(); close(out)] *)
| WaitClose (wg out : nat)
(* round-robin distributor of the fan-out main:
   [i := 0; for n := range input { inputChannels[i%numWorkers] <- n; i++ };
    for _, ch := range inputChannels { close(ch) }] *)
| DistRecv (input : nat) (inputChannels : list nat) (numWorkers : Z) (i : Z)
| DistSend (input : nat) (inputChannels : list nat) (numWorkers : Z) (i : Z)
    (n : Z)
| DistClose (rest : list nat)
(* worker:
   [defer wg.Done(); for job := range jobs { results <- job * 2 }] *)
| WorkerRecv (jobs results wg : nat)
| WorkerSend (jobs results wg : nat) (job : Z)
(* worker-pool main after the workers are launched:
   [for j := 1; j <= numJobs; j++ { jobs <- j }; close(jobs);
    wg.Wait(); close(results); for result := range results { ... }] *)
| PoolFeed (jobs results wg : nat) (numJobs : Z) (j : Z)
| PoolWait (results wg : nat)
| PoolCloseResults (results : nat)
(* [for result := range c { fmt.Println(result) }] at the end of a main *)
| Range (c : nat)
| Exited
(* transform, for an [fn] whose call can panic (the mains of the source
   pass arithmetic only, which cannot):
   [for n := range in { out <- fn(n) }; close(out)], where [fn n = None] is
   a run-time panic raised while [fn(n)] is evaluated *)
| PartialRecv (inp out : nat) (fn : Z → option Z)
| PartialSend (inp out : nat) (fn : Z → option Z) (n : Z).

(** [inputChannels[i%numWorkers]]: Go's [%] truncates towards zero and
    panics on a zero divisor; indexing panics out of range. *)
Definition dist_lane (inputChannels : list nat) (numWorkers i : Z)
  : option nat :=
  if (numWorkers =? 0)%Z then None
  else let r := Z.rem i numWorkers in
       if (r <? 0)%Z then None else inputChannels !! Z.to_nat r.

Definition next (g : goroutine) : action goroutine :=
  match g with
  | Generate out nums =>
      match nums with
      | n :: rest => ASend out n (Generate out rest)
      | [] => AClose out Exited
      end
  | SquareRecv inp out =>
      ARecv inp (λ r, match r with
                      | Some n => SquareSend inp out n
                      | None => CloseOut out
                      end)
  | SquareSend inp out n => ASend out (int_mul n n) (SquareRecv inp out)
  | AddTenRecv inp out =>
      ARecv inp (λ r, match r with
                      | Some n => AddTenSend inp out n
                      | None => CloseOut out
                      end)
  | AddTenSend inp out n => ASend out (int_add n 10) (AddTenRecv inp out)
  | DoubleRecv inp out =>
      ARecv inp (λ r, match r with
                      | Some n => DoubleSend inp out n
                      | None => CloseOut out
                      end)
  | DoubleSend inp out n => ASend out (int_mul n 2) (DoubleRecv inp out)
  | TransformRecv inp out fn =>
      ARecv inp (λ r, match r with
                      | Some n => TransformSend inp out fn n
                      | None => CloseOut out
                      end)
  | TransformSend inp out fn n => ASend out (fn n) (TransformRecv inp out fn)
  | CloseOut out => AClose out Exited
  | ForwardRecv c out wg =>
      ARecv c (λ r, match r with
                    | Some val => ForwardSend c out wg val
                    | None => DeferredDone wg
                    end)
  | ForwardSend c out wg val => ASend out val (ForwardRecv c out wg)
  | DeferredDone wg => AWgDone wg Exited
  | WaitClose wg out => AWgWait wg (CloseOut out)
  | DistRecv input chs nw i =>
      ARecv input (λ r, match r with
                        | Some n => DistSend input chs nw i n
                        | None => DistClose chs
                        end)
  | DistSend input chs nw i n =>
      match dist_lane chs nw i with
      | Some c => ASend c n (DistRecv input chs nw (int_add i 1))
      | None => APanic
      end
  | DistClose rest =>
      match rest with
      | ch :: rest' => AClose ch (DistClose rest')
      | [] => AHalt
      end
  | WorkerRecv jobs results wg =>
      ARecv jobs (λ r, match r with
                       | Some job => WorkerSend jobs results wg job
                       | None => DeferredDone wg
                       end)
  | WorkerSend jobs results wg job =>
      ASend results (int_mul job 2) (WorkerRecv jobs results wg)
  | PoolFeed jobs results wg numJobs j =>
      if (j <=? numJobs)%Z
      then ASend jobs j (PoolFeed jobs results wg numJobs (int_add j 1))
      else AClose jobs (PoolWait results wg)
  | PoolWait results wg => AWgWait wg (PoolCloseResults results)
  | PoolCloseResults results => AClose results (Range results)
  | Range c =>
      ARecv c (λ r, match r with Some _ => Range c | None => Exited end)
  | Exited => AHalt
  | PartialRecv inp out fn =>
      ARecv inp (λ r, match r with
                      | Some n => PartialSend inp out fn n
                      | None => CloseOut out
                      end)
  | PartialSend inp out fn n =>
      match fn n with
      | Some v => ASend out v (PartialRecv inp out fn)
      | None => APanic
      end
  end.

(** A goroutine whose function has returned. *)
Definition returned (g : goroutine) : bool :=
  match next g with AHalt => true | _ => false end.

(** The number of control steps (close, end of a range loop, Done, Wait)
    a goroutine still has to take; sending or receiving an item does not
    change it. *)
Definition weight (g : goroutine) : nat :=
  match g with
  | Generate _ _ => 1
  | SquareRecv _ _ | SquareSend _ _ _ => 2
  | AddTenRecv _ _ | AddTenSend _ _ _ => 2
  | DoubleRecv _ _ | DoubleSend _ _ _ => 2
  | TransformRecv _ _ _ | TransformSend _ _ _ _ => 2
  | CloseOut _ => 1
  | ForwardRecv _ _ _ | ForwardSend _ _ _ _ => 2
  | DeferredDone _ => 1
  | WaitClose _ _ => 2
  | DistRecv _ chs _ _ | DistSend _ chs _ _ _ => S (length chs)
  | DistClose rest => length rest
  | WorkerRecv _ _ _ | WorkerSend _ _ _ _ => 2
  | PoolFeed _ _ _ _ _ => 4
  | PoolWait _ _ => 3
  | PoolCloseResults _ => 2
  | Range _ => 1
  | Exited => 0
  | PartialRecv _ _ _ | PartialSend _ _ _ _ => 2
  end.

(** ** Configurations and the interleaving semantics *)

(** Observable runtime events, tagged with the goroutine (index in the
    pool) that performed them. *)
Inductive event :=
| EvSend (t c : nat) (v : Z)
| EvRecv (t c : nat) (v : Z)
| EvRecvClosed (t c : nat)
| EvClose (t c : nat)
| EvDone (t w : nat)
| EvWait (t w : nat)
| EvPanic (t : nat).

Record config := Config {
  chans : list chan;          (* channels, by identifier *)
  wgs : list nat;             (* WaitGroup counters, by identifier *)
  pool : list goroutine;      (* goroutines; index 0 is main *)
  log : list event;           (* events so far, oldest first *)
  crashed : bool              (* a panic has killed the program *)
}.

Definition panic (t : nat) (σ : config) : config :=
  Config (chans σ) (wgs σ) (pool σ) (log σ ++ [EvPanic t]) true.

(** The scheduler's choice: one goroutine on its own, or a sender and a
    receiver meeting on an unbuffered channel. *)
Inductive choice := Solo (t : nat) | Sync (ts tr : nat).

Definition exec_solo (t : nat) (σ : config) : option config :=
  g ← pool σ !! t;
  match next g with
  | ASend c v k =>
      ch ← chans σ !! c;
      if closed ch then Some (panic t σ)          (* send on closed channel *)
      else if bool_decide (length (buf ch) < cap ch) then
        Some (Config (<[c := Chan (buf ch ++ [v]) (cap ch) false]> (chans σ))
                (wgs σ) (<[t := k]> (pool σ))
                (log σ ++ [EvSend t c v]) false)
      else None                                   (* blocked *)
  | ARecv c k =>
      ch ← chans σ !! c;
      match buf ch with
      | v :: b =>
          Some (Config (<[c := Chan b (cap ch) (closed ch)]> (chans σ))
                  (wgs σ) (<[t := k (Some v)]> (pool σ))
                  (log σ ++ [EvRecv t c v]) false)
      | [] =>
          if closed ch then
            Some (Config (chans σ) (wgs σ) (<[t := k None]> (pool σ))
                    (log σ ++ [EvRecvClosed t c]) false)
          else None                               (* blocked *)
      end
  | AClose c k =>
      ch ← chans σ !! c;
      if closed ch then Some (panic t σ)          (* close of closed channel *)
      else Some (Config (<[c := Chan (buf ch) (cap ch) true]> (chans σ))
                   (wgs σ) (<[t := k]> (pool σ))
                   (log σ ++ [EvClose t c]) false)
  | AWgDone w k =>
      n ← wgs σ !! w;
      match n with
      | O => Some (panic t σ)                     (* negative counter *)
      | S n' => Some (Config (chans σ) (<[w := n']> (wgs σ))
                        (<[t := k]> (pool σ)) (log σ ++ [EvDone t w]) false)
      end
  | AWgWait w k =>
      n ← wgs σ !! w;
      match n with
      | O => Some (Config (chans σ) (wgs σ) (<[t := k]> (pool σ))
                     (log σ ++ [EvWait t w]) false)
      | S _ => None                               (* blocked *)
      end
  | APanic => Some (panic t σ)
  | AHalt => None
  end.

Definition exec_sync (ts tr : nat) (σ : config) : option config :=
  if bool_decide (ts = tr) then None else
  gs ← pool σ !! ts;
  gr ← pool σ !! tr;
  match next gs, next gr with
  | ASend c v ks, ARecv c' kr =>
      if bool_decide (c = c') then
        ch ← chans σ !! c;
        if closed ch then None
        else match cap ch, buf ch with
             | O, [] =>
                 Some (Config (chans σ) (wgs σ)
                         (<[tr := kr (Some v)]> (<[ts := ks]> (pool σ)))
                         (log σ ++ [EvSend ts c v; EvRecv tr c v]) false)
             | _, _ => None
             end
      else None
  | _, _ => None
  end.

(** The program is over once a panic has killed it or [main] has returned
    (Go does not wait for the other goroutines). *)
Definition main_returned (σ : config) : bool :=
  match pool σ !! O with Some g => returned g | None => true end.

Definition halted (σ : config) : bool := crashed σ || main_returned σ.

Definition exec (ch : choice) (σ : config) : option config :=
  if halted σ then None
  else match ch with
       | Solo t => exec_solo t σ
       | Sync ts tr => exec_sync ts tr σ
       end.

Definition step (σ σ' : config) : Prop := ∃ ch, exec ch σ = Some σ'.

(** Running a schedule (a list of choices). *)
Fixpoint run (sch : list choice) (σ : config) : option config :=
  match sch with
  | [] => Some σ
  | ch :: sch' => σ' ← exec ch σ; run sch' σ'
  end.

Definition final (σ : config) : bool :=
  negb (crashed σ) && forallb returned (pool σ).

(** Every execution from [σ] reaches [P], and cannot get stuck or run
    forever before it does. *)
Inductive inevitably (P : config → Prop) (σ : config) : Prop :=
| inev_now : P σ → inevitably P σ
| inev_later :
    (∃ σ', step σ σ') →
    (∀ σ', step σ σ' → inevitably P σ') →
    inevitably P σ.

(** Control steps left in the whole program. *)
Definition weight_sum (σ : config) : nat := sum_list (weight <$> pool σ).

(** ** Projections of the event log *)

Definition sent_on (c : nat) (l : list event) : list Z :=
  omap (λ e, match e with
             | EvSend _ c' v => if bool_decide (c' = c) then Some v else None
             | _ => None
             end) l.

Definition sent_by (t c : nat) (l : list event) : list Z :=
  omap (λ e, match e with
             | EvSend t' c' v =>
                 if bool_decide (t' = t ∧ c' = c) then Some v else None
             | _ => None
             end) l.

Definition received_from (c : nat) (l : list event) : list Z :=
  omap (λ e, match e with
             | EvRecv _ c' v => if bool_decide (c' = c) then Some v else None
             | _ => None
             end) l.

(** The goroutines that closed [c], in order. *)
Definition closers (c : nat) (l : list event) : list nat :=
  omap (λ e, match e with
             | EvClose t c' => if bool_decide (c' = c) then Some t else None
             | _ => None
             end) l.

(** A termination measure: the control steps left, plus, for each of the
    first [n] channels, the sends and receives still allowed when channel
    [c] carries at most [cap c] items. *)
Definition item_measure (cap : nat → nat) (n : nat) (σ : config) : nat :=
  weight_sum σ +
  sum_list ((λ c, (cap c - length (sent_on c (log σ))) +
                  (cap c - length (received_from c (log σ))))
              <$> seq 0 n).

(** ** Set-up code: [make], [sync.WaitGroup], [go]

    The statements a function runs before it returns its channel never
    block; they are a state monad over the configuration under
    construction. *)

Definition Go (A : Type) : Type := config → A * config.

#[export] Instance Go_ret : MRet Go := λ A a σ, (a, σ).
#[export] Instance Go_bind : MBind Go :=
  λ A B f m σ, let '(a, σ') := m σ in f a σ'.

(** [make(chan int, n)] *)
Definition make_chan (n : nat) : Go nat :=
  λ σ, (length (chans σ),
        Config (chans σ ++ [Chan [] n false]) (wgs σ) (pool σ) (log σ)
          (crashed σ)).

(** [var wg sync.WaitGroup] *)
Definition new_wg : Go nat :=
  λ σ, (length (wgs σ),
        Config (chans σ) (wgs σ ++ [O]) (pool σ) (log σ) (crashed σ)).

(** [wg.Add(1)] *)
Definition wg_add1 (w : nat) : Go unit :=
  λ σ, (tt, Config (chans σ) (alter S w (wgs σ)) (pool σ) (log σ)
              (crashed σ)).

(** [go f(...)]: the new goroutine starts at control point [g]. *)
Definition go (g : goroutine) : Go unit :=
  λ σ, (tt, Config (chans σ) (wgs σ) (pool σ ++ [g]) (log σ) (crashed σ)).

(** [for _, x := range xs { body x }], collecting the results. *)
Fixpoint for_each {A B} (xs : list A) (body : A → Go B) : Go (list B) :=
  match xs with
  | [] => mret []
  | x :: xs' => b ← body x; bs ← for_each xs' body; mret (b :: bs)
  end.

(** A program is the set-up part of [main], returning the control point at
    which main first may block.  Main is goroutine 0. *)
Definition boot (main : Go goroutine) : config :=
  let '(g, σ) := main (Config [] [] [Exited] [] false) in
  Config (chans σ) (wgs σ) (<[O := g]> (pool σ)) (log σ) (crashed σ).

(** ** The programs *)

(** pipeline/main.go and the fan-out/fan-in main.go: [generate], [generator] *)
Definition generate (nums : list Z) : Go nat :=
  out ← make_chan 0;
  go (Generate out nums);;
  mret out.

Definition generator (nums : list Z) : Go nat :=
  out ← make_chan 0;
  go (Generate out nums);;
  mret out.

Definition square (inp : nat) : Go nat :=
  out ← make_chan 0;
  go (SquareRecv inp out);;
  mret out.

Definition addTen (inp : nat) : Go nat :=
  out ← make_chan 0;
  go (AddTenRecv inp out);;
  mret out.

Definition double (inp : nat) : Go nat :=
  out ← make_chan 0;
  go (DoubleRecv inp out);;
  mret out.

Definition transform (inp : nat) (fn : Z → Z) : Go nat :=
  out ← make_chan 0;
  go (TransformRecv inp out fn);;
  mret out.

(** [transform] again, for an [fn] whose call can panic: the same body,
    with the control points [PartialRecv] and [PartialSend]. *)
Definition transform_partial (inp : nat) (fn : Z → option Z) : Go nat :=
  out ← make_chan 0;
  go (PartialRecv inp out fn);;
  mret out.

(** [fanIn(channels...)] *)
Definition fanIn (channels : list nat) : Go nat :=
  out ← make_chan 0;
  wg ← new_wg;
  for_each channels (λ c, wg_add1 wg;; go (ForwardRecv c out wg));;
  go (WaitClose wg out);;
  mret out.

(** pipeline/main.go, first demo, for any argument list of [generate]. *)
Definition pipeline_main (nums : list Z) : Go goroutine :=
  numbers ← generate nums;
  squared ← square numbers;
  addedTen ← addTen squared;
  doubled ← double addedTen;
  mret (Range doubled).

(** pipeline/main.go, second demo: triple, subtract5, square through the
    generic [transform] helper. *)
Definition generic_main (nums : list Z) : Go goroutine :=
  input ← generate nums;
  stage1 ← transform input (λ n, int_mul n 3);
  stage2 ← transform stage1 (λ n, int_sub n 5);
  stage3 ← transform stage2 (λ n, int_mul n n);
  mret (Range stage3).

(** A client of [transform] alone, as in the second demo of
    pipeline/main.go but with one stage and any [fn], total or not:
    [input := generate(nums...); out := transform(input, fn, name);
     for result := range out { ... }] *)
Definition partial_main (nums : list Z) (fn : Z → option Z) : Go goroutine :=
  input ← generate nums;
  out ← transform_partial input fn;
  mret (Range out).

(** The stage constructors of pipeline/main.go, by kind, with the function
    each applies and its two control points inside the loop. *)
Inductive stage := StSquare | StAddTen | StDouble | StTransform (fn : Z → Z).

Definition stage_fn (st : stage) : Z → Z :=
  match st with
  | StSquare => λ n, int_mul n n
  | StAddTen => λ n, int_add n 10
  | StDouble => λ n, int_mul n 2
  | StTransform fn => fn
  end.

Definition launch (st : stage) (inp : nat) : Go nat :=
  match st with
  | StSquare => square inp
  | StAddTen => addTen inp
  | StDouble => double inp
  | StTransform fn => transform inp fn
  end.

Definition recv_pt (st : stage) (inp out : nat) : goroutine :=
  match st with
  | StSquare => SquareRecv inp out
  | StAddTen => AddTenRecv inp out
  | StDouble => DoubleRecv inp out
  | StTransform fn => TransformRecv inp out fn
  end.

Definition send_pt (st : stage) (inp out : nat) (n : Z) : goroutine :=
  match st with
  | StSquare => SquareSend inp out n
  | StAddTen => AddTenSend inp out n
  | StDouble => DoubleSend inp out n
  | StTransform fn => TransformSend inp out fn n
  end.

(** A linear pipeline: [generate] followed by any chain of stages, consumed
    by main's [range] loop. *)
Fixpoint stages (inp : nat) (sts : list stage) : Go nat :=
  match sts with
  | [] => mret inp
  | st :: sts' => out ← launch st inp; stages out sts'
  end.

Definition chain_main (nums : list Z) (sts : list stage) : Go goroutine :=
  input ← generate nums;
  last ← stages input sts;
  mret (Range last).

(** The fan-out/fan-in main, for any input and any [numWorkers]. *)
Definition fan_main (nums : list Z) (numWorkers : nat) : Go goroutine :=
  input ← generator nums;
  lanes ← for_each (seq 0 numWorkers) (λ _,
             ch ← make_chan 0; w ← square ch; mret (ch, w));
  go (DistRecv input (lanes.*1) (Z.of_nat numWorkers) 0);;
  results ← fanIn (lanes.*2);
  mret (Range results).

(** A client of [fanIn] alone: one [generator] per input sequence. *)
Definition merge_main (inputs : list (list Z)) : Go goroutine :=
  lanes ← for_each inputs generator;
  results ← fanIn lanes;
  mret (Range results).

(** The worker-pool main, for any [numJobs] and [numWorkers]. *)
Definition pool_main (numJobs numWorkers : nat) : Go goroutine :=
  jobs ← make_chan numJobs;
  results ← make_chan numJobs;
  wg ← new_wg;
  for_each (seq 1 numWorkers) (λ _,
    wg_add1 wg;; go (WorkerRecv jobs results wg));;
  mret (PoolFeed jobs results wg (Z.of_nat numJobs) 1).

Definition is_send (e : event) : bool :=
  match e with EvSend _ _ _ => true | _ => false end.
Definition is_recv (e : event) : bool :=
  match e with EvRecv _ _ _ => true | _ => false end.
Definition is_close (e : event) : bool :=
  match e with EvClose _ _ => true | _ => false end.

(** ** Termination of a whole program *)

(** Every execution from [σ0] ends with all goroutines returned, no panic,
    and channel [c] closed and empty. *)
Definition terminates_closing (c : nat) (σ0 : config) : Prop :=
  inevitably (λ σ, final σ = true ∧
                   ∃ ch, chans σ !! c = Some ch ∧
                         closed ch = true ∧ buf ch = []) σ0.

(** No execution from [σ0] takes more than [b] scheduling steps. *)
Definition steps_bounded (b : nat) (σ0 : config) : Prop :=
  ∀ n σ, nsteps step n σ0 σ → n ≤ b.

(** ** The steps of the runtime, as a relation *)

(** The cases of [exec], as a relation to invert. *)
Inductive transition (σ : config) : config → Prop :=
| T_send t g c v k ch :
    pool σ !! t = Some g → next g = ASend c v k →
    chans σ !! c = Some ch → closed ch = false →
    length (buf ch) < cap ch →
    transition σ
      (Config (<[c := Chan (buf ch ++ [v]) (cap ch) false]> (chans σ))
         (wgs σ) (<[t := k]> (pool σ)) (log σ ++ [EvSend t c v]) false)
| T_send_closed t g c v k ch :
    pool σ !! t = Some g → next g = ASend c v k →
    chans σ !! c = Some ch → closed ch = true →
    transition σ (panic t σ)
| T_recv t g c k ch v b :
    pool σ !! t = Some g → next g = ARecv c k →
    chans σ !! c = Some ch → buf ch = v :: b →
    transition σ
      (Config (<[c := Chan b (cap ch) (closed ch)]> (chans σ))
         (wgs σ) (<[t := k (Some v)]> (pool σ)) (log σ ++ [EvRecv t c v])
         false)
| T_recv_closed t g c k ch :
    pool σ !! t = Some g → next g = ARecv c k →
    chans σ !! c = Some ch → buf ch = [] → closed ch = true →
    transition σ
      (Config (chans σ) (wgs σ) (<[t := k None]> (pool σ))
         (log σ ++ [EvRecvClosed t c]) false)
| T_close t g c k ch :
    pool σ !! t = Some g → next g = AClose c k →
    chans σ !! c = Some ch → closed ch = false →
    transition σ
      (Config (<[c := Chan (buf ch) (cap ch) true]> (chans σ))
         (wgs σ) (<[t := k]> (pool σ)) (log σ ++ [EvClose t c]) false)
| T_close_closed t g c k ch :
    pool σ !! t = Some g → next g = AClose c k →
    chans σ !! c = Some ch → closed ch = true →
    transition σ (panic t σ)
| T_done t g w k n :
    pool σ !! t = Some g → next g = AWgDone w k →
    wgs σ !! w = Some (S n) →
    transition σ
      (Config (chans σ) (<[w := n]> (wgs σ)) (<[t := k]> (pool σ))
         (log σ ++ [EvDone t w]) false)
| T_done_negative t g w k :
    pool σ !! t = Some g → next g = AWgDone w k →
    wgs σ !! w = Some O →
    transition σ (panic t σ)
| T_wait t g w k :
    pool σ !! t = Some g → next g = AWgWait w k →
    wgs σ !! w = Some O →
    transition σ
      (Config (chans σ) (wgs σ) (<[t := k]> (pool σ))
         (log σ ++ [EvWait t w]) false)
| T_panic t g :
    pool σ !! t = Some g → next g = APanic →
    transition σ (panic t σ)
| T_sync ts tr gs gr c v ks kr ch :
    ts ≠ tr →
    pool σ !! ts = Some gs → pool σ !! tr = Some gr →
    next gs = ASend c v ks → next gr = ARecv c kr →
    chans σ !! c = Some ch → closed ch = false →
    cap ch = O → buf ch = [] →
    transition σ
      (Config (chans σ) (wgs σ)
         (<[tr := kr (Some v)]> (<[ts := ks]> (pool σ)))
         (log σ ++ [EvSend ts c v; EvRecv tr c v]) false).

(** ** Invariant of the linear pipelines

    Channel [j] is the output of producer [j]: the generator for [j = 0],
    the [j]-th stage otherwise; main consumes the last one.  All channels
    are unbuffered, so a reachable configuration is given by the closed
    flags [bs], the control points [m], [g], [gs] of main, the generator
    and the stages, and the log [L]. *)

Definition mkch (b : bool) : chan := Chan [] 0 b.

Definition chain_shape (bs : list bool) (m g : goroutine)
    (gs : list goroutine) (L : list event) : config :=
  Config (mkch <$> bs) [] (m :: g :: gs) L false.

Inductive main_ok (k : nat) (bs : list bool) : goroutine → Prop :=
| mo_range : main_ok k bs (Range k)
| mo_exited : bs !! k = Some true → main_ok k bs Exited.

Inductive gen_ok (nums : list Z) (bs : list bool) (L : list event)
  : goroutine → Prop :=
| go_sending rest :
    bs !! 0 = Some false → sent_on 0 L ++ rest = nums →
    gen_ok nums bs L (Generate 0 rest)
| go_exited :
    bs !! 0 = Some true → sent_on 0 L = nums →
    gen_ok nums bs L Exited.

Inductive stage_ok (bs : list bool) (L : list event) (st : stage) (j : nat)
  : goroutine → Prop :=
| so_recv :
    bs !! S j = Some false →
    sent_on (S j) L = stage_fn st <$> sent_on j L →
    stage_ok bs L st j (recv_pt st j (S j))
| so_send n :
    bs !! S j = Some false →
    sent_on (S j) L ++ [stage_fn st n] = stage_fn st <$> sent_on j L →
    stage_ok bs L st j (send_pt st j (S j) n)
| so_close :
    bs !! j = Some true → bs !! S j = Some false →
    sent_on (S j) L = stage_fn st <$> sent_on j L →
    stage_ok bs L st j (CloseOut (S j))
| so_exited :
    bs !! j = Some true → bs !! S j = Some true →
    sent_on (S j) L = stage_fn st <$> sent_on j L →
    stage_ok bs L st j Exited.

Record chain_ok (nums : list Z) (sts : list stage) (bs : list bool)
    (m g : goroutine) (gs : list goroutine) (L : list event) : Prop := {
  co_bs : length bs = S (length sts);
  co_len : length gs = length sts;
  co_main : main_ok (length sts) bs m;
  co_gen : gen_ok nums bs L g;
  co_stages : ∀ j st, sts !! j = Some st →
                ∃ gj, gs !! j = Some gj ∧ stage_ok bs L st j gj;
  co_closers : ∀ (j : nat) (b : bool), bs !! j = Some b →
                 closers j L = if b then [S j] else [];
  co_recv : ∀ j, received_from j L = sent_on j L;
  co_bound : ∀ j, length (sent_on j L) ≤ length nums
}.

Definition chain_inv (nums : list Z) (sts : list stage) (σ : config) : Prop :=
  ∃ bs m g gs L, σ = chain_shape bs m g gs L ∧ chain_ok nums sts bs m g gs L.

(** Every channel of the chain carries at most [length nums] items. *)
Definition chain_measure (nums : list Z) (sts : list stage) : config → nat :=
  item_measure (λ _, length nums) (S (length sts)).

(** What the whole chain computes on one item. *)
Definition chain_fn (sts : list stage) (n : Z) : Z :=
  foldl (λ x st, stage_fn st x) n sts.

Fixpoint recv_pts (inp : nat) (sts : list stage) : list goroutine :=
  match sts with
  | [] => []
  | st :: sts' => recv_pt st inp (S inp) :: recv_pts (S inp) sts'
  end.

(** ** Invariant of the fan-in merger

    [merge_main inputs] with [N = length inputs]: channel [i < N] is lane
    [i], channel [N] is the merged output; goroutine [S i] is the generator
    of lane [i], goroutine [S (N + i)] its forwarder, goroutine
    [S (N + N)] the closer. *)

(** [out] is an interleaving of the lists [D]: each element of [out] is
    taken from the front of one of them. *)
Inductive interleave : list (list Z) → list Z → Prop :=
| il_nil D : Forall (λ l, l = []) D → interleave D []
| il_cons D i x l out :
    D !! i = Some (x :: l) → interleave (<[i := l]> D) out →
    interleave D (x :: out).

Definition merge_shape (bs : list bool) (bo : bool) (w : nat)
    (m : goroutine) (gens fwds : list goroutine) (cl : goroutine)
    (L : list event) : config :=
  Config ((mkch <$> bs) ++ [mkch bo]) [w] (m :: gens ++ fwds ++ [cl]) L false.

Inductive mmain_ok (N : nat) (bo : bool) : goroutine → Prop :=
| mm_range : mmain_ok N bo (Range N)
| mm_exited : bo = true → mmain_ok N bo Exited.

Inductive lgen_ok (nums : list Z) (b : bool) (L : list event) (i : nat)
  : goroutine → Prop :=
| lg_sending rest :
    b = false → sent_on i L ++ rest = nums →
    lgen_ok nums b L i (Generate i rest)
| lg_exited :
    b = true → sent_on i L = nums → lgen_ok nums b L i Exited.

Inductive fwd_ok (N : nat) (b : bool) (L : list event) (i : nat)
  : goroutine → Prop :=
| fo_recv :
    sent_by (S (N + i)) N L = sent_on i L →
    fwd_ok N b L i (ForwardRecv i N 0)
| fo_send v :
    sent_by (S (N + i)) N L ++ [v] = sent_on i L →
    fwd_ok N b L i (ForwardSend i N 0 v)
| fo_done :
    b = true → sent_by (S (N + i)) N L = sent_on i L →
    EvRecvClosed (S (N + i)) i ∈ L →
    fwd_ok N b L i (DeferredDone 0)
| fo_exited :
    b = true → sent_by (S (N + i)) N L = sent_on i L →
    EvRecvClosed (S (N + i)) i ∈ L →
    fwd_ok N b L i Exited.

Inductive cl_ok (N : nat) (bo : bool) (w : nat) : goroutine → Prop :=
| cl_wait : bo = false → cl_ok N bo w (WaitClose 0 N)
| cl_closing : bo = false → w = 0 → cl_ok N bo w (CloseOut N)
| cl_closed : bo = true → w = 0 → cl_ok N bo w Exited.

(** A forwarder that has not yet called [wg.Done()]. *)
Definition alive (g : goroutine) : nat :=
  match g with Exited => 0 | _ => 1 end.

Record merge_ok (inputs : list (list Z)) (bs : list bool) (bo : bool)
    (w : nat) (m : goroutine) (gens fwds : list goroutine) (cl : goroutine)
    (L : list event) : Prop := {
  mo_bs : length bs = length inputs;
  mo_gens : length gens = length inputs;
  mo_fwds : length fwds = length inputs;
  mo_main : mmain_ok (length inputs) bo m;
  mo_lanes : ∀ i nums, inputs !! i = Some nums →
    ∃ b g f, bs !! i = Some b ∧ gens !! i = Some g ∧ fwds !! i = Some f ∧
             lgen_ok nums b L i g ∧ fwd_ok (length inputs) b L i f;
  mo_wg : w = sum_list (alive <$> fwds);
  mo_cl : cl_ok (length inputs) bo w cl;
  mo_closers : ∀ (i : nat) (b : bool), bs !! i = Some b →
                 closers i L = if b then [S i] else [];
  mo_closer : closers (length inputs) L =
              if bo then [S (length inputs + length inputs)] else [];
  mo_recv : ∀ c, received_from c L = sent_on c L;
  mo_merge :
    interleave
      ((λ i, sent_by (S (length inputs + i)) (length inputs) L)
         <$> seq 0 (length inputs))
      (sent_on (length inputs) L)
}.

Definition merge_inv (inputs : list (list Z)) (σ : config) : Prop :=
  ∃ bs bo w m gens fwds cl L,
    σ = merge_shape bs bo w m gens fwds cl L ∧
    merge_ok inputs bs bo w m gens fwds cl L.

(** Lane [c] carries its input; the output carries all of them. *)
Definition merge_cap (inputs : list (list Z)) (c : nat) : nat :=
  match inputs !! c with
  | Some nums => length nums
  | None => sum_list (length <$> inputs)
  end.

Definition merge_measure (inputs : list (list Z)) : config → nat :=
  item_measure (merge_cap inputs) (S (length inputs)).

(** ** Invariant of the worker pool

    [pool_main numJobs numWorkers]: channel 0 is [jobs], channel 1 is
    [results], both with capacity [numJobs]; goroutine 0 is main, goroutine
    [S i] is worker [i]. *)

Definition pool_shape (nJ : nat) (jb : list Z) (cj : bool) (rb : list Z)
    (cr : bool) (wg : nat) (m : goroutine) (ws : list goroutine)
    (L : list event) : config :=
  Config [Chan jb nJ cj; Chan rb nJ cr] [wg] (m :: ws) L false.

(** The jobs main has sent when its loop variable is [j]. *)
Definition jobs_before (j : nat) : list Z := Z.of_nat <$> seq 1 (j - 1).

Inductive worker_ok (cj : bool) (jb : list Z) : goroutine → Prop :=
| wo_recv : worker_ok cj jb (WorkerRecv 0 1 0)
| wo_send job : worker_ok cj jb (WorkerSend 0 1 0 job)
| wo_done : cj = true → jb = [] → worker_ok cj jb (DeferredDone 0)
| wo_exited : cj = true → jb = [] → worker_ok cj jb Exited.

(** A worker holding a job whose result it has not sent yet. *)
Definition holding (g : goroutine) : nat :=
  match g with WorkerSend _ _ _ _ => 1 | _ => 0 end.

Inductive pmain_ok (nJ : nat) (cj cr : bool) (rb : list Z) (wg : nat)
    (L : list event) : goroutine → Prop :=
| pm_feed j :
    1 ≤ j ≤ S nJ → cj = false → cr = false →
    sent_on 0 L = jobs_before j → received_from 1 L = [] →
    pmain_ok nJ cj cr rb wg L (PoolFeed 0 1 0 (Z.of_nat nJ) (Z.of_nat j))
| pm_wait :
    cj = true → cr = false →
    sent_on 0 L = jobs_before (S nJ) → received_from 1 L = [] →
    pmain_ok nJ cj cr rb wg L (PoolWait 1 0)
| pm_close :
    cj = true → cr = false → wg = 0 →
    sent_on 0 L = jobs_before (S nJ) → received_from 1 L = [] →
    pmain_ok nJ cj cr rb wg L (PoolCloseResults 1)
| pm_range :
    cj = true → cr = true → wg = 0 →
    sent_on 0 L = jobs_before (S nJ) →
    pmain_ok nJ cj cr rb wg L (Range 1)
| pm_exited :
    cj = true → cr = true → wg = 0 → rb = [] →
    sent_on 0 L = jobs_before (S nJ) →
    pmain_ok nJ cj cr rb wg L Exited.

Record pool_ok (nJ w : nat) (jb : list Z) (cj : bool) (rb : list Z)
    (cr : bool) (wg : nat) (m : goroutine) (ws : list goroutine)
    (L : list event) : Prop := {
  po_int : (Z.of_nat nJ < 2 ^ 63 - 1)%Z;
  po_ws : length ws = w;
  po_wg : wg = sum_list (alive <$> ws);
  po_jobs : sent_on 0 L = received_from 0 L ++ jb;
  po_results : sent_on 1 L = received_from 1 L ++ rb;
  po_held : length (received_from 0 L) =
            length (sent_on 1 L) + sum_list (holding <$> ws);
  po_workers : ∀ i g, ws !! i = Some g → worker_ok cj jb g;
  po_main : pmain_ok nJ cj cr rb wg L m;
  po_closers0 : closers 0 L = if cj then [0] else [];
  po_closers1 : closers 1 L = if cr then [0] else [];
  po_idle : w = 0 → received_from 0 L = []
}.

Definition pool_inv (nJ w : nat) (σ : config) : Prop :=
  ∃ jb cj rb cr wg m ws L,
    σ = pool_shape nJ jb cj rb cr wg m ws L ∧
    pool_ok nJ w jb cj rb cr wg m ws L.

Definition pool_measure (nJ : nat) : config → nat :=
  item_measure (λ _, nJ) 2.

(** ** Invariant of the fan-out/fan-in program

    [fan_main nums N]: channel 0 is [input], channel [lane_in i] is
    [inputChannels[i]], channel [lane_out i] is [workers[i]], channel
    [S (N + N)] is the merged output.  Goroutine 0 is main, 1 the generator,
    [S (S i)] worker [i], [S (S N)] the distributor, [S (S (S (N + i)))]
    the forwarder of lane [i] and [S (S (S (N + N)))] the closer. *)

Abbreviation lane_in i := (S (i + i)).
Abbreviation lane_out i := (S (S (i + i))).

Definition fan_shape (bs : list bool) (w : nat) (m g : goroutine)
    (sqs : list goroutine) (d : goroutine) (fwds : list goroutine)
    (cl : goroutine) (L : list event) : config :=
  Config (mkch <$> bs) [w] (m :: g :: sqs ++ d :: fwds ++ [cl]) L false.

(** Round-robin: the items of [l] whose position is [j] modulo [n], in
    order. *)
Definition lane_items (n j : nat) (l : list Z) : list Z :=
  omap (λ px : nat * Z,
          if bool_decide (px.1 `mod` n = j) then Some px.2 else None)
       (imap pair l).

Inductive dist_ok (N : nat) (bs : list bool) (L : list event)
  : goroutine → Prop :=
| do_recv :
    (∀ i, i < N → bs !! lane_in i = Some false) →
    (∀ i, i < N → sent_on (lane_in i) L = lane_items N i (sent_on 0 L)) →
    dist_ok N bs L
      (DistRecv 0 ((λ i, lane_in i) <$> seq 0 N) (Z.of_nat N)
         (Z.of_nat (length (sent_on 0 L))))
| do_send dp n :
    sent_on 0 L = dp ++ [n] →
    (∀ i, i < N → bs !! lane_in i = Some false) →
    (∀ i, i < N → sent_on (lane_in i) L = lane_items N i dp) →
    dist_ok N bs L
      (DistSend 0 ((λ i, lane_in i) <$> seq 0 N) (Z.of_nat N)
         (Z.of_nat (length dp)) n)
| do_close j :
    j ≤ N → bs !! 0 = Some true →
    (∀ i, i < N → bs !! lane_in i = Some (bool_decide (i < j))) →
    (∀ i, i < N → sent_on (lane_in i) L = lane_items N i (sent_on 0 L)) →
    dist_ok N bs L (DistClose ((λ i, lane_in i) <$> seq j (N - j))).

Inductive lfwd_ok (N : nat) (bs : list bool) (L : list event) (i : nat)
  : goroutine → Prop :=
| lf_recv :
    sent_by (S (S (S (N + i)))) (S (N + N)) L = sent_on (lane_out i) L →
    lfwd_ok N bs L i (ForwardRecv (lane_out i) (S (N + N)) 0)
| lf_send v :
    sent_by (S (S (S (N + i)))) (S (N + N)) L ++ [v] =
      sent_on (lane_out i) L →
    lfwd_ok N bs L i (ForwardSend (lane_out i) (S (N + N)) 0 v)
| lf_done :
    bs !! lane_out i = Some true →
    sent_by (S (S (S (N + i)))) (S (N + N)) L = sent_on (lane_out i) L →
    lfwd_ok N bs L i (DeferredDone 0)
| lf_exited :
    bs !! lane_out i = Some true →
    sent_by (S (S (S (N + i)))) (S (N + N)) L = sent_on (lane_out i) L →
    lfwd_ok N bs L i Exited.

Record fan_ok (nums : list Z) (N : nat) (bs : list bool) (w : nat)
    (m g : goroutine) (sqs : list goroutine) (d : goroutine)
    (fwds : list goroutine) (cl : goroutine) (L : list event) : Prop := {
  fn_pos : 0 < N;
  fn_int : (Z.of_nat (length nums) < 2 ^ 63)%Z;
  fn_bs : length bs = S (S (N + N));
  fn_sqs : length sqs = N;
  fn_fwds : length fwds = N;
  fn_main : main_ok (S (N + N)) bs m;
  fn_gen : gen_ok nums bs L g;
  fn_dist : dist_ok N bs L d;
  fn_sq : ∀ i sq, sqs !! i = Some sq → stage_ok bs L StSquare (lane_in i) sq;
  fn_fwd : ∀ i f, fwds !! i = Some f → lfwd_ok N bs L i f;
  fn_wg : w = sum_list (alive <$> fwds);
  fn_cl : ∃ bo, bs !! S (N + N) = Some bo ∧ cl_ok (S (N + N)) bo w cl;
  fn_closers : ∀ (i : nat) (b : bool), i < N → bs !! lane_in i = Some b →
                 closers (lane_in i) L = if b then [S (S N)] else [];
  fn_recv : ∀ c, received_from c L = sent_on c L;
  fn_merge :
    interleave
      ((λ i, sent_by (S (S (S (N + i)))) (S (N + N)) L) <$> seq 0 N)
      (sent_on (S (N + N)) L)
}.

Definition fan_inv (nums : list Z) (N : nat) (σ : config) : Prop :=
  ∃ bs w m g sqs d fwds cl L,
    σ = fan_shape bs w m g sqs d fwds cl L ∧
    fan_ok nums N bs w m g sqs d fwds cl L.

(** Every channel carries at most the whole input, the merged output at
    most what the [N] lanes carry together. *)
Definition fan_cap (nums : list Z) (N : nat) (c : nat) : nat :=
  if bool_decide (c = S (N + N)) then N * length nums else length nums.

Definition fan_measure (nums : list Z) (N : nat) : config → nat :=
  item_measure (fan_cap nums N) (S (S (N + N))).

(** ** The specialised stages as instances of [transform]

    [generalise] replaces every control point of [square], [addTen] and
    [double] by the control point of [transform] with the function the
    stage applies. *)

Definition generalise (g : goroutine) : goroutine :=
  match g with
  | SquareRecv inp out => TransformRecv inp out (λ n, int_mul n n)
  | SquareSend inp out n => TransformSend inp out (λ n, int_mul n n) n
  | AddTenRecv inp out => TransformRecv inp out (λ n, int_add n 10)
  | AddTenSend inp out n => TransformSend inp out (λ n, int_add n 10) n
  | DoubleRecv inp out => TransformRecv inp out (λ n, int_mul n 2)
  | DoubleSend inp out n => TransformSend inp out (λ n, int_mul n 2) n
  | _ => g
  end.

Definition generalise_config (σ : config) : config :=
  Config (chans σ) (wgs σ) (generalise <$> pool σ) (log σ) (crashed σ).

(** The same action, up to [generalise] on the control point reached. *)
Definition action_generalises (a a' : action goroutine) : Prop :=
  match a, a' with
  | ASend c v k, ASend c' v' k' => c = c' ∧ v = v' ∧ k' = generalise k
  | ARecv c k, ARecv c' k' => c = c' ∧ ∀ r, k' r = generalise (k r)
  | AClose c k, AClose c' k' => c = c' ∧ k' = generalise k
  | AWgDone w k, AWgDone w' k' => w = w' ∧ k' = generalise k
  | AWgWait w k, AWgWait w' k' => w = w' ∧ k' = generalise k
  | APanic, APanic => True
  | AHalt, AHalt => True
  | _, _ => False
  end.

(** ** heap/maxHeap/main.go: the max heap

    [maxHeap] holds a slice [array []int]; the methods take the slice and
    return the slice they leave in [h.array].  Indices are Go [int]s. *)

(** What a method call does: it returns, or an index is out of range and
    the call panics.  [OutOfFuel] is the loop of [maxHeapifyUp] cut short by
    the model, which [insert] never lets happen. *)
Inductive outcome (A : Type) :=
| Returns (a : A)
| Panics
| OutOfFuel.
Arguments Returns {A} a.
Arguments Panics {A}.
Arguments OutOfFuel {A}.

(** [h.array[i]]: out of range is a run-time panic ([None]). *)
Definition elem (array : list Z) (i : Z) : option Z :=
  if (i <? 0)%Z then None else array !! Z.to_nat i.

(** [(index - 1) / 2]: Go's [/] truncates towards zero. *)
Definition getParentIndex (index : Z) : Z := Z.quot (int_sub index 1) 2.

(** [2*index + 2] *)
Definition rightIndex (index : Z) : Z := int_add (int_mul 2 index) 2.

(** [2*index + 1] *)
Definition leftIndex (index : Z) : Z := int_add (int_mul 2 index) 1.

(** [h.array[index1], h.array[index2] = h.array[index2], h.array[index1]]:
    both right-hand sides are read first, then the two elements are
    assigned left to right. *)
Definition swap (array : list Z) (index1 index2 : Z) : option (list Z) :=
  v2 ← elem array index2;
  v1 ← elem array index1;
  Some (<[Z.to_nat index2 := v1]> (<[Z.to_nat index1 := v2]> array)).

(** [for h.array[h.getParentIndex(index)] < h.array[index] { swap; index =
    parent }]: one unit of fuel per evaluation of the loop condition. *)
Fixpoint maxHeapifyUp (fuel : nat) (array : list Z) (index : Z)
  : outcome (list Z) :=
  match fuel with
  | O => OutOfFuel
  | S fuel' =>
      match elem array (getParentIndex index), elem array index with
      | Some p, Some x =>
          if (p <? x)%Z
          then match swap array (getParentIndex index) index with
               | Some array' => maxHeapifyUp fuel' array' (getParentIndex index)
               | None => Panics
               end
          else Returns array
      | _, _ => Panics
      end
  end.

(** [h.array = append(h.array, key); h.maxHeapifyUp(len(h.array) - 1)] *)
Definition insert (array : list Z) (key : Z) : outcome (list Z) :=
  let array' := array ++ [key] in
  maxHeapifyUp (length array') array' (int_sub (Z.of_nat (length array')) 1).

(** [m := &maxHeap{}; for _, v := range buildHeap { m.insert(v) }], for any
    [buildHeap]. *)
Fixpoint build_from (array : list Z) (buildHeap : list Z)
  : outcome (list Z) :=
  match buildHeap with
  | [] => Returns array
  | v :: rest =>
      match insert array v with
      | Returns array' => build_from array' rest
      | Panics => Panics
      | OutOfFuel => OutOfFuel
      end
  end.

Definition heap_main (buildHeap : list Z) : outcome (list Z) :=
  build_from [] buildHeap.

(** The max-heap property, with the code's own parent index: every element
    but the root is at most its parent. *)
Definition is_max_heap (array : list Z) : Prop :=
  ∀ i x p, (1 ≤ i)%Z → elem array i = Some x →
           elem array (getParentIndex i) = Some p → (x ≤ p)%Z.

(** The heap property on natural indices, and with one index exempted while
    an element is sifted up through it. *)
Definition heap_upto (array : list Z) (i : nat) : Prop :=
  (∀ j, 1 ≤ j < length array → j ≠ i →
        Z.le (array !!! j) (array !!! ((j - 1) / 2))) ∧
  (∀ j, 1 ≤ j < length array → (j - 1) / 2 = i → 1 ≤ i →
        Z.le (array !!! j) (array !!! ((i - 1) / 2))).

Definition heap_nat (array : list Z) : Prop :=
  ∀ j, 1 ≤ j < length array → Z.le (array !!! j) (array !!! ((j - 1) / 2)).

(** ** The results of the worker pool *)

(** The result a worker is about to send: it has taken [job] and not yet
    executed [results <- job * 2]. *)
Definition pending (g : goroutine) : list Z :=
  match g with
  | WorkerSend _ _ _ job => [int_mul job 2]
  | _ => []
  end.

(** Every job taken from [jobs] is accounted for: its double has been sent
    on [results] or is pending in the worker that took it. *)
Definition results_accounted (σ : config) : Prop :=
  (λ job, int_mul job 2) <$> received_from 0 (log σ) ≡ₚ
  sent_on 1 (log σ) ++ concat (pending <$> tail (pool σ)).

(** ** Invariant of the fan-out/fan-in main with [numWorkers = 0]

    [fan_main nums 0]: channel 0 is [input], channel 1 the output of
    [fanIn()]; goroutine 0 is main, 1 the generator, 2 the distributor and
    3 the closer of [fanIn].  There is no worker and no forwarder. *)

(** The generator [g], the distributor [d], the closed flag of [input] and
    the crashed flag. *)
Inductive fan0_feed (nums : list Z)
  : goroutine → goroutine → bool → bool → Prop :=
| f0_start :
    fan0_feed nums (Generate 0 nums) (DistRecv 0 [] 0 0) false false
| f0_taken n rest c :
    nums = n :: rest →
    fan0_feed nums (Generate 0 rest) (DistSend 0 [] 0 0 n) false c
| f0_taken_closed n c :
    nums = [n] →
    fan0_feed nums Exited (DistSend 0 [] 0 0 n) true c
| f0_closed :
    nums = [] → fan0_feed nums Exited (DistRecv 0 [] 0 0) true false
| f0_eof :
    nums = [] → fan0_feed nums Exited (DistClose []) true false.

(** Main [m], the closer [cl] and the closed flag of the output. *)
Inductive fan0_out : goroutine → goroutine → bool → Prop :=
| o_wait : fan0_out (Range 1) (WaitClose 0 1) false
| o_closing : fan0_out (Range 1) (CloseOut 1) false
| o_closed : fan0_out (Range 1) Exited true
| o_done : fan0_out Exited Exited true.

Definition fan0_inv (nums : list Z) (σ : config) : Prop :=
  ∃ m g d cl b0 b1 c L,
    σ = Config [mkch b0; mkch b1] [0] [m; g; d; cl] L c ∧
    fan0_feed nums g d b0 c ∧ fan0_out m cl b1 ∧
    sent_on 1 L = [] ∧ received_from 1 L = [] ∧
    closers 1 L = (if b1 then [3] else []).

(** The items the generator has not sent yet. *)
Definition unsent (σ : config) : nat :=
  match pool σ !! 1 with
  | Some (Generate _ l) => length l
  | _ => 0
  end.

Definition fan0_measure (σ : config) : nat :=
  weight_sum σ + unsent σ + (if crashed σ then 0 else 1).

(** How the program with no worker ends: the distributor has panicked on
    the first item, or main has returned after the output was closed. *)
Definition fan0_ended (nums : list Z) (σ : config) : Prop :=
  (crashed σ = true ∧
   ∃ n rest, nums = n :: rest ∧ pool σ !! 2 = Some (DistSend 0 [] 0 0 n)) ∨
  (crashed σ = false ∧ pool σ !! 0 = Some Exited ∧
   chans σ !! 1 = Some (Chan [] 0 true) ∧ closers 1 (log σ) = [3]).

(** ** Invariant of a pipeline whose stage can panic

    [partial_main nums fn]: channel 0 is the output of [generate], channel 1
    the output of [transform]; goroutine 0 is main, 1 the generator, 2 the
    stage.  [c] is the crashed flag: it is set by the panic of [fn(n)], at
    the control point where the stage holds [n]. *)

Inductive pstage_ok (fn : Z → option Z) (b0 b1 c : bool) (L : list event)
  : goroutine → Prop :=
| ps_recv :
    b1 = false → c = false →
    fn <$> sent_on 0 L = Some <$> sent_on 1 L →
    pstage_ok fn b0 b1 c L (PartialRecv 0 1 fn)
| ps_send dp n :
    b1 = false → sent_on 0 L = dp ++ [n] →
    fn <$> dp = Some <$> sent_on 1 L →
    (c = true → fn n = None) →
    pstage_ok fn b0 b1 c L (PartialSend 0 1 fn n)
| ps_close :
    b0 = true → b1 = false → c = false →
    fn <$> sent_on 0 L = Some <$> sent_on 1 L →
    pstage_ok fn b0 b1 c L (CloseOut 1)
| ps_exited :
    b0 = true → b1 = true → c = false →
    fn <$> sent_on 0 L = Some <$> sent_on 1 L →
    pstage_ok fn b0 b1 c L Exited.

Definition partial_inv (nums : list Z) (fn : Z → option Z) (σ : config)
  : Prop :=
  ∃ m g s b0 b1 c L,
    σ = Config [mkch b0; mkch b1] [] [m; g; s] L c ∧
    gen_ok nums [b0; b1] L g ∧ pstage_ok fn b0 b1 c L s ∧
    main_ok 1 [b0; b1] m ∧ received_from 1 L = sent_on 1 L.

Definition partial_measure (nums : list Z) (σ : config) : nat :=
  weight_sum σ +
  (length nums - length (sent_on 0 (log σ))) +
  (length nums - length (sent_on 1 (log σ))) +
  (if crashed σ then 0 else 1).

(** How such a pipeline ends.  Either nothing has panicked: every goroutine
    has returned, both channels are closed and the consumer has received
    the result of [fn] on every item.  Or [fn] has panicked on an item [n]:
    the program is dead with the output of the stage still open, main still
    in its [range] loop, and the consumer has received the results for the
    items before [n] only. *)
Definition partial_ended (nums : list Z) (fn : Z → option Z) (σ : config)
  : Prop :=
  (crashed σ = false ∧ final σ = true ∧
   chans σ = [Chan [] 0 true; Chan [] 0 true] ∧
   fn <$> nums = Some <$> received_from 1 (log σ)) ∨
  (crashed σ = true ∧
   chans σ !! 1 = Some (Chan [] 0 false) ∧ pool σ !! 0 = Some (Range 1) ∧
   ∃ dp n rest, nums = dp ++ n :: rest ∧ fn n = None ∧
                fn <$> dp = Some <$> received_from 1 (log σ)).

(** * Properties *)

(** ** The runtime *)

Lemma step_transition σ σ' :
  step σ σ' ↔ halted σ = false ∧ transition σ σ'.
Proof.
  split.
  - intros [ch H]. unfold exec in H.
    destruct (halted σ) eqn:Hh; [done|]. split; [done|].
    destruct ch as [t|ts tr].
    + unfold exec_solo in H.
      destruct (pool σ !! t) as [g|] eqn:Hg; simpl in H; [|done].
      destruct (next g) as [c v k|c k|c k|w k|w k| |] eqn:Hn; try done.
      * destruct (chans σ !! c) as [ch|] eqn:Hc; simpl in H; [|done].
        destruct (closed ch) eqn:Hcl.
        { inversion H. eapply T_send_closed; eauto. }
        case_bool_decide; [|done]. inversion H. eapply T_send; eauto.
      * destruct (chans σ !! c) as [ch|] eqn:Hc; simpl in H; [|done].
        destruct (buf ch) as [|v b] eqn:Hb.
        { destruct (closed ch) eqn:Hcl; [|done].
          inversion H. eapply T_recv_closed; eauto. }
        inversion H. eapply T_recv; eauto.
      * destruct (chans σ !! c) as [ch|] eqn:Hc; simpl in H; [|done].
        destruct (closed ch) eqn:Hcl; inversion H.
        { eapply T_close_closed; eauto. }
        eapply T_close; eauto.
      * destruct (wgs σ !! w) as [[|n]|] eqn:Hw; simpl in H; inversion H.
        { eapply T_done_negative; eauto. }
        eapply T_done; eauto.
      * destruct (wgs σ !! w) as [[|n]|] eqn:Hw; simpl in H; inversion H.
        eapply T_wait; eauto.
      * inversion H. eapply T_panic; eauto.
    + unfold exec_sync in H. case_bool_decide; [done|].
      destruct (pool σ !! ts) as [gs|] eqn:Hgs; simpl in H; [|done].
      destruct (pool σ !! tr) as [gr|] eqn:Hgr; simpl in H; [|done].
      destruct (next gs) as [c v ks| | | | | |] eqn:Hns; try done.
      destruct (next gr) as [|c' kr| | | | |] eqn:Hnr; try done.
      case_bool_decide; [subst c'|done].
      destruct (chans σ !! c) as [ch|] eqn:Hc; simpl in H; [|done].
      destruct (closed ch) eqn:Hcl; [done|].
      destruct (cap ch) eqn:Hcap; [|done].
      destruct (buf ch) eqn:Hb; [|done].
      inversion H. eapply T_sync; eauto.
  - intros [Hh H]. unfold step, exec. rewrite Hh.
    destruct H.
    + exists (Solo t). unfold exec_solo. rewrite H. simpl. rewrite H0, H1.
      simpl. rewrite H2. by rewrite bool_decide_eq_true_2.
    + exists (Solo t). unfold exec_solo. rewrite H. simpl. rewrite H0, H1.
      simpl. by rewrite H2.
    + exists (Solo t). unfold exec_solo. rewrite H. simpl. rewrite H0, H1.
      simpl. by rewrite H2.
    + exists (Solo t). unfold exec_solo. rewrite H. simpl. rewrite H0, H1.
      simpl. by rewrite H2, H3.
    + exists (Solo t). unfold exec_solo. rewrite H. simpl. rewrite H0, H1.
      simpl. by rewrite H2.
    + exists (Solo t). unfold exec_solo. rewrite H. simpl. rewrite H0, H1.
      simpl. by rewrite H2.
    + exists (Solo t). unfold exec_solo. rewrite H. simpl. by rewrite H0, H1.
    + exists (Solo t). unfold exec_solo. rewrite H. simpl. by rewrite H0, H1.
    + exists (Solo t). unfold exec_solo. rewrite H. simpl. by rewrite H0, H1.
    + exists (Solo t). unfold exec_solo. rewrite H. simpl. by rewrite H0.
    + exists (Sync ts tr). unfold exec_sync.
      rewrite bool_decide_eq_false_2 by done. rewrite H0. simpl.
      rewrite H1. simpl. rewrite H2, H3.
      rewrite bool_decide_eq_true_2 by done. rewrite H4. simpl.
      by rewrite H5, H6, H7.
Qed.

Lemma step_not_halted σ σ' : step σ σ' → halted σ = false.
Proof. intros H. by apply step_transition in H as [? _]. Qed.

(** A panic is the only way to set [crashed]. *)
Lemma transition_crashed σ σ' :
  transition σ σ' → crashed σ' = true → ∃ t, σ' = panic t σ.
Proof. destruct 1; simpl; intros; try discriminate; eauto. Qed.

(** Termination from a decreasing measure over an invariant. *)
Lemma inevitably_measure (Inv P : config → Prop) (Φ : config → nat) :
  (∀ σ, Inv σ → P σ ∨ ∃ σ', step σ σ') →
  (∀ σ σ', Inv σ → step σ σ' → Inv σ' ∧ Φ σ' < Φ σ) →
  ∀ σ, Inv σ → inevitably P σ.
Proof.
  intros Hprog Hpres σ. remember (Φ σ) as n eqn:Hn.
  revert σ Hn. induction (lt_wf n) as [n _ IH]. intros σ -> Hinv.
  destruct (Hprog σ Hinv) as [HP|Hex]; [by apply inev_now|].
  apply inev_later; [done|]. intros σ' Hst.
  destruct (Hpres σ σ' Hinv Hst) as [Hinv' Hlt]. by eapply IH.
Qed.

Lemma inevitably_mono (P Q : config → Prop) σ :
  (∀ σ', P σ' → Q σ') → inevitably P σ → inevitably Q σ.
Proof.
  intros HPQ. induction 1 as [σ HP|σ Hex _ IH].
  - apply inev_now. auto.
  - apply inev_later; auto.
Qed.

(** An invariant holds in every reachable configuration, and a measure
    bounds the length of every execution. *)
Lemma invariant_reachable (Inv : config → Prop) :
  (∀ σ σ', Inv σ → step σ σ' → Inv σ') →
  ∀ σ σ', Inv σ → rtc step σ σ' → Inv σ'.
Proof. intros Hpres σ σ' Hinv Hrtc. induction Hrtc; eauto. Qed.

Lemma measure_bounds_steps (Inv : config → Prop) (Φ : config → nat) :
  (∀ σ σ', Inv σ → step σ σ' → Inv σ' ∧ Φ σ' < Φ σ) →
  ∀ n σ σ', Inv σ → nsteps step n σ σ' → n + Φ σ' ≤ Φ σ.
Proof.
  intros Hpres n σ σ' Hinv Hn. induction Hn as [|n σ1 σ2 σ3 Hst _ IH].
  - lia.
  - destruct (Hpres _ _ Hinv Hst) as [Hinv2 Hlt]. specialize (IH Hinv2). lia.
Qed.

(** *** Event log projections *)

Lemma sent_on_app c l1 l2 : sent_on c (l1 ++ l2) = sent_on c l1 ++ sent_on c l2.
Proof. apply omap_app. Qed.
Lemma sent_by_app t c l1 l2 :
  sent_by t c (l1 ++ l2) = sent_by t c l1 ++ sent_by t c l2.
Proof. apply omap_app. Qed.
Lemma received_from_app c l1 l2 :
  received_from c (l1 ++ l2) = received_from c l1 ++ received_from c l2.
Proof. apply omap_app. Qed.
Lemma closers_app c l1 l2 : closers c (l1 ++ l2) = closers c l1 ++ closers c l2.
Proof. apply omap_app. Qed.

Lemma sent_on_send c t c' v l :
  sent_on c (EvSend t c' v :: l) =
  if bool_decide (c' = c) then v :: sent_on c l else sent_on c l.
Proof. unfold sent_on. simpl. by case_bool_decide. Qed.
Lemma sent_by_send t c t' c' v l :
  sent_by t c (EvSend t' c' v :: l) =
  if bool_decide (t' = t ∧ c' = c) then v :: sent_by t c l else sent_by t c l.
Proof. unfold sent_by. simpl. by case_bool_decide. Qed.
Lemma received_from_recv c t c' v l :
  received_from c (EvRecv t c' v :: l) =
  if bool_decide (c' = c) then v :: received_from c l else received_from c l.
Proof. unfold received_from. simpl. by case_bool_decide. Qed.
Lemma closers_close c t c' l :
  closers c (EvClose t c' :: l) =
  if bool_decide (c' = c) then t :: closers c l else closers c l.
Proof. unfold closers. simpl. by case_bool_decide. Qed.

Lemma sent_on_other c e l : is_send e = false → sent_on c (e :: l) = sent_on c l.
Proof. by destruct e. Qed.
Lemma sent_by_other t c e l :
  is_send e = false → sent_by t c (e :: l) = sent_by t c l.
Proof. by destruct e. Qed.
Lemma received_from_other c e l :
  is_recv e = false → received_from c (e :: l) = received_from c l.
Proof. by destruct e. Qed.
Lemma closers_other c e l : is_close e = false → closers c (e :: l) = closers c l.
Proof. by destruct e. Qed.

Ltac log_simpl :=
  repeat first
    [ rewrite sent_on_app | rewrite sent_by_app
    | rewrite received_from_app | rewrite closers_app
    | rewrite sent_on_send | rewrite sent_by_send
    | rewrite received_from_recv | rewrite closers_close
    | rewrite sent_on_other by reflexivity
    | rewrite sent_by_other by reflexivity
    | rewrite received_from_other by reflexivity
    | rewrite closers_other by reflexivity
    | rewrite app_nil_r ];
  change (sent_on ?c []) with (@nil Z) in *;
  change (sent_by ?t ?c []) with (@nil Z) in *;
  change (received_from ?c []) with (@nil Z) in *;
  change (closers ?c []) with (@nil nat) in *.

Ltac bdec :=
  repeat (case_bool_decide; destruct_and?; simplify_eq/=);
  rewrite ?app_nil_r;
  try done; try lia;
  try match goal with H : ¬ (_ ∧ _) |- _ => by destruct H end.

Ltac logs := log_simpl; bdec.

Ltac lookup_bounds :=
  repeat match goal with
  | H : ?l !! ?i = Some _ |- _ =>
      assert_fails (assert (i < length l) by assumption);
      pose proof (lookup_lt_Some l i _ H)
  end.


Example boot_pool : boot (pool_main 5 3) =
  Config [Chan [] 5 false; Chan [] 5 false] [3%nat]
    [PoolFeed 0 1 0 5 1; WorkerRecv 0 1 0; WorkerRecv 0 1 0; WorkerRecv 0 1 0]
    [] false.
Proof. reflexivity. Qed.

(** *** Weights *)

Lemma sum_list_fmap_insert {A} (f : A → nat) (l : list A) i x y :
  l !! i = Some x →
  sum_list (f <$> <[i := y]> l) + f x = sum_list (f <$> l) + f y.
Proof.
  revert i. induction l as [|a l IH]; intros [|i] Hi; csimpl in *; try done.
  - inversion Hi. lia.
  - specialize (IH i Hi). lia.
Qed.

Lemma sum_list_fmap_le {A} (f g : A → nat) (l : list A) :
  (∀ x, x ∈ l → f x ≤ g x) → sum_list (f <$> l) ≤ sum_list (g <$> l).
Proof.
  induction l as [|a l IH]; intros H; csimpl; [lia|].
  assert (f a ≤ g a) by (apply H; left).
  assert (sum_list (f <$> l) ≤ sum_list (g <$> l))
    by (apply IH; intros; apply H; by right).
  lia.
Qed.

Lemma sum_list_fmap_lt {A} (f g : A → nat) (l : list A) x :
  (∀ y, y ∈ l → f y ≤ g y) → x ∈ l → f x < g x →
  sum_list (f <$> l) < sum_list (g <$> l).
Proof.
  induction l as [|a l IH]; intros H Hx Hlt; [by inversion Hx|]. csimpl.
  assert (f a ≤ g a) by (apply H; left).
  assert (sum_list (f <$> l) ≤ sum_list (g <$> l))
    by (apply sum_list_fmap_le; intros; apply H; by right).
  apply elem_of_cons in Hx as [->|Hx]; [lia|].
  assert (sum_list (f <$> l) < sum_list (g <$> l)); [|lia].
  apply IH; auto. intros; apply H; by right.
Qed.

Lemma next_send_weight g c v k : next g = ASend c v k → weight k = weight g.
Proof.
  destruct g; simpl; intros H; try discriminate;
    repeat case_match; try discriminate; by inversion H.
Qed.

Lemma next_recv_weight g c k :
  next g = ARecv c k →
  (∀ v, weight (k (Some v)) = weight g) ∧ S (weight (k None)) = weight g.
Proof.
  destruct g; simpl; intros H; try discriminate;
    repeat case_match; try discriminate; by inversion H.
Qed.

Lemma next_close_weight g c k : next g = AClose c k → S (weight k) = weight g.
Proof.
  destruct g; simpl; intros H; try discriminate;
    repeat case_match; try discriminate; by inversion H.
Qed.

Lemma next_done_weight g w k : next g = AWgDone w k → S (weight k) = weight g.
Proof.
  destruct g; simpl; intros H; try discriminate;
    repeat case_match; try discriminate; by inversion H.
Qed.

Lemma next_wait_weight g w k : next g = AWgWait w k → S (weight k) = weight g.
Proof.
  destruct g; simpl; intros H; try discriminate;
    repeat case_match; try discriminate; by inversion H.
Qed.

(** A transition either takes one control step, lowering the weight by
    one, or moves one item, leaving the weight unchanged. *)
Lemma transition_weight σ σ' :
  transition σ σ' → crashed σ' = false →
  (∃ e, log σ' = log σ ++ [e] ∧ is_send e = false ∧ is_recv e = false ∧
        S (weight_sum σ') = weight_sum σ)
  ∨ (weight_sum σ' = weight_sum σ ∧
     ∃ t c v, c < length (chans σ) ∧
       (log σ' = log σ ++ [EvSend t c v]
        ∨ log σ' = log σ ++ [EvRecv t c v]
        ∨ ∃ t', log σ' = log σ ++ [EvSend t c v; EvRecv t' c v])).
Proof.
  unfold weight_sum.
  destruct 1 as [t g c v k ch Hg Hn Hch|t g c v k ch Hg Hn
    |t g c k ch v b Hg Hn Hch
    |t g c k ch Hg Hn|t g c k ch Hg Hn|t g c k ch Hg Hn|t g w k n Hg Hn
    |t g w k Hg Hn|t g w k Hg Hn|t g Hg Hn
    |ts tr gs gr c v ks kr ch Hne Hgs Hgr Hns Hnr Hch];
    simpl; intros Hc; try discriminate.
  - right. pose proof (sum_list_fmap_insert weight _ _ _ k Hg).
    apply next_send_weight in Hn. apply lookup_lt_Some in Hch.
    split; [lia|]. eauto 8.
  - right. pose proof (sum_list_fmap_insert weight _ _ _ (k (Some v)) Hg).
    apply next_recv_weight in Hn as [Hn _]. specialize (Hn v).
    apply lookup_lt_Some in Hch. split; [lia|]. eauto 8.
  - left. pose proof (sum_list_fmap_insert weight _ _ _ (k None) Hg).
    apply next_recv_weight in Hn as [_ Hn].
    eexists; repeat split; [done..|lia].
  - left. pose proof (sum_list_fmap_insert weight _ _ _ k Hg).
    apply next_close_weight in Hn. eexists; repeat split; [done..|lia].
  - left. pose proof (sum_list_fmap_insert weight _ _ _ k Hg).
    apply next_done_weight in Hn. eexists; repeat split; [done..|lia].
  - left. pose proof (sum_list_fmap_insert weight _ _ _ k Hg).
    apply next_wait_weight in Hn. eexists; repeat split; [done..|lia].
  - right. pose proof (sum_list_fmap_insert weight _ _ _ ks Hgs) as Hs1.
    assert (<[ts:=ks]> (pool σ) !! tr = Some gr) as Hgr'
      by (by rewrite list_lookup_insert_ne).
    pose proof (sum_list_fmap_insert weight _ _ _ (kr (Some v)) Hgr') as Hs2.
    apply next_send_weight in Hns.
    apply next_recv_weight in Hnr as [Hnr _]. specialize (Hnr v).
    apply lookup_lt_Some in Hch. split; [lia|]. eauto 10.
Qed.

Lemma item_measure_step cap σ σ' :
  transition σ σ' → crashed σ' = false →
  (∀ c, c < length (chans σ) →
        length (sent_on c (log σ')) ≤ cap c ∧
        length (received_from c (log σ')) ≤ cap c) →
  item_measure cap (length (chans σ)) σ' <
  item_measure cap (length (chans σ)) σ.
Proof.
  intros Ht Hc Hb. unfold item_measure.
  set (f := λ L c, (cap c - length (sent_on c L)) +
                   (cap c - length (received_from c L))).
  change (weight_sum σ' + sum_list (f (log σ') <$> seq 0 (length (chans σ)))
          < weight_sum σ + sum_list (f (log σ) <$> seq 0 (length (chans σ)))).
  apply transition_weight in Ht; [|done].
  destruct Ht as [(e & He & Hs & Hr & Hw)|(Hw & t & c & v & Hlt & He)].
  - assert (f (log σ') <$> seq 0 (length (chans σ)) =
            f (log σ) <$> seq 0 (length (chans σ))) as ->; [|lia].
    apply list_fmap_ext. intros _ c _. unfold f. rewrite He.
    rewrite sent_on_app, received_from_app.
    rewrite (sent_on_other _ e []), (received_from_other _ e []) by done.
    change (sent_on c []) with (@nil Z).
    change (received_from c []) with (@nil Z). by rewrite !app_nil_r.
  - assert (sum_list (f (log σ') <$> seq 0 (length (chans σ))) <
            sum_list (f (log σ) <$> seq 0 (length (chans σ)))); [|lia].
    destruct (Hb c Hlt) as [Hb1 Hb2].
    apply (sum_list_fmap_lt _ _ _ c).
    + intros c' _. unfold f.
      destruct He as [->|[->|(t' & ->)]]; log_simpl;
        repeat case_bool_decide; rewrite ?length_app; simpl; lia.
    + apply elem_of_seq. lia.
    + unfold f. revert Hb1 Hb2.
      destruct He as [->|[->|(t' & ->)]]; log_simpl;
        repeat case_bool_decide; rewrite ?length_app; simpl; try done; lia.
Qed.

Lemma final_main_returned σ : final σ = true → main_returned σ = true.
Proof.
  unfold final, main_returned. intros [_ H]%andb_prop.
  destruct (pool σ) as [|g p]; [done|]. simpl in *.
  by apply andb_prop in H as [H _].
Qed.

Lemma final_no_step σ σ' : final σ = true → ¬ step σ σ'.
Proof.
  intros Hf Hst. apply step_not_halted in Hst. unfold halted in Hst.
  apply final_main_returned in Hf. rewrite Hf in Hst.
  by destruct (crashed σ).
Qed.

(** ** Linear pipelines *)

Lemma next_recv_pt st inp out :
  next (recv_pt st inp out) =
  ARecv inp (λ r, match r with
                  | Some n => send_pt st inp out n
                  | None => CloseOut out
                  end).
Proof. by destruct st. Qed.

Lemma next_send_pt st inp out n :
  next (send_pt st inp out n) =
  ASend out (stage_fn st n) (recv_pt st inp out).
Proof. by destruct st. Qed.

Lemma launch_run st inp σ :
  launch st inp σ =
  (length (chans σ),
   Config (chans σ ++ [mkch false]) (wgs σ)
     (pool σ ++ [recv_pt st inp (length (chans σ))]) (log σ) (crashed σ)).
Proof. by destruct st. Qed.

Lemma stages_run sts : ∀ inp σ,
  length (chans σ) = S inp →
  stages inp sts σ =
  (inp + length sts,
   Config (chans σ ++ replicate (length sts) (mkch false)) (wgs σ)
     (pool σ ++ recv_pts inp sts) (log σ) (crashed σ)).
Proof.
  induction sts as [|st sts IH]; intros inp σ Hlen; simpl.
  - rewrite !app_nil_r, Nat.add_0_r. by destruct σ.
  - unfold mbind, Go_bind. rewrite launch_run, IH; simpl.
    + rewrite Hlen, <- !app_assoc. simpl. do 2 f_equal. lia.
    + rewrite length_app. simpl. lia.
Qed.

Lemma chain_boot nums sts :
  boot (chain_main nums sts) =
  chain_shape (replicate (S (length sts)) false) (Range (length sts))
    (Generate 0 nums) (recv_pts 0 sts) [].
Proof.
  unfold boot, chain_main, generate, mbind, Go_bind, make_chan, go. simpl.
  rewrite stages_run by done. simpl.
  unfold chain_shape. by rewrite fmap_cons, fmap_replicate.
Qed.

Lemma pipeline_main_chain nums :
  pipeline_main nums = chain_main nums [StSquare; StAddTen; StDouble].
Proof. reflexivity. Qed.

Lemma generic_main_chain nums :
  generic_main nums =
  chain_main nums [StTransform (λ n, int_mul n 3);
                   StTransform (λ n, int_sub n 5);
                   StTransform (λ n, int_mul n n)].
Proof. reflexivity. Qed.

Lemma recv_pts_lookup sts : ∀ inp j st,
  sts !! j = Some st →
  recv_pts inp sts !! j = Some (recv_pt st (inp + j) (S (inp + j))).
Proof.
  induction sts as [|s sts IH]; intros inp [|j] st H; simpl in *; try done.
  - inversion H. by rewrite Nat.add_0_r.
  - rewrite (IH (S inp) j st H). by replace (S inp + j) with (inp + S j) by lia.
Qed.

Lemma recv_pts_length sts inp : length (recv_pts inp sts) = length sts.
Proof. revert inp. induction sts; intros; simpl; auto. Qed.

Lemma chain_boot_inv nums sts : chain_inv nums sts (boot (chain_main nums sts)).
Proof.
  rewrite chain_boot. do 5 eexists. split; [done|]. split.
  - by rewrite length_replicate.
  - apply recv_pts_length.
  - constructor.
  - constructor; [done|done].
  - intros j st Hj. eexists. split; [by apply recv_pts_lookup|].
    simpl. constructor; [|done].
    apply lookup_replicate_2. apply lookup_lt_Some in Hj. lia.
  - intros j b [-> _]%lookup_replicate. done.
  - done.
  - intros j. simpl. lia.
Qed.

Lemma mkch_lookup (bs : list bool) (c : nat) ch :
  (mkch <$> bs) !! c = Some ch → ∃ b, bs !! c = Some b ∧ ch = mkch b.
Proof.
  rewrite list_lookup_fmap.
  destruct (bs !! c); simpl; intros H; inversion H; eauto.
Qed.

(** Which goroutine a pool index denotes. *)
Lemma chain_thread nums sts bs m g gs L (t : nat) x :
  chain_ok nums sts bs m g gs L →
  (m :: g :: gs) !! t = Some x →
  (t = 0 ∧ x = m) ∨ (t = 1 ∧ x = g ∧ gen_ok nums bs L g) ∨
  (∃ j st, t = S (S j) ∧ sts !! j = Some st ∧ gs !! j = Some x ∧
           stage_ok bs L st j x).
Proof.
  intros Hok. destruct t as [|[|j]]; simpl; intros H.
  - left. by inversion H.
  - right; left. inversion H. subst. split; [done|]. split; [done|].
    by destruct Hok.
  - right; right.
    assert (j < length sts) as Hj.
    { rewrite <- (co_len _ _ _ _ _ _ _ Hok). by eapply lookup_lt_Some. }
    apply lookup_lt_is_Some in Hj as [st Hst].
    destruct (co_stages _ _ _ _ _ _ _ Hok j st Hst) as (gj & Hgj & Hs).
    exists j, st. rewrite H in Hgj. inversion Hgj. by subst.
Qed.

Lemma stage_ok_frame bs L bs' L' st j g :
  stage_ok bs L st j g →
  (bs !! j = Some true → bs' !! j = Some true) → bs' !! S j = bs !! S j →
  sent_on j L' = sent_on j L → sent_on (S j) L' = sent_on (S j) L →
  stage_ok bs' L' st j g.
Proof. intros H E1 E2 E3 E4. destruct H; constructor; auto; congruence. Qed.

Lemma gen_ok_frame nums bs L bs' L' g :
  gen_ok nums bs L g →
  bs' !! 0 = bs !! 0 → sent_on 0 L' = sent_on 0 L →
  gen_ok nums bs' L' g.
Proof. intros H E1 E2. destruct H; constructor; congruence. Qed.

Lemma stage_ok_recv_inv bs L st j :
  stage_ok bs L st j (recv_pt st j (S j)) →
  bs !! S j = Some false ∧ sent_on (S j) L = stage_fn st <$> sent_on j L.
Proof. intros H. inversion H; try done; by destruct st. Qed.

Lemma stage_ok_send_inv bs L st j n :
  stage_ok bs L st j (send_pt st j (S j) n) →
  bs !! S j = Some false ∧
  sent_on (S j) L ++ [stage_fn st n] = stage_fn st <$> sent_on j L.
Proof.
  intros H. inversion H as [| n' ? ? Heq | |]; try by destruct st.
  assert (n' = n) as -> by (destruct st; by inversion Heq). done.
Qed.

Lemma stage_ok_close_inv bs L st j :
  stage_ok bs L st j (CloseOut (S j)) →
  bs !! j = Some true ∧ bs !! S j = Some false ∧
  sent_on (S j) L = stage_fn st <$> sent_on j L.
Proof. intros H. inversion H; try done; by destruct st. Qed.



(** The end of a range loop: the stage or main sees its input closed. *)
Lemma chain_stage_eof nums sts bs m g gs L j st :
  chain_ok nums sts bs m g gs L →
  sts !! j = Some st → gs !! j = Some (recv_pt st j (S j)) →
  bs !! j = Some true → bs !! S j = Some false →
  chain_ok nums sts bs m g (<[j := CloseOut (S j)]> gs)
    (L ++ [EvRecvClosed (S (S j)) j]).
Proof.
  intros [co_bs co_len co_main co_gen co_stages co_closers co_recv co_bound]
      Hst Hgj Hb Hb'.
  split; try done.
  - by rewrite length_insert.
  - eapply gen_ok_frame; [done|done|by log_simpl].
  - intros j' st' Hj'. destruct (co_stages j' st' Hj') as (gj' & Hl & Hs).
    destruct (decide (j' = j)) as [->|Hne].
    + rewrite list_lookup_insert_eq by (by eapply lookup_lt_Some).
      eexists; split; [done|]. simplify_eq.
      apply stage_ok_recv_inv in Hs as [_ Hs].
      constructor; try done. by log_simpl.
    + rewrite list_lookup_insert_ne by done. eexists; split; [done|].
      eapply stage_ok_frame; [done|done|done|by log_simpl..].
  - intros j' b Hj'. log_simpl. auto.
  - intros j'. log_simpl. auto.
  - intros j'. log_simpl. auto.
Qed.

Lemma chain_main_eof nums sts bs g gs L :
  chain_ok nums sts bs (Range (length sts)) g gs L →
  bs !! length sts = Some true →
  chain_ok nums sts bs Exited g gs (L ++ [EvRecvClosed 0 (length sts)]).
Proof.
  intros [co_bs co_len co_main co_gen co_stages co_closers co_recv co_bound]
      Hb.
  split; try done.
  - by constructor.
  - eapply gen_ok_frame; [done|done|by log_simpl].
  - intros j' st' Hj'. destruct (co_stages j' st' Hj') as (gj' & Hl & Hs).
    eexists; split; [done|].
    eapply stage_ok_frame; [done|done|done|by log_simpl..].
  - intros j' b Hj'. log_simpl. auto.
  - intros j'. log_simpl. auto.
  - intros j'. log_simpl. auto.
Qed.

Lemma main_ok_close k bs m c : main_ok k bs m → main_ok k (<[c := true]> bs) m.
Proof.
  destruct 1 as [|H]; constructor.
  destruct (decide (c = k)) as [->|Hne].
  - apply list_lookup_insert_eq. by eapply lookup_lt_Some.
  - by rewrite list_lookup_insert_ne.
Qed.

(** [close(out)] by the generator and by a stage. *)
Lemma chain_gen_close nums sts bs m gs L :
  chain_ok nums sts bs m (Generate 0 []) gs L →
  chain_ok nums sts (<[0 := true]> bs) m Exited gs (L ++ [EvClose 1 0]).
Proof.
  intros [co_bs co_len co_main co_gen co_stages co_closers co_recv co_bound].
  inversion co_gen as [rest Hb Hs|]; subst.
  rewrite app_nil_r in *. split.
  - by rewrite length_insert.
  - done.
  - by apply main_ok_close.
  - constructor; [|by log_simpl].
    apply list_lookup_insert_eq. by eapply lookup_lt_Some.
  - intros j' st' Hj'. destruct (co_stages j' st' Hj') as (gj' & Hl & Hst).
    eexists; split; [done|].
    eapply stage_ok_frame; [done| |by rewrite list_lookup_insert_ne|
                            by log_simpl..].
    intros. destruct j'; [congruence|by rewrite list_lookup_insert_ne].
  - intros j' b Hj'. log_simpl. case_bool_decide; subst.
    + rewrite list_lookup_insert_eq in Hj' by (by eapply lookup_lt_Some).
      inversion Hj'. by rewrite (co_closers 0 false).
    + rewrite list_lookup_insert_ne in Hj' by done. rewrite app_nil_r. auto.
  - intros j'. by log_simpl.
  - intros j'. by log_simpl.
Qed.

Lemma chain_stage_close nums sts bs m g gs L j st :
  chain_ok nums sts bs m g gs L →
  sts !! j = Some st → gs !! j = Some (CloseOut (S j)) →
  chain_ok nums sts (<[S j := true]> bs) m g (<[j := Exited]> gs)
    (L ++ [EvClose (S (S j)) (S j)]).
Proof.
  intros [co_bs co_len co_main co_gen co_stages co_closers co_recv co_bound]
      Hst Hgj.
  destruct (co_stages j st Hst) as (gj & Hl & Hs). simplify_eq.
  apply stage_ok_close_inv in Hs as (Hb & Hb' & Hs).
  assert (S j < length bs) by (by eapply lookup_lt_Some).
  split.
  - by rewrite length_insert.
  - by rewrite length_insert.
  - by apply main_ok_close.
  - eapply gen_ok_frame; [done|by rewrite list_lookup_insert_ne|by log_simpl].
  - intros j' st' Hj'. destruct (co_stages j' st' Hj') as (gj' & Hl' & Hs').
    destruct (decide (j' = j)) as [->|Hne].
    + rewrite list_lookup_insert_eq by (by eapply lookup_lt_Some).
      eexists; split; [done|]. simplify_eq.
      constructor; [by rewrite list_lookup_insert_ne by lia|
                    by rewrite list_lookup_insert_eq|by log_simpl].
    + rewrite list_lookup_insert_ne by done. eexists; split; [done|].
      eapply stage_ok_frame; [done| |by rewrite list_lookup_insert_ne by lia|
                              by log_simpl..].
      intros. destruct (decide (j' = S j)) as [->|];
        [by rewrite list_lookup_insert_eq|by rewrite list_lookup_insert_ne].
  - intros j' b Hj'. log_simpl. case_bool_decide; subst.
    + rewrite list_lookup_insert_eq in Hj' by done.
      inversion Hj'. by rewrite (co_closers (S j) false).
    + rewrite list_lookup_insert_ne in Hj' by done. rewrite app_nil_r. auto.
  - intros j'. by log_simpl.
  - intros j'. by log_simpl.
Qed.

(** An item handed over an unbuffered channel. *)
Lemma chain_gen_to_main nums bs gs L v rest :
  chain_ok nums [] bs (Range 0) (Generate 0 (v :: rest)) gs L →
  chain_ok nums [] bs (Range 0) (Generate 0 rest) gs
    (L ++ [EvSend 1 0 v; EvRecv 0 0 v]).
Proof.
  intros [co_bs co_len co_main co_gen co_stages co_closers co_recv co_bound].
  inversion co_gen as [? Hb Hs|]; subst. split; try done.
  - constructor; [done|]. logs. by rewrite <- app_assoc.
  - intros j' b Hj'. logs; auto.
  - intros j'. logs; by rewrite co_recv.
  - intros j'. logs; auto. rewrite !length_app. simpl. lia.
Qed.

Lemma chain_gen_to_stage nums sts bs m gs L v rest st :
  chain_ok nums sts bs m (Generate 0 (v :: rest)) gs L →
  sts !! 0 = Some st → gs !! 0 = Some (recv_pt st 0 1) →
  chain_ok nums sts bs m (Generate 0 rest) (<[0 := send_pt st 0 1 v]> gs)
    (L ++ [EvSend 1 0 v; EvRecv 2 0 v]).
Proof.
  intros [co_bs co_len co_main co_gen co_stages co_closers co_recv co_bound]
      Hst Hg0.
  inversion co_gen as [? Hb Hs|]; subst. split; try done.
  - by rewrite length_insert.
  - constructor; [done|]. logs. by rewrite <- app_assoc.
  - intros j' st' Hj'. destruct (co_stages j' st' Hj') as (gj' & Hl' & Hs').
    destruct j' as [|j'].
    + rewrite list_lookup_insert_eq by (by eapply lookup_lt_Some).
      eexists; split; [done|]. simplify_eq.
      apply stage_ok_recv_inv in Hs' as [Hb' Hs'].
      constructor; [done|]. logs. by rewrite fmap_app, Hs'.
    + rewrite list_lookup_insert_ne by done. eexists; split; [done|].
      eapply stage_ok_frame; [done|done|done|logs..].
  - intros j' b Hj'. logs; auto.
  - intros j'. logs; by rewrite co_recv.
  - intros j'. logs; auto. rewrite !length_app. simpl. lia.
Qed.

Lemma chain_stage_to_main nums sts bs g gs L j st n :
  chain_ok nums sts bs (Range (length sts)) g gs L →
  sts !! j = Some st → gs !! j = Some (send_pt st j (S j) n) →
  S j = length sts →
  chain_ok nums sts bs (Range (length sts)) g
    (<[j := recv_pt st j (S j)]> gs)
    (L ++ [EvSend (S (S j)) (S j) (stage_fn st n);
           EvRecv 0 (S j) (stage_fn st n)]).
Proof.
  intros [co_bs co_len co_main co_gen co_stages co_closers co_recv co_bound]
      Hst Hgj Hlast.
  destruct (co_stages j st Hst) as (gj & Hl & Hs). simplify_eq.
  apply stage_ok_send_inv in Hs as [Hb Hs].
  split; try done.
  - by rewrite length_insert.
  - eapply gen_ok_frame; [done|done|logs].
  - intros j' st' Hj'. destruct (co_stages j' st' Hj') as (gj' & Hl' & Hs').
    destruct (decide (j' = j)) as [->|Hne].
    + rewrite list_lookup_insert_eq by (by eapply lookup_lt_Some).
      eexists; split; [done|]. simplify_eq.
      constructor; [done|]. logs.
    + rewrite list_lookup_insert_ne by done. eexists; split; [done|].
      apply lookup_lt_Some in Hj'.
      eapply stage_ok_frame; [done|done|done|logs..].
  - intros j' b Hj'. logs; auto.
  - intros j'. logs; by rewrite co_recv.
  - intros j'. logs; auto. rewrite Hs, length_fmap. auto.
Qed.

Lemma chain_stage_to_stage nums sts bs m g gs L j st st' n :
  chain_ok nums sts bs m g gs L →
  sts !! j = Some st → gs !! j = Some (send_pt st j (S j) n) →
  sts !! S j = Some st' →
  gs !! S j = Some (recv_pt st' (S j) (S (S j))) →
  chain_ok nums sts bs m g
    (<[S j := send_pt st' (S j) (S (S j)) (stage_fn st n)]>
       (<[j := recv_pt st j (S j)]> gs))
    (L ++ [EvSend (S (S j)) (S j) (stage_fn st n);
           EvRecv (S (S (S j))) (S j) (stage_fn st n)]).
Proof.
  intros [co_bs co_len co_main co_gen co_stages co_closers co_recv co_bound]
      Hst Hgj Hst' Hgj'.
  destruct (co_stages j st Hst) as (gj & Hl & Hs). simplify_eq.
  apply stage_ok_send_inv in Hs as [Hb Hs].
  destruct (co_stages (S j) st' Hst') as (gj & Hl & Hr). simplify_eq.
  apply stage_ok_recv_inv in Hr as [Hb' Hr].
  split; try done.
  - by rewrite !length_insert.
  - eapply gen_ok_frame; [done|done|logs].
  - intros j' st'' Hj'. destruct (co_stages j' st'' Hj') as (gj' & Hl' & Hs').
    destruct (decide (j' = S j)) as [->|Hne1].
    + rewrite list_lookup_insert_eq
        by (rewrite length_insert; by eapply lookup_lt_Some).
      eexists; split; [done|]. simplify_eq.
      constructor; [done|]. logs. by rewrite fmap_app, Hr.
    + rewrite list_lookup_insert_ne by done.
      destruct (decide (j' = j)) as [->|Hne2].
      * rewrite list_lookup_insert_eq by (by eapply lookup_lt_Some).
        eexists; split; [done|]. simplify_eq.
        constructor; [done|]. logs.
      * rewrite list_lookup_insert_ne by done. eexists; split; [done|].
        eapply stage_ok_frame; [done|done|done|logs..].
  - intros j' b Hj'. logs; auto.
  - intros j'. logs; by rewrite co_recv.
  - intros j'. logs; auto. rewrite Hs, length_fmap. auto.
Qed.

Ltac chain_classify Hok :=
  repeat match goal with
  | H : (_ :: _ :: _) !! _ = Some _ |- _ =>
      apply (chain_thread _ _ _ _ _ _ _ _ _ Hok) in H as
        [[-> ->]|[(-> & -> & ?)|(? & ? & -> & ? & ? & ?)]]
  | H : (mkch <$> _) !! _ = Some _ |- _ =>
      apply mkch_lookup in H as (? & ? & ->)
  end.

Ltac chain_next :=
  repeat match goal with
  | H : next (Range _) = _ |- _ => simpl in H; try discriminate
  | H : stage_ok _ _ _ _ _ |- _ => destruct H
  | H : gen_ok _ _ _ _ |- _ => destruct H
  | H : next (recv_pt _ _ _) = _ |- _ => rewrite next_recv_pt in H
  | H : next (send_pt _ _ _ _) = _ |- _ => rewrite next_send_pt in H
  | H : next (Generate _ ?r) = _ |- _ => destruct r; simpl in H
  | H : next _ = _ |- _ => progress simpl in H
  end; try discriminate;
  repeat match goal with
  | H : ASend _ _ _ = ASend _ _ _ |- _ => inversion H; clear H; subst
  | H : ARecv _ _ = ARecv _ _ |- _ => inversion H; clear H; subst
  | H : AClose _ _ = AClose _ _ |- _ => inversion H; clear H; subst
  end.

Ltac chain_shape_eq :=
  unfold chain_shape;
  try change (Chan [] 0 true) with (mkch true);
  rewrite <- ?list_fmap_insert; simpl; reflexivity.

Lemma chain_step nums sts σ σ' :
  chain_inv nums sts σ → step σ σ' → chain_inv nums sts σ'.
Proof.
  intros (bs & m & g & gs & L & -> & Hok) [Hh Ht]%step_transition.
  pose proof (co_main _ _ _ _ _ _ _ Hok) as Hm.
  unfold halted in Hh. simpl in Hh. destruct Hm; [clear Hh|done].
  inversion Ht; simplify_eq/=; chain_classify Hok; chain_next;
    simpl in *; try lia; try congruence.
  - eexists bs, Exited, g, gs, _. split; [chain_shape_eq|].
    apply chain_main_eof; auto. congruence.
  - eexists bs, _, g, _, _. split; [chain_shape_eq|].
    eapply chain_stage_eof; eauto. congruence.
  - eexists (<[0:=true]> bs), _, Exited, gs, _. split; [chain_shape_eq|].
    by apply chain_gen_close.
  - eexists (<[S _:=true]> bs), _, g, _, _. split; [chain_shape_eq|].
    eapply chain_stage_close; eauto.
  - destruct sts; [|done]. simpl.
    eexists bs, _, _, gs, _. split; [chain_shape_eq|].
    by apply chain_gen_to_main.
  - match goal with H : length sts = S ?x |- _ =>
      opose proof (chain_stage_to_main nums sts bs g gs L x _ _ _ _ _ _)
        as Hnew; [done..|];
      rewrite H in Hnew |- *
    end.
    simpl. eexists bs, _, g, _, _. split; [chain_shape_eq|]. exact Hnew.
  - eexists bs, _, _, _, _. split; [chain_shape_eq|].
    eapply chain_gen_to_stage; eauto.
  - eexists bs, _, g, _, _. split; [chain_shape_eq|].
    eapply chain_stage_to_stage; eauto.
Qed.

Lemma chain_measure_step nums sts σ σ' :
  chain_inv nums sts σ → step σ σ' →
  chain_measure nums sts σ' < chain_measure nums sts σ.
Proof.
  intros Hinv Hst. pose proof (chain_step _ _ _ _ Hinv Hst) as Hinv'.
  destruct Hinv as (bs & m & g & gs & L & -> & Hok).
  destruct Hinv' as (bs' & m' & g' & gs' & L' & -> & Hok').
  apply step_transition in Hst as [_ Ht]. unfold chain_measure.
  replace (S (length sts)) with
    (length (chans (chain_shape bs m g gs L)))
    by (simpl; by rewrite length_fmap, (co_bs _ _ _ _ _ _ _ Hok)).
  apply item_measure_step; [done|done|]. intros c _. simpl.
  rewrite (co_recv _ _ _ _ _ _ _ Hok').
  split; apply (co_bound _ _ _ _ _ _ _ Hok').
Qed.

(** Closure travels downstream: once the last channel is closed, every
    channel is, and every producer has returned. *)
Lemma chain_closed_upstream nums sts bs m g gs L :
  chain_ok nums sts bs m g gs L →
  bs !! length sts = Some true →
  ∀ d j, j + d = length sts → bs !! j = Some true.
Proof.
  intros Hok Hlast. induction d as [|d IH]; intros j Hj.
  - by replace j with (length sts) by lia.
  - assert (j < length sts) as Hlt by lia.
    apply lookup_lt_is_Some in Hlt as [st Hst].
    destruct (co_stages _ _ _ _ _ _ _ Hok j st Hst) as (gj & _ & Hs).
    assert (bs !! S j = Some true) as Hb by (apply IH; lia).
    destruct Hs; congruence.
Qed.

Lemma chain_exited nums sts bs m g gs L :
  chain_ok nums sts bs m g gs L →
  bs !! length sts = Some true →
  g = Exited ∧ (∀ j gj, gs !! j = Some gj → gj = Exited) ∧
  sent_on 0 L = nums ∧
  (∀ j st, sts !! j = Some st →
           sent_on (S j) L = stage_fn st <$> sent_on j L).
Proof.
  intros Hok Hlast.
  pose proof (chain_closed_upstream _ _ _ _ _ _ _ Hok Hlast) as Hall.
  assert (∀ j st, sts !! j = Some st →
            gs !! j = Some Exited ∧
            sent_on (S j) L = stage_fn st <$> sent_on j L) as Hst.
  { intros j st Hj.
    destruct (co_stages _ _ _ _ _ _ _ Hok j st Hj) as (gj & Hg & Hs).
    pose proof (lookup_lt_Some _ _ _ Hj).
    assert (bs !! S j = Some true) as Hb
      by (apply (Hall (length sts - S j)); lia).
    destruct Hs; try congruence. done. }
  assert (bs !! 0 = Some true) as H0 by (apply (Hall (length sts)); lia).
  pose proof (co_gen _ _ _ _ _ _ _ Hok) as Hg.
  destruct Hg; [congruence|]. repeat split; auto.
  - intros j gj Hj.
    assert (j < length sts) as Hlt.
    { rewrite <- (co_len _ _ _ _ _ _ _ Hok). by eapply lookup_lt_Some. }
    apply lookup_lt_is_Some in Hlt as [st Hst'].
    destruct (Hst j st Hst') as [? _]. congruence.
  - intros j st Hj. by apply Hst.
Qed.

Lemma chain_fn_snoc sts st n :
  chain_fn (sts ++ [st]) n = stage_fn st (chain_fn sts n).
Proof. unfold chain_fn. by rewrite foldl_app. Qed.

Lemma chain_output nums sts L :
  sent_on 0 L = nums →
  (∀ j st, sts !! j = Some st →
           sent_on (S j) L = stage_fn st <$> sent_on j L) →
  ∀ j, j ≤ length sts → sent_on j L = chain_fn (take j sts) <$> nums.
Proof.
  intros H0 Hst. induction j as [|j IH]; intros Hj.
  - rewrite H0. simpl. by rewrite list_fmap_id.
  - assert (j < length sts) as Hlt by lia.
    apply lookup_lt_is_Some in Hlt as [st Hj'].
    rewrite (Hst j st Hj'), IH by lia.
    rewrite (take_S_r _ _ _ Hj'), <- list_fmap_compose.
    apply list_fmap_ext. intros. simpl. by rewrite chain_fn_snoc.
Qed.

(** What holds when a linear pipeline has terminated. *)
Lemma chain_final nums sts σ :
  chain_inv nums sts σ → final σ = true →
  sent_on (length sts) (log σ) = chain_fn sts <$> nums ∧
  (∀ j, j ≤ length sts →
        chans σ !! j = Some (Chan [] 0 true) ∧
        closers j (log σ) = [S j] ∧
        received_from j (log σ) = sent_on j (log σ)) ∧
  (∀ t g, pool σ !! t = Some g → returned g = true).
Proof.
  intros (bs & m & g & gs & L & -> & Hok) Hf.
  pose proof (final_main_returned _ Hf) as Hm. simpl in *.
  pose proof (co_main _ _ _ _ _ _ _ Hok) as Hmain.
  destruct Hmain as [|Hlast]; [done|].
  pose proof (chain_exited _ _ _ _ _ _ _ Hok Hlast) as (-> & Hgs & H0 & Hst).
  pose proof (chain_closed_upstream _ _ _ _ _ _ _ Hok Hlast) as Hall.
  split; [|split].
  - rewrite (chain_output nums sts L H0 Hst (length sts)) by done.
    by rewrite firstn_all.
  - intros j Hj. assert (bs !! j = Some true) as Hb
      by (apply (Hall (length sts - j)); lia).
    split; [|split].
    + rewrite list_lookup_fmap, Hb. done.
    + by rewrite (co_closers _ _ _ _ _ _ _ Hok j true).
    + apply (co_recv _ _ _ _ _ _ _ Hok).
  - intros [|[|t]] x; simpl; intros Hx; simplify_eq; try done.
    by rewrite (Hgs _ _ Hx).
Qed.

(** If the consumer of channel [j] is waiting, some goroutine at or above
    [j] can move. *)
Ltac fire Hb :=
  simpl; eauto; try apply next_send_pt; try apply next_recv_pt;
  try (rewrite list_lookup_fmap, Hb; reflexivity).

Lemma chain_enabled nums sts bs g gs L :
  chain_ok nums sts bs (Range (length sts)) g gs L →
  ∀ j, j ≤ length sts →
    (∃ tr gr kr, (Range (length sts) :: g :: gs) !! tr = Some gr ∧
                 next gr = ARecv j kr ∧ tr ≠ S j) →
    ∃ σ', step (chain_shape bs (Range (length sts)) g gs L) σ'.
Proof.
  intros Hok. induction j as [|j IH]; intros Hj (tr & gr & kr & Htr & Hn & Hne).
  - destruct (co_gen _ _ _ _ _ _ _ Hok) as [rest Hb Hs|Hb Hs].
    + destruct rest as [|n rest].
      * eexists. apply step_transition. split; [done|].
        eapply (T_close _ 1 _ 0 _ (mkch false)); fire Hb.
      * eexists. apply step_transition. split; [done|].
        eapply (T_sync _ 1 tr _ _ 0 _ _ _ (mkch false)); fire Hb.
    + eexists. apply step_transition. split; [done|].
      eapply (T_recv_closed _ tr _ 0 _ (mkch true)); fire Hb.
  - assert (j < length sts) as Hlt by lia.
    apply lookup_lt_is_Some in Hlt as [st Hst].
    destruct (co_stages _ _ _ _ _ _ _ Hok j st Hst) as (gj & Hgj & Hs).
    destruct Hs as [Hb Hs|n Hb Hs|Hb Hb' Hs|Hb Hb' Hs].
    + apply IH; [lia|]. exists (S (S j)), (recv_pt st j (S j)). eexists.
      split; [done|]. split; [apply next_recv_pt|lia].
    + eexists. apply step_transition. split; [done|].
      eapply (T_sync _ (S (S j)) tr _ _ (S j) _ _ _ (mkch false)); fire Hb.
    + eexists. apply step_transition. split; [done|].
      eapply (T_close _ (S (S j)) _ (S j) _ (mkch false)); fire Hb'.
    + eexists. apply step_transition. split; [done|].
      eapply (T_recv_closed _ tr _ (S j) _ (mkch true)); fire Hb'.
Qed.

Lemma chain_progress nums sts σ :
  chain_inv nums sts σ → final σ = true ∨ ∃ σ', step σ σ'.
Proof.
  intros (bs & m & g & gs & L & -> & Hok).
  destruct (co_main _ _ _ _ _ _ _ Hok) as [|Hlast].
  - right. eapply (chain_enabled _ _ _ _ _ _ Hok (length sts)); [done|].
    exists 0, (Range (length sts)). eexists. by repeat split.
  - left. destruct (chain_exited _ _ _ _ _ _ _ Hok Hlast) as (-> & Hgs & _).
    unfold final. simpl. apply forallb_forall. intros x Hx.
    apply list_elem_of_In, list_elem_of_lookup in Hx as [i Hi].
    by rewrite (Hgs _ _ Hi).
Qed.

(** Every execution of a linear pipeline terminates, with all goroutines
    returned. *)
Lemma chain_terminates nums sts σ :
  chain_inv nums sts σ → inevitably (λ σ', final σ' = true ∧ chain_inv nums sts σ') σ.
Proof.
  apply (inevitably_measure (chain_inv nums sts) _ (chain_measure nums sts)).
  - intros σ0 Hinv. destruct (chain_progress _ _ _ Hinv); auto.
  - intros σ0 σ1 Hinv Hst. split.
    + by eapply chain_step.
    + by eapply chain_measure_step.
Qed.

(** ** The fan-in merger *)

(** *** Interleavings *)

Lemma interleave_snoc D out i l x :
  interleave D out → D !! i = Some l →
  interleave (<[i := l ++ [x]]> D) (out ++ [x]).
Proof.
  intros H. revert i l. induction H as [D HD|D j y l' out Hj _ IH]; intros i l Hi.
  - assert (l = []) as -> by (eapply (Forall_lookup_1 _ _ _ _ HD); eauto).
    simpl. apply (il_cons _ i x []).
    + apply list_lookup_insert_eq. by eapply lookup_lt_Some.
    + rewrite list_insert_insert_eq. apply il_nil. by apply Forall_insert.
  - simpl. destruct (decide (j = i)) as [->|Hne].
    + simplify_eq. apply (il_cons _ i y (l' ++ [x])).
      * rewrite list_lookup_insert_eq by (by eapply lookup_lt_Some). done.
      * rewrite list_insert_insert_eq.
        specialize (IH i l'). rewrite list_insert_insert_eq in IH.
        apply IH. apply list_lookup_insert_eq. by eapply lookup_lt_Some.
    + apply (il_cons _ j y l').
      * by rewrite list_lookup_insert_ne.
      * rewrite list_insert_insert_ne by done. apply IH.
        by rewrite list_lookup_insert_ne.
Qed.

Lemma concat_insert_cons (D : list (list Z)) i x l :
  D !! i = Some (x :: l) → concat D ≡ₚ x :: concat (<[i := l]> D).
Proof.
  revert i. induction D as [|d D IH]; intros [|i] Hi; simpl in *; try done.
  - by inversion Hi.
  - rewrite (IH i Hi). by rewrite Permutation_middle.
Qed.

Lemma interleave_perm D out : interleave D out → concat D ≡ₚ out.
Proof.
  induction 1 as [D HD|D i x l out Hi _ IH].
  - induction HD as [|d D -> _ IH]; simpl; auto.
  - rewrite (concat_insert_cons _ _ _ _ Hi). by rewrite IH.
Qed.

Lemma interleave_sublist D out i l :
  interleave D out → D !! i = Some l → l `sublist_of` out.
Proof.
  intros H. revert i l. induction H as [D HD|D j y l' out Hj _ IH]; intros i l Hi.
  - by rewrite (Forall_lookup_1 _ _ _ _ HD Hi).
  - destruct (decide (j = i)) as [->|Hne].
    + simplify_eq. apply sublist_skip. apply (IH i).
      apply list_lookup_insert_eq. by eapply lookup_lt_Some.
    + apply sublist_cons. apply (IH i). by rewrite list_lookup_insert_ne.
Qed.

Lemma interleave_length D out :
  interleave D out → length out = sum_list (length <$> D).
Proof.
  intros H. apply interleave_perm in H. rewrite <- H.
  clear. induction D as [|d D IH]; csimpl; [done|].
  rewrite length_app. lia.
Qed.

(** *** Set-up *)

Lemma for_each_generator inputs : ∀ σ,
  for_each inputs generator σ =
  (seq (length (chans σ)) (length inputs),
   Config (chans σ ++ replicate (length inputs) (mkch false)) (wgs σ)
     (pool σ ++ imap (λ i nums, Generate (length (chans σ) + i) nums) inputs)
     (log σ) (crashed σ)).
Proof.
  induction inputs as [|nums inputs IH]; intros σ; simpl.
  - rewrite !app_nil_r. by destruct σ.
  - unfold mbind, Go_bind, generator, make_chan, go, mret, Go_ret. simpl.
    rewrite IH. simpl. rewrite length_app, <- !app_assoc. simpl.
    rewrite Nat.add_0_r, Nat.add_1_r. do 4 f_equal.
    apply imap_ext. intros. simpl. f_equal. lia.
Qed.

Lemma for_each_cons_snd {A B} (x : A) xs (body : A → Go B) σ :
  (for_each (x :: xs) body σ).2 = (for_each xs body (body x σ).2).2.
Proof.
  simpl. unfold mbind, Go_bind, mret, Go_ret.
  destruct (body x σ) as [b σ1]. simpl. by destruct (for_each xs body σ1).
Qed.

Lemma for_each_forward lanes out : ∀ σ n,
  wgs σ = [n] →
  (for_each lanes (λ c, wg_add1 0;; go (ForwardRecv c out 0)) σ).2 =
  Config (chans σ) [n + length lanes]
    (pool σ ++ ((λ c, ForwardRecv c out 0) <$> lanes)) (log σ) (crashed σ).
Proof.
  induction lanes as [|c lanes IH]; intros σ n Hw.
  - simpl. rewrite app_nil_r, Nat.add_0_r, <- Hw. by destruct σ.
  - rewrite for_each_cons_snd.
    rewrite (IH _ (S n)) by (simpl; by rewrite Hw).
    simpl. rewrite <- app_assoc. simpl. do 2 f_equal. lia.
Qed.

Lemma fanIn_run lanes σ :
  wgs σ = [] →
  fanIn lanes σ =
  (length (chans σ),
   Config (chans σ ++ [mkch false]) [length lanes]
     (pool σ ++ ((λ c, ForwardRecv c (length (chans σ)) 0) <$> lanes)
        ++ [WaitClose 0 (length (chans σ))]) (log σ) (crashed σ)).
Proof.
  intros Hw.
  pose proof (for_each_forward lanes (length (chans σ))
    (Config (chans σ ++ [mkch false]) (wgs σ ++ [0]) (pool σ) (log σ)
       (crashed σ)) 0) as E.
  simpl in E. rewrite Hw in E. specialize (E eq_refl).
  unfold fanIn, mbind, Go_bind, make_chan, new_wg. rewrite Hw. simpl.
  match goal with |- context [for_each ?l ?f ?s] =>
    change (for_each l f s) with
      (for_each l (λ c, wg_add1 0;; go (ForwardRecv c (length (chans σ)) 0)) s)
  end.
  destruct (for_each lanes _ _) as [u σ2]. simpl in E. subst σ2.
  unfold go, mret, Go_ret. simpl. by rewrite <- app_assoc.
Qed.

Lemma merge_boot inputs :
  boot (merge_main inputs) =
  merge_shape (replicate (length inputs) false) false (length inputs)
    (Range (length inputs))
    (imap (λ i nums, Generate i nums) inputs)
    ((λ i, ForwardRecv i (length inputs) 0) <$> seq 0 (length inputs))
    (WaitClose 0 (length inputs)) [].
Proof.
  unfold boot, merge_main, mbind, Go_bind. rewrite for_each_generator.
  rewrite fanIn_run by done. simpl.
  unfold merge_shape. by rewrite length_replicate, length_seq, fmap_replicate.
Qed.

(** *** Reading and updating a merge configuration *)

Lemma merge_pool_lookup N (m : goroutine) gens fwds cl (t : nat) x :
  length gens = N → length fwds = N →
  (m :: gens ++ fwds ++ [cl]) !! t = Some x →
  (t = 0 ∧ x = m) ∨ (∃ i, t = S i ∧ i < N ∧ gens !! i = Some x) ∨
  (∃ i, t = S (N + i) ∧ i < N ∧ fwds !! i = Some x) ∨
  (t = S (N + N) ∧ x = cl).
Proof.
  intros Hg Hf. destruct t as [|t]; simpl; intros H.
  - left. by inversion H.
  - right. apply lookup_app_Some in H as [H|[Hle H]].
    { left. exists t. split; [done|]. split; [|done].
      rewrite <- Hg. by eapply lookup_lt_Some. }
    right. apply lookup_app_Some in H as [H|[Hle' H]].
    { left. exists (t - length gens). split; [lia|]. split; [|done].
      rewrite <- Hf. by eapply lookup_lt_Some. }
    right. apply list_lookup_singleton_Some in H as [H ->].
    split; [lia|done].
Qed.

Lemma merge_chan_lookup N (bs : list bool) bo (c : nat) ch :
  length bs = N →
  ((mkch <$> bs) ++ [mkch bo]) !! c = Some ch →
  (∃ b, c < N ∧ bs !! c = Some b ∧ ch = mkch b) ∨ (c = N ∧ ch = mkch bo).
Proof.
  intros Hb H. apply lookup_app_Some in H as [H|[Hle H]].
  - left. apply mkch_lookup in H as (b & H & ->). exists b.
    split; [|done]. rewrite <- Hb. by eapply lookup_lt_Some.
  - right. apply list_lookup_singleton_Some in H as [H ->].
    rewrite length_fmap in *. split; [lia|done].
Qed.

Lemma merge_lane_lookup (bs : list bool) bo (i : nat) b :
  bs !! i = Some b → ((mkch <$> bs) ++ [mkch bo]) !! i = Some (mkch b).
Proof.
  intros H. rewrite lookup_app_l.
  - by rewrite list_lookup_fmap, H.
  - rewrite length_fmap. by eapply lookup_lt_Some.
Qed.

Lemma merge_out_lookup N (bs : list bool) bo :
  length bs = N → ((mkch <$> bs) ++ [mkch bo]) !! N = Some (mkch bo).
Proof.
  intros <-. rewrite lookup_app_r by (by rewrite length_fmap).
  by rewrite length_fmap, Nat.sub_diag.
Qed.

Lemma merge_gen_lookup (m : goroutine) gens fwds cl (i : nat) g :
  gens !! i = Some g → (m :: gens ++ fwds ++ [cl]) !! S i = Some g.
Proof. intros H. simpl. by apply lookup_app_l_Some. Qed.

Lemma merge_fwd_lookup N (m : goroutine) gens fwds cl (i : nat) f :
  length gens = N → fwds !! i = Some f →
  (m :: gens ++ fwds ++ [cl]) !! S (N + i) = Some f.
Proof.
  intros <- H. simpl. rewrite lookup_app_r by lia.
  replace (length gens + i - length gens) with i by lia.
  by apply lookup_app_l_Some.
Qed.

Lemma merge_cl_lookup N (m : goroutine) gens fwds cl :
  length gens = N → length fwds = N →
  (m :: gens ++ fwds ++ [cl]) !! S (N + N) = Some cl.
Proof.
  intros Hg Hf. simpl. rewrite lookup_app_r by lia.
  rewrite lookup_app_r by lia.
  by replace (N + N - length gens - length fwds) with 0 by lia.
Qed.

Lemma merge_insert_gen (m : goroutine) gens fwds cl (i : nat) x :
  i < length gens →
  <[S i := x]> (m :: gens ++ fwds ++ [cl]) = m :: <[i := x]> gens ++ fwds ++ [cl].
Proof. intros H. simpl. by rewrite insert_app_l. Qed.

Lemma merge_insert_fwd N (m : goroutine) gens fwds cl (i : nat) x :
  length gens = N → i < length fwds →
  <[S (N + i) := x]> (m :: gens ++ fwds ++ [cl]) =
  m :: gens ++ <[i := x]> fwds ++ [cl].
Proof.
  intros <- H. simpl. rewrite insert_app_r_alt by lia.
  replace (length gens + i - length gens) with i by lia.
  by rewrite insert_app_l.
Qed.

Lemma merge_insert_cl N (m : goroutine) gens fwds cl x :
  length gens = N → length fwds = N →
  <[S (N + N) := x]> (m :: gens ++ fwds ++ [cl]) = m :: gens ++ fwds ++ [x].
Proof.
  intros Hg Hf. simpl. rewrite insert_app_r_alt by lia.
  rewrite insert_app_r_alt by lia.
  by replace (N + N - length gens - length fwds) with 0 by lia.
Qed.

Lemma merge_close_lane (bs : list bool) bo (i : nat) :
  i < length bs →
  <[i := Chan [] 0 true]> ((mkch <$> bs) ++ [mkch bo]) =
  (mkch <$> <[i := true]> bs) ++ [mkch bo].
Proof.
  intros H. rewrite insert_app_l by (by rewrite length_fmap).
  by rewrite list_fmap_insert.
Qed.

Lemma merge_close_out N (bs : list bool) bo :
  length bs = N →
  <[N := Chan [] 0 true]> ((mkch <$> bs) ++ [mkch bo]) =
  (mkch <$> bs) ++ [mkch true].
Proof.
  intros <-. rewrite insert_app_r_alt by (by rewrite length_fmap).
  by rewrite length_fmap, Nat.sub_diag.
Qed.

Lemma lgen_ok_frame nums b L i g es :
  lgen_ok nums b L i g → sent_on i es = [] → lgen_ok nums b (L ++ es) i g.
Proof.
  intros H E. destruct H; constructor; try done;
    by rewrite sent_on_app, E, app_nil_r.
Qed.

Lemma fwd_ok_frame N b b' L i f es :
  fwd_ok N b L i f → (b = true → b' = true) →
  sent_by (S (N + i)) N es = [] → sent_on i es = [] →
  fwd_ok N b' (L ++ es) i f.
Proof.
  intros H Hb E1 E2.
  destruct H; constructor; auto;
    rewrite ?sent_by_app, ?sent_on_app, ?E1, ?E2, ?app_nil_r; try done;
    apply elem_of_app; by left.
Qed.

(** The per-lane contributions to the output. *)
Lemma lanes_out_frame N L es :
  (∀ t, sent_by t N es = []) →
  (λ i, sent_by (S (N + i)) N (L ++ es)) <$> seq 0 N =
  (λ i, sent_by (S (N + i)) N L) <$> seq 0 N.
Proof.
  intros E. apply list_fmap_ext. intros _ i _.
  by rewrite sent_by_app, E, app_nil_r.
Qed.

Lemma lanes_out_snoc N L i v t' :
  i < N →
  (λ j, sent_by (S (N + j)) N
          (L ++ [EvSend (S (N + i)) N v; EvRecv t' N v])) <$> seq 0 N =
  <[i := sent_by (S (N + i)) N L ++ [v]]>
    ((λ j, sent_by (S (N + j)) N L) <$> seq 0 N).
Proof.
  intros Hi. apply list_eq. intros j.
  destruct (decide (j < N)) as [Hj|Hj].
  - destruct (decide (i = j)) as [->|Hne].
    + rewrite list_lookup_insert_eq by (by rewrite length_fmap, length_seq).
      rewrite list_lookup_fmap, lookup_seq_lt by done. simpl. f_equal. logs.
    + rewrite list_lookup_insert_ne by done.
      rewrite !list_lookup_fmap, lookup_seq_lt by done. simpl. f_equal. logs.
  - rewrite !lookup_ge_None_2; [done|..];
      rewrite ?length_insert, length_fmap, length_seq; lia.
Qed.

Lemma alive_sum_zero (fwds : list goroutine) (i : nat) f :
  sum_list (alive <$> fwds) = 0 → fwds !! i = Some f → f = Exited.
Proof.
  revert i. induction fwds as [|a fwds IH]; intros [|i]; csimpl;
    intros Hs Hi; try done.
  - inversion Hi; subst. destruct f; simpl in *; try lia; done.
  - apply (IH i); [lia|done].
Qed.

Section merge_cases.
Variable inputs : list (list Z).
Local Abbreviation N := (length inputs).

Lemma merge_lane_gen bs bo w m gens fwds cl L i g :
  merge_ok inputs bs bo w m gens fwds cl L → gens !! i = Some g →
  ∃ nums b f, inputs !! i = Some nums ∧ bs !! i = Some b ∧
              fwds !! i = Some f ∧ lgen_ok nums b L i g ∧ fwd_ok N b L i f.
Proof.
  intros Hok Hg.
  assert (i < N) as Hi.
  { rewrite <- (mo_gens _ _ _ _ _ _ _ _ _ Hok). by eapply lookup_lt_Some. }
  apply lookup_lt_is_Some in Hi as [nums Hn].
  destruct (mo_lanes _ _ _ _ _ _ _ _ _ Hok i nums Hn)
    as (b & g' & f & ? & ? & ? & ? & ?).
  simplify_eq. eauto 10.
Qed.

Lemma merge_lane_fwd bs bo w m gens fwds cl L i f :
  merge_ok inputs bs bo w m gens fwds cl L → fwds !! i = Some f →
  ∃ nums b g, inputs !! i = Some nums ∧ bs !! i = Some b ∧
              gens !! i = Some g ∧ lgen_ok nums b L i g ∧ fwd_ok N b L i f.
Proof.
  intros Hok Hf.
  assert (i < N) as Hi.
  { rewrite <- (mo_fwds _ _ _ _ _ _ _ _ _ Hok). by eapply lookup_lt_Some. }
  apply lookup_lt_is_Some in Hi as [nums Hn].
  destruct (mo_lanes _ _ _ _ _ _ _ _ _ Hok i nums Hn)
    as (b & g & f' & ? & ? & ? & ? & ?).
  simplify_eq. eauto 10.
Qed.

Ltac lane_other Hne :=
  rewrite ?list_lookup_insert_ne by done;
  eexists _, _, _; split_and!; try done;
  [ apply lgen_ok_frame; [done|logs]
  | eapply fwd_ok_frame; [done|done|logs|logs] ].

(** A generator hands an item to its forwarder. *)
Lemma merge_gen_send bs bo w m gens fwds cl L i v rest :
  merge_ok inputs bs bo w m gens fwds cl L →
  gens !! i = Some (Generate i (v :: rest)) →
  fwds !! i = Some (ForwardRecv i N 0) →
  merge_ok inputs bs bo w m (<[i := Generate i rest]> gens)
    (<[i := ForwardSend i N 0 v]> fwds) cl
    (L ++ [EvSend (S i) i v; EvRecv (S (N + i)) i v]).
Proof.
  intros Hok Hg Hf.
  destruct (merge_lane_gen _ _ _ _ _ _ _ _ _ _ Hok Hg)
    as (nums & b & f & Hin & Hb & Hf' & Hgen & Hfwd).
  simplify_eq. pose proof (lookup_lt_Some _ _ _ Hin) as Hi.
  pose proof (lookup_lt_Some _ _ _ Hg). pose proof (lookup_lt_Some _ _ _ Hf).
  destruct Hok as [mo_bs mo_gens mo_fwds mo_main mo_lanes mo_wg mo_cl mo_closers mo_closer
      mo_recv mo_merge].
  split; try done.
  - by rewrite length_insert.
  - by rewrite length_insert.
  - intros i' nums' Hi'. pose proof (lookup_lt_Some _ _ _ Hi').
    destruct (mo_lanes i' nums' Hi') as (b' & g' & f' & ? & ? & ? & ? & ?).
    destruct (decide (i' = i)) as [->|Hne]; [|lane_other Hne].
    simplify_eq. rewrite !list_lookup_insert_eq by done.
    eexists _, _, _; split_and!; try done.
    + inversion Hgen; subst. constructor; [done|]. logs.
      by rewrite <- app_assoc.
    + inversion Hfwd as [E| | |]; subst. constructor. logs. by rewrite E.
  - pose proof (sum_list_fmap_insert alive _ _ _ (ForwardSend i N 0 v) Hf).
    simpl in *. lia.
  - intros i' b' Hb'. logs; auto.
  - logs.
  - intros c. logs; by rewrite mo_recv.
  - rewrite lanes_out_frame by (intros; logs). logs.
Qed.

(** A generator closes its lane. *)
Lemma merge_gen_close bs bo w m gens fwds cl L i :
  merge_ok inputs bs bo w m gens fwds cl L →
  gens !! i = Some (Generate i []) →
  merge_ok inputs (<[i := true]> bs) bo w m (<[i := Exited]> gens) fwds cl
    (L ++ [EvClose (S i) i]).
Proof.
  intros Hok Hg.
  destruct (merge_lane_gen _ _ _ _ _ _ _ _ _ _ Hok Hg)
    as (nums & b & f & Hin & Hb & Hf & Hgen & Hfwd).
  pose proof (lookup_lt_Some _ _ _ Hin) as Hi.
  pose proof (lookup_lt_Some _ _ _ Hg). pose proof (lookup_lt_Some _ _ _ Hb).
  destruct Hok as [mo_bs mo_gens mo_fwds mo_main mo_lanes mo_wg mo_cl mo_closers mo_closer
      mo_recv mo_merge].
  split; try done.
  - by rewrite length_insert.
  - by rewrite length_insert.
  - intros i' nums' Hi'. pose proof (lookup_lt_Some _ _ _ Hi').
    destruct (mo_lanes i' nums' Hi') as (b' & g' & f' & ? & ? & ? & ? & ?).
    destruct (decide (i' = i)) as [->|Hne]; [|lane_other Hne].
    simplify_eq. rewrite !list_lookup_insert_eq by done.
    eexists _, _, _; split_and!; try done.
    + inversion Hgen as [? ? E|]; subst. constructor; [done|]. logs.
    + eapply fwd_ok_frame; [done|done|logs|logs].
  - intros i' b' Hb'. logs.
    + rewrite list_lookup_insert_eq in Hb' by done. simplify_eq.
      inversion Hgen; subst. by erewrite (mo_closers _ false) by done.
    + rewrite list_lookup_insert_ne in Hb' by done. auto.
  - logs.
  - intros c. logs; by rewrite mo_recv.
  - rewrite lanes_out_frame by (intros; logs). logs.
Qed.

(** A forwarder finds its lane closed. *)
Lemma merge_fwd_eof bs bo w m gens fwds cl L i :
  merge_ok inputs bs bo w m gens fwds cl L →
  fwds !! i = Some (ForwardRecv i N 0) → bs !! i = Some true →
  merge_ok inputs bs bo w m gens (<[i := DeferredDone 0]> fwds) cl
    (L ++ [EvRecvClosed (S (N + i)) i]).
Proof.
  intros Hok Hf Hb.
  destruct (merge_lane_fwd _ _ _ _ _ _ _ _ _ _ Hok Hf)
    as (nums & b & g & Hin & Hlb & Hg & Hgen & Hfwd).
  simplify_eq. pose proof (lookup_lt_Some _ _ _ Hin) as Hi.
  pose proof (lookup_lt_Some _ _ _ Hf).
  destruct Hok as [mo_bs mo_gens mo_fwds mo_main mo_lanes mo_wg mo_cl mo_closers mo_closer
      mo_recv mo_merge].
  split; try done.
  - by rewrite length_insert.
  - intros i' nums' Hi'. pose proof (lookup_lt_Some _ _ _ Hi').
    destruct (mo_lanes i' nums' Hi') as (b' & g' & f' & ? & ? & ? & ? & ?).
    destruct (decide (i' = i)) as [->|Hne]; [|lane_other Hne].
    simplify_eq. rewrite !list_lookup_insert_eq by done.
    eexists _, _, _; split_and!; try done.
    + apply lgen_ok_frame; [done|logs].
    + inversion Hfwd as [E| | |]; subst. constructor; [done|logs|].
      apply elem_of_app. right. by left.
  - pose proof (sum_list_fmap_insert alive _ _ _ (DeferredDone 0) Hf).
    simpl in *. lia.
  - intros i' b' Hb'. logs; auto.
  - logs.
  - intros c. logs; by rewrite mo_recv.
  - rewrite lanes_out_frame by (intros; logs). logs.
Qed.

(** A forwarder hands an item to main on the output channel. *)
Lemma merge_fwd_send bs bo w gens fwds cl L i v :
  merge_ok inputs bs bo w (Range N) gens fwds cl L →
  fwds !! i = Some (ForwardSend i N 0 v) →
  merge_ok inputs bs bo w (Range N) gens (<[i := ForwardRecv i N 0]> fwds) cl
    (L ++ [EvSend (S (N + i)) N v; EvRecv 0 N v]).
Proof.
  intros Hok Hf.
  destruct (merge_lane_fwd _ _ _ _ _ _ _ _ _ _ Hok Hf)
    as (nums & b & g & Hin & Hlb & Hg & Hgen & Hfwd).
  pose proof (lookup_lt_Some _ _ _ Hin) as Hi.
  pose proof (lookup_lt_Some _ _ _ Hf).
  destruct Hok as [mo_bs mo_gens mo_fwds mo_main mo_lanes mo_wg mo_cl mo_closers mo_closer
      mo_recv mo_merge].
  split; try done.
  - by rewrite length_insert.
  - intros i' nums' Hi'. pose proof (lookup_lt_Some _ _ _ Hi').
    destruct (mo_lanes i' nums' Hi') as (b' & g' & f' & ? & ? & ? & ? & ?).
    destruct (decide (i' = i)) as [->|Hne]; [|lane_other Hne].
    simplify_eq. rewrite !list_lookup_insert_eq by done.
    eexists _, _, _; split_and!; try done.
    + apply lgen_ok_frame; [done|logs].
    + inversion Hfwd as [|? E| |]; subst. constructor. logs.
  - pose proof (sum_list_fmap_insert alive _ _ _ (ForwardRecv i N 0) Hf).
    simpl in *. lia.
  - intros i' b' Hb'. logs; auto.
  - logs.
  - intros c. logs; by rewrite mo_recv.
  - rewrite lanes_out_snoc by done. logs. apply interleave_snoc; [done|].
    by rewrite list_lookup_fmap, lookup_seq_lt.
Qed.

(** The deferred [wg.Done()] of a forwarder. *)
Lemma merge_fwd_done bs bo n m gens fwds cl L i :
  merge_ok inputs bs bo (S n) m gens fwds cl L →
  fwds !! i = Some (DeferredDone 0) →
  merge_ok inputs bs bo n m gens (<[i := Exited]> fwds) cl
    (L ++ [EvDone (S (N + i)) 0]).
Proof.
  intros Hok Hf.
  destruct (merge_lane_fwd _ _ _ _ _ _ _ _ _ _ Hok Hf)
    as (nums & b & g & Hin & Hlb & Hg & Hgen & Hfwd).
  pose proof (lookup_lt_Some _ _ _ Hin) as Hi.
  pose proof (lookup_lt_Some _ _ _ Hf).
  destruct Hok as [mo_bs mo_gens mo_fwds mo_main mo_lanes mo_wg mo_cl mo_closers mo_closer
      mo_recv mo_merge].
  split; try done.
  - by rewrite length_insert.
  - intros i' nums' Hi'. pose proof (lookup_lt_Some _ _ _ Hi').
    destruct (mo_lanes i' nums' Hi') as (b' & g' & f' & ? & ? & ? & ? & ?).
    destruct (decide (i' = i)) as [->|Hne]; [|lane_other Hne].
    simplify_eq. rewrite !list_lookup_insert_eq by done.
    eexists _, _, _; split_and!; try done.
    + apply lgen_ok_frame; [done|logs].
    + inversion Hfwd; subst. constructor; [done|logs|].
      apply elem_of_app. by left.
  - pose proof (sum_list_fmap_insert alive _ _ _ Exited Hf).
    simpl in *. lia.
  - inversion mo_cl; subst; try done. by constructor.
  - intros i' b' Hb'. logs; auto.
  - logs.
  - intros c. logs; by rewrite mo_recv.
  - rewrite lanes_out_frame by (intros; logs). logs.
Qed.

Ltac lanes_same mo_lanes :=
  let i' := fresh "i" in
  let nums' := fresh "nums" in
  let Hi' := fresh "Hi" in
  intros i' nums' Hi'; pose proof (lookup_lt_Some _ _ _ Hi');
  destruct (mo_lanes i' nums' Hi') as (? & ? & ? & ? & ? & ? & ? & ?);
  eexists _, _, _; split_and!; try done;
  [ apply lgen_ok_frame; [done|logs]
  | eapply fwd_ok_frame; [done|done|logs|logs] ].

(** The closer: [wg.Wait()] returns, then [close(out)]. *)
Lemma merge_closer_wait bs bo m gens fwds L :
  merge_ok inputs bs bo 0 m gens fwds (WaitClose 0 N) L →
  merge_ok inputs bs bo 0 m gens fwds (CloseOut N)
    (L ++ [EvWait (S (N + N)) 0]).
Proof.
  intros [mo_bs mo_gens mo_fwds mo_main mo_lanes mo_wg mo_cl mo_closers mo_closer
      mo_recv mo_merge].
  split; try done.
  - lanes_same mo_lanes.
  - inversion mo_cl; subst. by constructor.
  - intros i' b' Hb'. logs; auto.
  - logs.
  - intros c. logs; by rewrite mo_recv.
  - rewrite lanes_out_frame by (intros; logs). logs.
Qed.

Lemma merge_closer_close bs bo w m gens fwds L :
  merge_ok inputs bs bo w m gens fwds (CloseOut N) L →
  merge_ok inputs bs true w m gens fwds Exited
    (L ++ [EvClose (S (N + N)) N]).
Proof.
  intros [mo_bs mo_gens mo_fwds mo_main mo_lanes mo_wg mo_cl mo_closers mo_closer
      mo_recv mo_merge].
  inversion mo_cl; subst. split; try done.
  - inversion mo_main; constructor; done.
  - lanes_same mo_lanes.
  - by constructor.
  - intros i' b' Hb'. pose proof (lookup_lt_Some _ _ _ Hb'). logs; auto.
  - logs. by rewrite mo_closer.
  - intros c. logs; by rewrite mo_recv.
  - rewrite lanes_out_frame by (intros; logs). logs.
Qed.

(** Main finds the output closed. *)
Lemma merge_main_eof bs w gens fwds cl L :
  merge_ok inputs bs true w (Range N) gens fwds cl L →
  merge_ok inputs bs true w Exited gens fwds cl (L ++ [EvRecvClosed 0 N]).
Proof.
  intros [mo_bs mo_gens mo_fwds mo_main mo_lanes mo_wg mo_cl mo_closers mo_closer
      mo_recv mo_merge].
  split; try done.
  - by constructor.
  - lanes_same mo_lanes.
  - intros i' b' Hb'. logs; auto.
  - logs.
  - intros c. logs; by rewrite mo_recv.
  - rewrite lanes_out_frame by (intros; logs). logs.
Qed.

End merge_cases.

(** Which goroutine a pool index denotes, with what the invariant says
    about it. *)
Lemma merge_thread inputs bs bo w m gens fwds cl L (t : nat) x :
  merge_ok inputs bs bo w m gens fwds cl L →
  (m :: gens ++ fwds ++ [cl]) !! t = Some x →
  (t = 0 ∧ x = m) ∨
  (∃ i nums b, t = S i ∧ inputs !! i = Some nums ∧ bs !! i = Some b ∧
               gens !! i = Some x ∧ lgen_ok nums b L i x) ∨
  (∃ i nums b, t = S (length inputs + i) ∧ inputs !! i = Some nums ∧
               bs !! i = Some b ∧ fwds !! i = Some x ∧
               fwd_ok (length inputs) b L i x) ∨
  (t = S (length inputs + length inputs) ∧ x = cl ∧
   cl_ok (length inputs) bo w cl).
Proof.
  intros Hok H.
  apply (merge_pool_lookup (length inputs)) in H
    as [?|[(i & -> & ? & H)|[(i & -> & ? & H)|[-> ->]]]];
    [by left| | | |by destruct Hok..].
  - right; left.
    destruct (merge_lane_gen _ _ _ _ _ _ _ _ _ _ _ Hok H)
      as (nums & b & f & ?). exists i, nums, b. naive_solver.
  - right; right; left.
    destruct (merge_lane_fwd _ _ _ _ _ _ _ _ _ _ _ Hok H)
      as (nums & b & g & ?). exists i, nums, b. naive_solver.
  - right; right; right. split; [done|]. split; [done|]. by destruct Hok.
Qed.

Lemma merge_chan inputs bs bo w m gens fwds cl L (c : nat) ch :
  merge_ok inputs bs bo w m gens fwds cl L →
  ((mkch <$> bs) ++ [mkch bo]) !! c = Some ch →
  (∃ b, c < length inputs ∧ bs !! c = Some b ∧ ch = mkch b) ∨
  (c = length inputs ∧ ch = mkch bo).
Proof.
  intros Hok. apply merge_chan_lookup. by destruct Hok.
Qed.

Ltac merge_classify Hok :=
  repeat match goal with
  | H : (_ :: _ ++ _ ++ [_]) !! _ = Some _ |- _ =>
      apply (merge_thread _ _ _ _ _ _ _ _ _ _ _ Hok) in H as
        [[-> ->]|[(? & ? & ? & -> & ? & ? & ? & ?)
                 |[(? & ? & ? & -> & ? & ? & ? & ?)
                  |(-> & -> & ?)]]]
  | H : ((mkch <$> _) ++ [mkch _]) !! _ = Some _ |- _ =>
      apply (merge_chan _ _ _ _ _ _ _ _ _ _ _ Hok) in H as
        [(? & ? & ? & ->)|[-> ->]]
  end.

Ltac merge_next :=
  repeat match goal with
  | H : next (Range _) = _ |- _ => simpl in H; try discriminate
  | H : lgen_ok _ _ _ _ _ |- _ => destruct H
  | H : fwd_ok _ _ _ _ _ |- _ => destruct H
  | H : cl_ok _ _ _ _ |- _ => destruct H
  | H : next (Generate _ ?r) = _ |- _ => destruct r; simpl in H
  | H : next _ = _ |- _ => progress simpl in H
  end; try discriminate;
  repeat match goal with
  | H : ASend _ _ _ = ASend _ _ _ |- _ => inversion H; clear H; subst
  | H : ARecv _ _ = ARecv _ _ |- _ => inversion H; clear H; subst
  | H : AClose _ _ = AClose _ _ |- _ => inversion H; clear H; subst
  | H : AWgDone _ _ = AWgDone _ _ |- _ => inversion H; clear H; subst
  | H : AWgWait _ _ = AWgWait _ _ |- _ => inversion H; clear H; subst
  end.

Lemma merge_insert_gen' (gens fwds : list goroutine) cl (i : nat) x :
  i < length gens →
  <[i := x]> (gens ++ fwds ++ [cl]) = <[i := x]> gens ++ fwds ++ [cl].
Proof. intros. by rewrite insert_app_l. Qed.

Lemma merge_insert_fwd' N (gens fwds : list goroutine) cl (i : nat) x :
  length gens = N → i < length fwds →
  <[N + i := x]> (gens ++ fwds ++ [cl]) = gens ++ <[i := x]> fwds ++ [cl].
Proof.
  intros <- H. rewrite insert_app_r_alt by lia.
  replace (length gens + i - length gens) with i by lia.
  by rewrite insert_app_l.
Qed.

Lemma merge_insert_cl' N (gens fwds : list goroutine) cl x :
  length gens = N → length fwds = N →
  <[N + N := x]> (gens ++ fwds ++ [cl]) = gens ++ fwds ++ [x].
Proof.
  intros Hg Hf. rewrite insert_app_r_alt by lia.
  rewrite insert_app_r_alt by lia.
  by replace (N + N - length gens - length fwds) with 0 by lia.
Qed.

(** While a forwarder has not returned, the counter is positive and the
    output is open. *)
Lemma merge_fwd_alive inputs bs bo w m gens fwds cl L i f :
  merge_ok inputs bs bo w m gens fwds cl L →
  fwds !! i = Some f → f ≠ Exited → 0 < w ∧ bo = false.
Proof.
  intros Hok Hf Hne.
  assert (0 < w) as Hw.
  { destruct (decide (w = 0)) as [->|]; [|lia]. exfalso. apply Hne.
    eapply alive_sum_zero; [|done]. by rewrite <- (mo_wg _ _ _ _ _ _ _ _ _ Hok). }
  split; [done|]. destruct (mo_cl _ _ _ _ _ _ _ _ _ Hok); try done. lia.
Qed.

Ltac merge_alive Hok :=
  match goal with
  | H : _ !! _ = Some ?f |- _ =>
      let Ha := fresh in
      assert (f ≠ Exited) as Ha by done;
      destruct (merge_fwd_alive _ _ _ _ _ _ _ _ _ _ _ Hok H Ha);
      first [lia|congruence]
  end.

Ltac merge_shape_eq :=
  unfold merge_shape;
  rewrite ?merge_close_lane by lia;
  rewrite ?(merge_close_out (length _)) by done;
  rewrite ?merge_insert_gen' by lia;
  rewrite ?(merge_insert_cl' (length _)) by done;
  rewrite ?(merge_insert_fwd' (length _))
    by (rewrite ?length_insert; first [done|lia]);
  reflexivity.

Ltac merge_finish lem :=
  eexists _, _, _, _, _, _, _, _; split; [merge_shape_eq|];
  eapply lem; eauto; congruence.

Lemma merge_step inputs σ σ' :
  merge_inv inputs σ → step σ σ' → merge_inv inputs σ'.
Proof.
  intros (bs & bo & w & m & gens & fwds & cl & L & -> & Hok)
    [Hh Ht]%step_transition.
  pose proof (mo_main _ _ _ _ _ _ _ _ _ Hok) as Hm.
  pose proof (mo_gens _ _ _ _ _ _ _ _ _ Hok) as Hlg.
  pose proof (mo_fwds _ _ _ _ _ _ _ _ _ Hok) as Hlf.
  pose proof (mo_bs _ _ _ _ _ _ _ _ _ Hok) as Hlb.
  unfold halted in Hh. simpl in Hh. destruct Hm; [clear Hh|done].
  inversion Ht; simplify_eq/=; merge_classify Hok; merge_next;
    simplify_eq/=; try lia; try congruence; clear Ht;
    try (lookup_bounds; lia); try merge_alive Hok; lookup_bounds.
  - merge_finish merge_main_eof.
  - merge_finish merge_fwd_eof.
  - merge_finish merge_gen_close.
  - merge_finish merge_closer_close.
  - merge_finish merge_fwd_done.
  - merge_finish merge_closer_wait.
  - merge_finish merge_fwd_send.
  - merge_finish merge_gen_send.
Qed.

(** *** Bounds, termination measure *)

Lemma sum_list_Forall2_le (l1 l2 : list nat) :
  Forall2 le l1 l2 → sum_list l1 ≤ sum_list l2.
Proof. induction 1; simpl; lia. Qed.

Lemma merge_lane_bounds inputs bs bo w m gens fwds cl L i nums :
  merge_ok inputs bs bo w m gens fwds cl L → inputs !! i = Some nums →
  length (sent_on i L) ≤ length nums ∧
  length (sent_by (S (length inputs + i)) (length inputs) L) ≤ length nums.
Proof.
  intros Hok Hi.
  destruct (mo_lanes _ _ _ _ _ _ _ _ _ Hok i nums Hi)
    as (b & g & f & _ & _ & _ & Hg & Hf).
  assert (length (sent_on i L) ≤ length nums) as H1.
  { destruct Hg as [rest _ <-|_ <-]; rewrite ?length_app; lia. }
  split; [done|].
  destruct Hf as [E|v E|_ E _|_ E _]; rewrite <- E in H1;
    rewrite ?length_app in H1; lia.
Qed.

Lemma merge_out_bound inputs bs bo w m gens fwds cl L :
  merge_ok inputs bs bo w m gens fwds cl L →
  length (sent_on (length inputs) L) ≤ sum_list (length <$> inputs).
Proof.
  intros Hok.
  rewrite (interleave_length _ _ (mo_merge _ _ _ _ _ _ _ _ _ Hok)).
  apply sum_list_Forall2_le. apply Forall2_fmap.
  apply Forall2_same_length_lookup_2.
  - by rewrite length_fmap, length_seq.
  - intros i d nums Hd Hn. rewrite list_lookup_fmap in Hd.
    rewrite lookup_seq_lt in Hd by (by eapply lookup_lt_Some).
    simpl in Hd. inversion Hd; subst.
    by destruct (merge_lane_bounds _ _ _ _ _ _ _ _ _ _ _ Hok Hn).
Qed.

Lemma merge_measure_step inputs σ σ' :
  merge_inv inputs σ → merge_inv inputs σ' → step σ σ' →
  merge_measure inputs σ' < merge_measure inputs σ.
Proof.
  intros (bs & bo & w & m & gens & fwds & cl & L & -> & Hok).
  intros (bs' & bo' & w' & m' & gens' & fwds' & cl' & L' & -> & Hok').
  intros [_ Ht]%step_transition. unfold merge_measure.
  replace (S (length inputs)) with
    (length (chans (merge_shape bs bo w m gens fwds cl L)))
    by (simpl; rewrite length_app, length_fmap,
          (mo_bs _ _ _ _ _ _ _ _ _ Hok); simpl; lia).
  apply item_measure_step; [done|done|]. intros c Hlt. simpl in *.
  rewrite length_app, length_fmap, (mo_bs _ _ _ _ _ _ _ _ _ Hok) in Hlt.
  simpl in Hlt.
  rewrite (mo_recv _ _ _ _ _ _ _ _ _ Hok'). unfold merge_cap.
  destruct (inputs !! c) as [nums|] eqn:Hc.
  - by destruct (merge_lane_bounds _ _ _ _ _ _ _ _ _ _ _ Hok' Hc).
  - apply lookup_ge_None in Hc. replace c with (length inputs) by lia.
    split; by eapply merge_out_bound.
Qed.

(** *** Progress and the final configuration *)

Lemma alive_sum_pos (fwds : list goroutine) :
  0 < sum_list (alive <$> fwds) →
  ∃ (i : nat) f, fwds !! i = Some f ∧ f ≠ Exited.
Proof.
  induction fwds as [|a fwds IH]; csimpl; [lia|]. intros H.
  destruct (alive a) eqn:Ha.
  - destruct IH as (i & f & ? & ?); [lia|]. by exists (S i), f.
  - exists 0, a. split; [done|]. by intros ->.
Qed.

(** Once the counter is zero every lane is finished. *)
Lemma merge_all_done inputs bs bo m gens fwds cl L i nums :
  merge_ok inputs bs bo 0 m gens fwds cl L → inputs !! i = Some nums →
  bs !! i = Some true ∧ gens !! i = Some Exited ∧ fwds !! i = Some Exited ∧
  sent_by (S (length inputs + i)) (length inputs) L = nums ∧
  sent_on i L = nums ∧ EvRecvClosed (S (length inputs + i)) i ∈ L.
Proof.
  intros Hok Hi.
  destruct (mo_lanes _ _ _ _ _ _ _ _ _ Hok i nums Hi)
    as (b & g & f & Hb & Hg & Hf & Hgen & Hfwd).
  assert (f = Exited) as ->.
  { eapply alive_sum_zero; [|done]. by rewrite <- (mo_wg _ _ _ _ _ _ _ _ _ Hok). }
  inversion Hfwd as [| | |Hbt E Hev]; subst.
  inversion Hgen as [|_ E']; subst; [done|]. by rewrite E.
Qed.

Lemma merge_progress inputs σ :
  merge_inv inputs σ → final σ = true ∨ ∃ σ', step σ σ'.
Proof.
  intros (bs & bo & w & m & gens & fwds & cl & L & -> & Hok).
  pose proof (mo_gens _ _ _ _ _ _ _ _ _ Hok) as Hlg.
  pose proof (mo_fwds _ _ _ _ _ _ _ _ _ Hok) as Hlf.
  pose proof (mo_bs _ _ _ _ _ _ _ _ _ Hok) as Hlb.
  destruct (mo_main _ _ _ _ _ _ _ _ _ Hok) as [|Hbo].
  - right. destruct (decide (w = 0)) as [->|Hw].
    + destruct (mo_cl _ _ _ _ _ _ _ _ _ Hok) as [Hbo|Hbo _|Hbo _].
      * eexists. apply step_transition. split; [done|].
        eapply (T_wait _ (S (length inputs + length inputs)) _ 0);
          [by apply merge_cl_lookup|done..].
      * eexists. apply step_transition. split; [done|].
        eapply (T_close _ (S (length inputs + length inputs)) _
                  (length inputs) _ (mkch bo));
          [by apply merge_cl_lookup|done|by apply merge_out_lookup|by subst].
      * eexists. apply step_transition. split; [done|].
        eapply (T_recv_closed _ 0 _ (length inputs) _ (mkch bo));
          [done|done|by apply merge_out_lookup|done|by subst].
    + destruct (alive_sum_pos fwds) as (i & f & Hf & Hne).
      { rewrite <- (mo_wg _ _ _ _ _ _ _ _ _ Hok). lia. }
      destruct (merge_fwd_alive _ _ _ _ _ _ _ _ _ _ _ Hok Hf Hne) as [_ ->].
      destruct (merge_lane_fwd _ _ _ _ _ _ _ _ _ _ _ Hok Hf)
        as (nums & b & g & Hin & Hb & Hg & Hgen & Hfwd).
      pose proof (lookup_lt_Some _ _ _ Hin).
      destruct Hfwd as [E|v E|Hbt E Hev|Hbt E Hev]; [| | |done].
      * destruct Hgen as [[|v rest] -> E'| -> E'].
        -- eexists. apply step_transition. split; [done|].
           eapply (T_close _ (S i) _ i _ (mkch false));
             [by apply merge_gen_lookup|done|by apply merge_lane_lookup|done].
        -- eexists. apply step_transition. split; [done|].
           eapply (T_sync _ (S i) (S (length inputs + i)) _ _ i _ _ _
                     (mkch false));
             [lia|by apply merge_gen_lookup|by apply merge_fwd_lookup
             |done|done|by apply merge_lane_lookup|done..].
        -- eexists. apply step_transition. split; [done|].
           eapply (T_recv_closed _ (S (length inputs + i)) _ i _ (mkch true));
             [by apply merge_fwd_lookup|done|by apply merge_lane_lookup
             |done..].
      * eexists. apply step_transition. split; [done|].
        eapply (T_sync _ (S (length inputs + i)) 0 _ _ (length inputs) _ _ _
                  (mkch false));
          [lia|by apply merge_fwd_lookup|done|done|done
          |by apply merge_out_lookup|done..].
      * destruct w as [|n]; [done|].
        eexists. apply step_transition. split; [done|].
        eapply (T_done _ (S (length inputs + i)) _ 0 _ n);
          [by apply merge_fwd_lookup|done..].
  - left. subst bo.
    assert (w = 0) as -> by (by destruct (mo_cl _ _ _ _ _ _ _ _ _ Hok)).
    assert (cl = Exited) as -> by (by destruct (mo_cl _ _ _ _ _ _ _ _ _ Hok)).
    unfold final. simpl. rewrite !forallb_app. simpl.
    rewrite andb_true_r. apply andb_true_intro. split.
    + apply forallb_forall. intros x Hx.
      apply list_elem_of_In, list_elem_of_lookup in Hx as [i Hi].
      assert (i < length inputs) as Hlt
        by (rewrite <- Hlg; by eapply lookup_lt_Some).
      apply lookup_lt_is_Some in Hlt as [nums Hn].
      destruct (merge_all_done _ _ _ _ _ _ _ _ _ _ Hok Hn) as (_ & ? & _).
      by simplify_eq.
    + apply forallb_forall. intros x Hx.
      apply list_elem_of_In, list_elem_of_lookup in Hx as [i Hi].
      assert (i < length inputs) as Hlt
        by (rewrite <- Hlf; by eapply lookup_lt_Some).
      apply lookup_lt_is_Some in Hlt as [nums Hn].
      destruct (merge_all_done _ _ _ _ _ _ _ _ _ _ Hok Hn) as (_ & _ & ? & _).
      by simplify_eq.
Qed.

Lemma merge_terminates inputs σ :
  merge_inv inputs σ →
  inevitably (λ σ', final σ' = true ∧ merge_inv inputs σ') σ.
Proof.
  apply (inevitably_measure (merge_inv inputs) _ (merge_measure inputs)).
  - intros σ0 Hinv. destruct (merge_progress _ _ Hinv); auto.
  - intros σ0 σ1 Hinv Hst.
    pose proof (merge_step _ _ _ Hinv Hst). split; [done|].
    by apply merge_measure_step.
Qed.

(** The closed output channel: everything upstream is finished. *)
Lemma merge_closed inputs bs w m gens fwds cl L :
  merge_ok inputs bs true w m gens fwds cl L →
  w = 0 ∧ cl = Exited ∧
  closers (length inputs) L = [S (length inputs + length inputs)] ∧
  ∀ i nums, inputs !! i = Some nums →
    bs !! i = Some true ∧ gens !! i = Some Exited ∧ fwds !! i = Some Exited ∧
    sent_by (S (length inputs + i)) (length inputs) L = nums ∧
    sent_on i L = nums ∧ EvRecvClosed (S (length inputs + i)) i ∈ L.
Proof.
  intros Hok.
  destruct (mo_cl _ _ _ _ _ _ _ _ _ Hok) as [|?|_ ->]; try done.
  split; [done|]. split; [done|]. split.
  - apply (mo_closer _ _ _ _ _ _ _ _ _ Hok).
  - intros i nums Hi. by eapply merge_all_done.
Qed.

Lemma merge_final_output inputs bs w m gens fwds cl L :
  merge_ok inputs bs true w m gens fwds cl L →
  interleave inputs (sent_on (length inputs) L).
Proof.
  intros Hok. destruct (merge_closed _ _ _ _ _ _ _ _ Hok) as (-> & _ & _ & Hl).
  pose proof (mo_merge _ _ _ _ _ _ _ _ _ Hok) as Hm.
  replace ((λ i, sent_by (S (length inputs + i)) (length inputs) L)
             <$> seq 0 (length inputs)) with inputs in Hm; [done|].
  apply list_eq. intros i. rewrite list_lookup_fmap.
  destruct (inputs !! i) as [nums|] eqn:Hi.
  - rewrite lookup_seq_lt by (by eapply lookup_lt_Some). simpl.
    destruct (Hl i nums Hi) as (_ & _ & _ & -> & _). done.
  - apply lookup_ge_None in Hi. by rewrite lookup_seq_ge.
Qed.

Lemma merge_boot_inv inputs : merge_inv inputs (boot (merge_main inputs)).
Proof.
  rewrite merge_boot. do 8 eexists. split; [done|]. split.
  - by rewrite length_replicate.
  - by rewrite length_imap.
  - by rewrite length_fmap, length_seq.
  - constructor.
  - intros i nums Hi. pose proof (lookup_lt_Some _ _ _ Hi).
    exists false, (Generate i nums), (ForwardRecv i (length inputs) 0).
    split_and!.
    + by apply lookup_replicate_2.
    + by rewrite list_lookup_imap, Hi.
    + by rewrite list_lookup_fmap, lookup_seq_lt.
    + by constructor.
    + by constructor.
  - rewrite <- list_fmap_compose.
    erewrite (list_fmap_ext _ (λ _, 1)) by done.
    rewrite sum_list_fmap_const, length_seq. lia.
  - by constructor.
  - intros i b [-> _]%lookup_replicate. done.
  - done.
  - done.
  - apply il_nil. apply Forall_fmap, Forall_forall. done.
Qed.

(** ** The worker pool *)

Lemma wrap64_small z : (- 2 ^ 63 ≤ z < 2 ^ 63)%Z → wrap64 z = z.
Proof. intros H. unfold wrap64. rewrite Z.mod_small; lia. Qed.

Lemma int_add_succ (j : nat) :
  (Z.of_nat j < 2 ^ 63 - 1)%Z → int_add (Z.of_nat j) 1 = Z.of_nat (S j).
Proof. intros H. unfold int_add. rewrite wrap64_small; lia. Qed.

Lemma jobs_before_succ j : 1 ≤ j → jobs_before (S j) = jobs_before j ++ [Z.of_nat j].
Proof.
  intros H. unfold jobs_before. simpl. rewrite Nat.sub_0_r.
  replace j with (S (j - 1)) at 1 by lia.
  rewrite seq_S, fmap_app. simpl. do 3 f_equal. lia.
Qed.

Lemma for_each_workers w : ∀ k σ n,
  wgs σ = [n] →
  (for_each (seq k w) (λ _, wg_add1 0;; go (WorkerRecv 0 1 0)) σ).2 =
  Config (chans σ) [n + w] (pool σ ++ replicate w (WorkerRecv 0 1 0))
    (log σ) (crashed σ).
Proof.
  induction w as [|w IH]; intros k σ n Hw.
  - simpl. rewrite app_nil_r, Nat.add_0_r, <- Hw. by destruct σ.
  - simpl seq. rewrite for_each_cons_snd.
    rewrite (IH _ _ (S n)) by (simpl; by rewrite Hw).
    simpl. rewrite <- app_assoc. simpl. do 2 f_equal. lia.
Qed.

Lemma pool_boot nJ w :
  boot (pool_main nJ w) =
  pool_shape nJ [] false [] false w
    (PoolFeed 0 1 0 (Z.of_nat nJ) 1) (replicate w (WorkerRecv 0 1 0)) [].
Proof.
  pose proof (for_each_workers w 1
    (Config [Chan [] nJ false; Chan [] nJ false] [0] [Exited] [] false)
    0 eq_refl) as E.
  unfold boot, pool_main, mbind, Go_bind, make_chan, new_wg. simpl.
  match goal with |- context [for_each ?l ?f ?s] =>
    change (for_each l f s) with
      (for_each l (λ _, wg_add1 0;; go (WorkerRecv 0 1 0)) s)
  end.
  destruct (for_each _ _ _) as [u σ2]. simpl in E. subst σ2. done.
Qed.

Lemma alive_replicate n g : sum_list (alive <$> replicate n g) = n * alive g.
Proof. induction n; csimpl; lia. Qed.

Lemma pool_boot_inv nJ w :
  (Z.of_nat nJ < 2 ^ 63 - 1)%Z → pool_inv nJ w (boot (pool_main nJ w)).
Proof.
  intros Hint. rewrite pool_boot. do 8 eexists. split; [done|]. split; try done.
  - by rewrite length_replicate.
  - rewrite alive_replicate. simpl. lia.
  - simpl. induction w; csimpl; auto.
  - intros i g [-> _]%lookup_replicate. constructor.
  - apply (pm_feed _ _ _ _ _ _ 1); try done. lia.
Qed.

Lemma worker_ok_busy cj jb cj' jb' g :
  worker_ok cj jb g → cj = false ∨ jb ≠ [] → worker_ok cj' jb' g.
Proof. intros H Hor. destruct H; try constructor; naive_solver. Qed.

Lemma pool_worker_alive nJ w jb cj rb cr wg m ws L i g :
  pool_ok nJ w jb cj rb cr wg m ws L →
  ws !! i = Some g → g ≠ Exited → 0 < wg.
Proof.
  intros Hok Hg Hne. destruct (decide (wg = 0)) as [->|]; [|lia].
  exfalso. apply Hne. eapply alive_sum_zero; [|done].
  by rewrite <- (po_wg _ _ _ _ _ _ _ _ _ _ Hok).
Qed.

Lemma pmain_ok_frame nJ cj cr rb wg L m es :
  pmain_ok nJ cj cr rb wg L m →
  sent_on 0 es = [] → received_from 1 es = [] →
  pmain_ok nJ cj cr rb wg (L ++ es) m.
Proof.
  intros H E1 E2. destruct H; constructor; try done;
    rewrite ?sent_on_app, ?received_from_app, ?E1, ?E2, ?app_nil_r; done.
Qed.

(** main queues job [j]. *)
Lemma pool_feed nJ w jb cj rb cr wg ws L j :
  pool_ok nJ w jb cj rb cr wg
    (PoolFeed 0 1 0 (Z.of_nat nJ) (Z.of_nat j)) ws L →
  j ≤ nJ →
  pool_ok nJ w (jb ++ [Z.of_nat j]) cj rb cr wg
    (PoolFeed 0 1 0 (Z.of_nat nJ) (Z.of_nat (S j))) ws
    (L ++ [EvSend 0 0 (Z.of_nat j)]).
Proof.
  intros [po_int po_ws po_wg po_jobs po_results po_held po_workers po_main
      po_closers0 po_closers1 po_idle]
      Hj.
  inversion po_main as [j' Hj' Hcj Hcr Hs Hr Heq| | | |]; subst.
  apply Nat2Z.inj in Heq. subst j'.
  split; try done.
  - logs. by rewrite po_jobs, app_assoc.
  - logs.
  - logs.
  - intros i g Hg. eapply worker_ok_busy; eauto.
  - constructor; try done; [lia| |logs].
    logs. rewrite jobs_before_succ by lia. by rewrite Hs.
  - logs.
  - logs.
  - intros Hw0. logs. auto.
Qed.

(** main closes [jobs]. *)
Lemma pool_close_jobs nJ w jb cj rb cr wg ws L :
  pool_ok nJ w jb cj rb cr wg
    (PoolFeed 0 1 0 (Z.of_nat nJ) (Z.of_nat (S nJ))) ws L →
  pool_ok nJ w jb true rb cr wg (PoolWait 1 0) ws (L ++ [EvClose 0 0]).
Proof.
  intros [po_int po_ws po_wg po_jobs po_results po_held po_workers po_main
      po_closers0 po_closers1 po_idle].
  inversion po_main as [j' Hj' Hcj Hcr Hs Hr Heq| | | |]; subst.
  apply Nat2Z.inj in Heq. subst j'.
  split; try done.
  - logs.
  - logs.
  - logs.
  - intros i g Hg. eapply worker_ok_busy; eauto.
  - constructor; try done; logs.
  - logs. by rewrite po_closers0.
  - logs.
  - intros Hw0. logs. auto.
Qed.

(** A worker takes a job from the queue. *)
Lemma pool_worker_recv nJ w jb cj rb cr wg m ws L i v :
  pool_ok nJ w (v :: jb) cj rb cr wg m ws L →
  ws !! i = Some (WorkerRecv 0 1 0) →
  pool_ok nJ w jb cj rb cr wg m (<[i := WorkerSend 0 1 0 v]> ws)
    (L ++ [EvRecv (S i) 0 v]).
Proof.
  intros [po_int po_ws po_wg po_jobs po_results po_held po_workers po_main
      po_closers0 po_closers1 po_idle]
      Hi.
  split; try done.
  - by rewrite length_insert.
  - pose proof (sum_list_fmap_insert alive _ _ _ (WorkerSend 0 1 0 v) Hi).
    simpl in *. lia.
  - logs. by rewrite po_jobs, <- app_assoc.
  - logs.
  - pose proof (sum_list_fmap_insert holding _ _ _ (WorkerSend 0 1 0 v) Hi).
    logs. rewrite length_app. simpl in *. lia.
  - intros i' g Hg. destruct (decide (i' = i)) as [->|Hne].
    + rewrite list_lookup_insert_eq in Hg by (by eapply lookup_lt_Some).
      inversion Hg. constructor.
    + rewrite list_lookup_insert_ne in Hg by done.
      eapply worker_ok_busy; eauto.
  - apply pmain_ok_frame; [done|logs..].
  - logs.
  - logs.
  - intros ->. apply lookup_lt_Some in Hi. lia.
Qed.

(** A worker finds [jobs] closed and drained. *)
Lemma pool_worker_eof nJ w rb cr wg m ws L i :
  pool_ok nJ w [] true rb cr wg m ws L →
  ws !! i = Some (WorkerRecv 0 1 0) →
  pool_ok nJ w [] true rb cr wg m (<[i := DeferredDone 0]> ws)
    (L ++ [EvRecvClosed (S i) 0]).
Proof.
  intros [po_int po_ws po_wg po_jobs po_results po_held po_workers po_main
      po_closers0 po_closers1 po_idle]
      Hi.
  split; try done.
  - by rewrite length_insert.
  - pose proof (sum_list_fmap_insert alive _ _ _ (DeferredDone 0) Hi).
    simpl in *. lia.
  - logs. by rewrite app_nil_r in po_jobs.
  - logs.
  - pose proof (sum_list_fmap_insert holding _ _ _ (DeferredDone 0) Hi).
    logs. simpl in *. lia.
  - intros i' g Hg. destruct (decide (i' = i)) as [->|Hne].
    + rewrite list_lookup_insert_eq in Hg by (by eapply lookup_lt_Some).
      inversion Hg. by constructor.
    + rewrite list_lookup_insert_ne in Hg by done. eauto.
  - apply pmain_ok_frame; [done|logs..].
  - logs.
  - logs.
  - intros Hw0. logs. auto.
Qed.

Lemma pmain_ok_running nJ cj cr rb wg L m rb' wg' :
  pmain_ok nJ cj cr rb wg L m → 0 < wg →
  pmain_ok nJ cj cr rb' wg' L m.
Proof. intros H Hw. destruct H; try lia; by constructor. Qed.

(** A worker queues a result. *)
Lemma pool_worker_send nJ w jb cj rb cr wg m ws L i job :
  pool_ok nJ w jb cj rb cr wg m ws L →
  ws !! i = Some (WorkerSend 0 1 0 job) →
  pool_ok nJ w jb cj (rb ++ [int_mul job 2]) cr wg m
    (<[i := WorkerRecv 0 1 0]> ws)
    (L ++ [EvSend (S i) 1 (int_mul job 2)]).
Proof.
  intros Hok Hi.
  assert (0 < wg) by (by eapply pool_worker_alive).
  destruct Hok as [po_int po_ws po_wg po_jobs po_results po_held po_workers po_main
      po_closers0 po_closers1 po_idle].
  split; try done.
  - by rewrite length_insert.
  - pose proof (sum_list_fmap_insert alive _ _ _ (WorkerRecv 0 1 0) Hi).
    simpl in *. lia.
  - logs.
  - logs. by rewrite po_results, app_assoc.
  - pose proof (sum_list_fmap_insert holding _ _ _ (WorkerRecv 0 1 0) Hi).
    logs. rewrite length_app. simpl in *. lia.
  - intros i' g Hg. destruct (decide (i' = i)) as [->|Hne].
    + rewrite list_lookup_insert_eq in Hg by (by eapply lookup_lt_Some).
      inversion Hg. constructor.
    + rewrite list_lookup_insert_ne in Hg by done. eauto.
  - apply pmain_ok_frame; [|logs..]. by eapply pmain_ok_running.
  - logs.
  - logs.
  - intros Hw0. logs. auto.
Qed.

(** The deferred [wg.Done()] of a worker. *)
Lemma pool_worker_done nJ w jb cj rb cr n m ws L i :
  pool_ok nJ w jb cj rb cr (S n) m ws L →
  ws !! i = Some (DeferredDone 0) →
  pool_ok nJ w jb cj rb cr n m (<[i := Exited]> ws)
    (L ++ [EvDone (S i) 0]).
Proof.
  intros [po_int po_ws po_wg po_jobs po_results po_held po_workers po_main
      po_closers0 po_closers1 po_idle]
      Hi.
  pose proof (po_workers _ _ Hi) as Hw.
  inversion Hw; subst. split; try done.
  - by rewrite length_insert.
  - pose proof (sum_list_fmap_insert alive _ _ _ Exited Hi).
    simpl in *. lia.
  - logs. by rewrite app_nil_r in po_jobs.
  - logs.
  - pose proof (sum_list_fmap_insert holding _ _ _ Exited Hi).
    logs. simpl in *. lia.
  - intros i' g Hg. destruct (decide (i' = i)) as [->|Hne].
    + rewrite list_lookup_insert_eq in Hg by (by eapply lookup_lt_Some).
      inversion Hg. by constructor.
    + rewrite list_lookup_insert_ne in Hg by done. eauto.
  - apply pmain_ok_frame; [|logs..]. eapply pmain_ok_running; [done|lia].
  - logs.
  - logs.
  - intros Hw0. logs. auto.
Qed.

(** main: [wg.Wait()] returns, [close(results)], then the range loop. *)
Lemma pool_main_wait nJ w jb cj rb cr ws L :
  pool_ok nJ w jb cj rb cr 0 (PoolWait 1 0) ws L →
  pool_ok nJ w jb cj rb cr 0 (PoolCloseResults 1) ws (L ++ [EvWait 0 0]).
Proof.
  intros [po_int po_ws po_wg po_jobs po_results po_held po_workers po_main
      po_closers0 po_closers1 po_idle].
  inversion po_main; subst. split; try done; try logs.
  constructor; try done; logs.
Qed.

Lemma pool_close_results nJ w jb cj rb cr wg ws L :
  pool_ok nJ w jb cj rb cr wg (PoolCloseResults 1) ws L →
  pool_ok nJ w jb cj rb true wg (Range 1) ws (L ++ [EvClose 0 1]).
Proof.
  intros [po_int po_ws po_wg po_jobs po_results po_held po_workers po_main
      po_closers0 po_closers1 po_idle].
  inversion po_main; subst. split; try done; try logs.
  - constructor; try done; logs.
  - by rewrite po_closers1.
Qed.

Lemma pool_main_recv nJ w jb cj rb cr wg ws L v :
  pool_ok nJ w jb cj (v :: rb) cr wg (Range 1) ws L →
  pool_ok nJ w jb cj rb cr wg (Range 1) ws (L ++ [EvRecv 0 1 v]).
Proof.
  intros [po_int po_ws po_wg po_jobs po_results po_held po_workers po_main
      po_closers0 po_closers1 po_idle].
  inversion po_main; subst. split; try done; try logs.
  - by rewrite po_results, <- app_assoc.
  - constructor; try done; logs.
Qed.

Lemma pool_main_eof nJ w jb cj cr wg ws L :
  pool_ok nJ w jb cj [] cr wg (Range 1) ws L →
  pool_ok nJ w jb cj [] cr wg Exited ws (L ++ [EvRecvClosed 0 1]).
Proof.
  intros [po_int po_ws po_wg po_jobs po_results po_held po_workers po_main
      po_closers0 po_closers1 po_idle].
  inversion po_main; subst. split; try done; try logs.
  - by rewrite app_nil_r in po_results.
  - constructor; try done; logs.
Qed.

Lemma pool_thread nJ w jb cj rb cr wg m ws L (t : nat) x :
  pool_ok nJ w jb cj rb cr wg m ws L →
  (m :: ws) !! t = Some x →
  (t = 0 ∧ x = m ∧ pmain_ok nJ cj cr rb wg L m) ∨
  (∃ i, t = S i ∧ ws !! i = Some x ∧ worker_ok cj jb x).
Proof.
  intros Hok. destruct t as [|i]; simpl; intros H.
  - left. inversion H; subst. split; [done|]. split; [done|]. by destruct Hok.
  - right. exists i. split; [done|]. split; [done|].
    by eapply (po_workers _ _ _ _ _ _ _ _ _ _ Hok).
Qed.

Lemma pool_chan nJ jb cj rb cr (c : nat) ch :
  [Chan jb nJ cj; Chan rb nJ cr] !! c = Some ch →
  (c = 0 ∧ ch = Chan jb nJ cj) ∨ (c = 1 ∧ ch = Chan rb nJ cr).
Proof. destruct c as [|[|c]]; simpl; intros H; inversion H; auto. Qed.

Ltac pool_classify Hok :=
  repeat match goal with
  | H : (_ :: _) !! _ = Some _ |- _ =>
      apply (pool_thread _ _ _ _ _ _ _ _ _ _ _ _ Hok) in H as
        [(-> & -> & ?)|(? & -> & ? & ?)]
  | H : [Chan _ _ _; Chan _ _ _] !! _ = Some _ |- _ =>
      apply pool_chan in H as [[-> ->]|[-> ->]]
  end.

Ltac pool_next :=
  repeat match goal with
  | H : pmain_ok _ _ _ _ _ _ _ |- _ => destruct H
  | H : worker_ok _ _ _ |- _ => destruct H
  | H : next (PoolFeed _ _ _ ?a ?b) = _ |- _ =>
      simpl in H; destruct (Z.leb_spec b a)
  | H : next _ = _ |- _ => progress simpl in H
  end; try discriminate;
  repeat match goal with
  | H : ASend _ _ _ = ASend _ _ _ |- _ => inversion H; clear H; subst
  | H : ARecv _ _ = ARecv _ _ |- _ => inversion H; clear H; subst
  | H : AClose _ _ = AClose _ _ |- _ => inversion H; clear H; subst
  | H : AWgDone _ _ = AWgDone _ _ |- _ => inversion H; clear H; subst
  | H : AWgWait _ _ = AWgWait _ _ |- _ => inversion H; clear H; subst
  end.

Lemma pool_results_closed nJ w jb cj rb wg m ws L :
  pool_ok nJ w jb cj rb true wg m ws L → wg = 0.
Proof. intros [po_int po_ws po_wg po_jobs po_results po_held po_workers po_main
    po_closers0 po_closers1 po_idle].
by inversion po_main. Qed.

Ltac pool_alive Hok :=
  match goal with
  | H : _ !! _ = Some ?f |- _ =>
      let Ha := fresh in
      assert (f ≠ Exited) as Ha by done;
      pose proof (pool_worker_alive _ _ _ _ _ _ _ _ _ _ _ _ Hok H Ha);
      try pose proof (pool_results_closed _ _ _ _ _ _ _ _ _ Hok);
      lia
  end.

Ltac pool_finish lem :=
  eexists _, _, _, _, _, _, _, _; split; [reflexivity|];
  eapply lem; eauto.

Lemma pool_step nJ w σ σ' :
  pool_inv nJ w σ → step σ σ' → pool_inv nJ w σ'.
Proof.
  intros (jb & cj & rb & cr & wg & m & ws & L & -> & Hok)
    [Hh Ht]%step_transition.
  pose proof (po_int _ _ _ _ _ _ _ _ _ _ Hok) as Hint.
  inversion Ht; simplify_eq/=; pool_classify Hok; pool_next;
    simplify_eq/=; try lia; try congruence; clear Ht;
    try pool_alive Hok.
  - rewrite int_add_succ by lia. pool_finish pool_feed. lia.
  - pool_finish pool_worker_send.
  - pool_finish pool_main_recv.
  - pool_finish pool_worker_recv.
  - pool_finish pool_main_eof.
  - pool_finish pool_worker_eof.
  - assert (j = S nJ) as -> by lia. pool_finish pool_close_jobs.
  - pool_finish pool_close_results.
  - pool_finish pool_worker_done.
  - pool_finish pool_main_wait.
Qed.

Lemma jobs_before_length j : length (jobs_before j) = j - 1.
Proof. unfold jobs_before. by rewrite length_fmap, length_seq. Qed.

Lemma pool_sent_bound nJ cj cr rb wg L m :
  pmain_ok nJ cj cr rb wg L m → length (sent_on 0 L) ≤ nJ.
Proof.
  destruct 1 as [j ? ? ? E| ? ? E| ? ? ? E| ? ? ? E| ? ? ? ? E];
    rewrite E, jobs_before_length; lia.
Qed.

Lemma pool_bounds nJ w jb cj rb cr wg m ws L :
  pool_ok nJ w jb cj rb cr wg m ws L →
  length (sent_on 0 L) ≤ nJ ∧
  length (received_from 0 L) + length jb = length (sent_on 0 L) ∧
  length (sent_on 1 L) + sum_list (holding <$> ws) =
    length (received_from 0 L) ∧
  length (received_from 1 L) + length rb = length (sent_on 1 L).
Proof.
  intros [po_int po_ws po_wg po_jobs po_results po_held po_workers po_main
      po_closers0 po_closers1 po_idle].
  split; [by eapply pool_sent_bound|].
  rewrite po_jobs, po_results, !length_app. rewrite po_results in po_held.
  rewrite length_app in po_held. lia.
Qed.

Lemma pool_measure_step nJ w σ σ' :
  pool_inv nJ w σ → pool_inv nJ w σ' → step σ σ' →
  pool_measure nJ σ' < pool_measure nJ σ.
Proof.
  intros (jb & cj & rb & cr & wg & m & ws & L & -> & Hok).
  intros (jb' & cj' & rb' & cr' & wg' & m' & ws' & L' & -> & Hok').
  intros [_ Ht]%step_transition. unfold pool_measure.
  change 2 with (length (chans (pool_shape nJ jb cj rb cr wg m ws L))).
  apply item_measure_step; [done|done|]. intros c Hc. simpl in *.
  destruct (pool_bounds _ _ _ _ _ _ _ _ _ _ Hok') as (? & ? & ? & ?).
  destruct c as [|[|c]]; [lia|lia|lia].
Qed.

Lemma holding_pos (ws : list goroutine) (i : nat) jobs results wg job :
  ws !! i = Some (WorkerSend jobs results wg job) →
  0 < sum_list (holding <$> ws).
Proof.
  revert i. induction ws as [|a ws IH]; intros [|i] H; csimpl in *; try done.
  - inversion H. simpl. lia.
  - specialize (IH i H). lia.
Qed.

Lemma next_feed_send jobs results wg nJ j :
  (j ≤ nJ)%Z →
  next (PoolFeed jobs results wg nJ j) =
  ASend jobs j (PoolFeed jobs results wg nJ (int_add j 1)).
Proof. intros. simpl. destruct (Z.leb_spec j nJ); [done|lia]. Qed.

Lemma next_feed_close jobs results wg nJ j :
  (nJ < j)%Z →
  next (PoolFeed jobs results wg nJ j) = AClose jobs (PoolWait results wg).
Proof. intros. simpl. destruct (Z.leb_spec j nJ); [lia|done]. Qed.

Lemma pool_progress nJ w σ :
  pool_inv nJ w σ → final σ = true ∨ ∃ σ', step σ σ'.
Proof.
  intros (jb & cj & rb & cr & wg & m & ws & L & -> & Hok).
  destruct (pool_bounds _ _ _ _ _ _ _ _ _ _ Hok) as (B1 & B2 & B3 & B4).
  pose proof (po_main _ _ _ _ _ _ _ _ _ _ Hok) as Hm.
  destruct Hm as [j Hj Hcj Hcr Hs Hr|Hcj Hcr Hs Hr|Hcj Hcr Hw Hs Hr
                 |Hcj Hcr Hw Hs|Hcj Hcr Hw Hrb Hs]; subst.
  - right. rewrite Hs, jobs_before_length in B2.
    assert (halted (pool_shape nJ jb false rb false wg
              (PoolFeed 0 1 0 (Z.of_nat nJ) (Z.of_nat j)) ws L) = false)
      as Hh.
    { unfold halted, main_returned, returned. simpl.
      by destruct (Z.of_nat j <=? Z.of_nat nJ)%Z. }
    destruct (decide (j ≤ nJ)) as [Hle|Hgt].
    + eexists. apply step_transition. split; [done|].
      eapply (T_send _ 0 _ 0 (Z.of_nat j) _ (Chan jb nJ false)); simpl;
        [reflexivity| |done|done|lia].
      apply next_feed_send. lia.
    + eexists. apply step_transition. split; [done|].
      eapply (T_close _ 0 _ 0 _ (Chan jb nJ false)); simpl;
        [reflexivity| |done..].
      apply next_feed_close. lia.
  - right. pose proof (po_wg _ _ _ _ _ _ _ _ _ _ Hok) as Hwg.
    destruct (decide (wg = 0)) as [Hw|Hw].
    + eexists. apply step_transition. split; [done|].
      eapply (T_wait _ 0 _ 0); [reflexivity|reflexivity|].
      simpl. f_equal. exact Hw.
    + destruct (alive_sum_pos ws) as (i & g & Hg & Hne); [lia|].
      pose proof (po_workers _ _ _ _ _ _ _ _ _ _ Hok i g Hg) as Hwo.
      destruct Hwo as [|job|_ ->|]; [| | |done].
      * destruct jb as [|v jb].
        -- eexists. apply step_transition. split; [done|].
           by eapply (T_recv_closed _ (S i) _ 0 _ (Chan [] nJ true)).
        -- eexists. apply step_transition. split; [done|].
           by eapply (T_recv _ (S i) _ 0 _ (Chan (v :: jb) nJ true)).
      * pose proof (holding_pos _ _ _ _ _ _ Hg).
        eexists. apply step_transition. split; [done|].
        eapply (T_send _ (S i) _ 1 _ _ (Chan rb nJ false)); simpl;
          [eassumption|done|done|done|lia].
      * destruct wg as [|n]; [done|].
        eexists. apply step_transition. split; [done|].
        by eapply (T_done _ (S i) _ 0 _ n).
  - right. eexists. apply step_transition. split; [done|].
    by eapply (T_close _ 0 _ 1 _ (Chan rb nJ false)).
  - right. destruct rb as [|v rb].
    + eexists. apply step_transition. split; [done|].
      by eapply (T_recv_closed _ 0 _ 1 _ (Chan [] nJ true)).
    + eexists. apply step_transition. split; [done|].
      by eapply (T_recv _ 0 _ 1 _ (Chan (v :: rb) nJ true)).
  - left. unfold final. simpl. apply forallb_forall. intros x Hx.
    apply list_elem_of_In, list_elem_of_lookup in Hx as [i Hi].
    rewrite (alive_sum_zero ws i x); [done| |done].
    by rewrite <- (po_wg _ _ _ _ _ _ _ _ _ _ Hok).
Qed.

Lemma pool_terminates nJ w σ :
  pool_inv nJ w σ → inevitably (λ σ', final σ' = true ∧ pool_inv nJ w σ') σ.
Proof.
  apply (inevitably_measure (pool_inv nJ w) _ (pool_measure nJ)).
  - intros σ0 Hinv. destruct (pool_progress _ _ _ Hinv); auto.
  - intros σ0 σ1 Hinv Hst.
    pose proof (pool_step _ _ _ _ Hinv Hst). split; [done|].
    by eapply pool_measure_step.
Qed.

(** ** The fan-out/fan-in program *)

(** *** Round-robin lanes *)

Lemma lane_items_snoc n j l x :
  lane_items n j (l ++ [x]) =
  lane_items n j l ++ (if bool_decide (length l `mod` n = j) then [x] else []).
Proof.
  unfold lane_items. rewrite imap_app, omap_app. f_equal. simpl.
  rewrite Nat.add_0_r. by case_bool_decide.
Qed.

Lemma lane_items_length n j l : length (lane_items n j l) ≤ length l.
Proof.
  induction l as [|x l IH] using rev_ind; [done|].
  rewrite lane_items_snoc, !length_app. case_bool_decide; simpl; lia.
Qed.

Lemma lane_items_interleave n l :
  0 < n → interleave ((λ j, lane_items n j l) <$> seq 0 n) l.
Proof.
  intros Hn. induction l as [|x l IH] using rev_ind.
  - apply il_nil. apply Forall_fmap, Forall_forall. done.
  - assert (length l `mod` n < n) as Hlt by (apply Nat.mod_upper_bound; lia).
    replace ((λ j, lane_items n j (l ++ [x])) <$> seq 0 n) with
      (<[length l `mod` n := lane_items n (length l `mod` n) l ++ [x]]>
         ((λ j, lane_items n j l) <$> seq 0 n)).
    { apply interleave_snoc; [done|].
      by rewrite list_lookup_fmap, lookup_seq_lt. }
    apply list_eq. intros j. destruct (decide (j < n)) as [Hj|Hj].
    + rewrite list_lookup_fmap, lookup_seq_lt by done. simpl.
      rewrite lane_items_snoc.
      destruct (decide (length l `mod` n = j)) as [<-|Hne].
      * rewrite list_lookup_insert_eq by (by rewrite length_fmap, length_seq).
        by rewrite bool_decide_eq_true_2.
      * rewrite list_lookup_insert_ne by done.
        rewrite list_lookup_fmap, lookup_seq_lt by done. simpl.
        by rewrite bool_decide_eq_false_2, app_nil_r.
    + rewrite !lookup_ge_None_2; [done|..];
        rewrite ?length_insert, length_fmap, length_seq; lia.
Qed.

(** [inputChannels[i%numWorkers]] for a counter that has not wrapped. *)
Lemma dist_lane_round_robin N k :
  0 < N →
  dist_lane ((λ i, lane_in i) <$> seq 0 N) (Z.of_nat N) (Z.of_nat k) =
  Some (lane_in (k `mod` N)).
Proof.
  intros HN. unfold dist_lane.
  destruct (Z.eqb_spec (Z.of_nat N) 0) as [|_]; [lia|].
  rewrite Z.rem_mod_nonneg by lia. rewrite <- Nat2Z.inj_mod.
  destruct (Z.ltb_spec (Z.of_nat (k `mod` N)) 0) as [|_]; [lia|].
  rewrite Nat2Z.id. rewrite list_lookup_fmap, lookup_seq_lt; [done|].
  apply Nat.mod_upper_bound. lia.
Qed.

(** *** Set-up *)

Lemma for_each_lanes n : ∀ k σ,
  for_each (seq k n) (λ _, ch ← make_chan 0; w ← square ch; mret (ch, w)) σ =
  ((λ i, (length (chans σ) + (i + i), S (length (chans σ) + (i + i))))
     <$> seq 0 n,
   Config (chans σ ++ (mkch <$> replicate (n + n) false)) (wgs σ)
     (pool σ ++ ((λ i, SquareRecv (length (chans σ) + (i + i))
                         (S (length (chans σ) + (i + i)))) <$> seq 0 n))
     (log σ) (crashed σ)).
Proof.
  induction n as [|n IH]; intros k σ.
  - simpl. rewrite !app_nil_r. by destruct σ.
  - simpl seq. cbn [for_each]. unfold mbind at 1, Go_bind at 1.
    unfold mbind at 1, Go_bind at 1. unfold make_chan at 1.
    unfold mbind at 1, Go_bind at 1. unfold square at 1.
    unfold mbind, Go_bind, make_chan, go, mret, Go_ret in *. simpl.
    rewrite IH. simpl. rewrite !length_app. simpl.
    rewrite <- !fmap_S_seq, <- !list_fmap_compose.
    rewrite Nat.add_0_r.
    replace (n + S n) with (S (n + n)) by lia.
    rewrite <- !app_assoc.
    rewrite (list_fmap_ext
      (λ i, (length (chans σ) + 1 + 1 + (i + i),
             S (length (chans σ) + 1 + 1 + (i + i))))
      ((λ i, (length (chans σ) + (i + i), S (length (chans σ) + (i + i))))
         ∘ S)) by (intros _ i _; simpl; f_equal; lia).
    rewrite (list_fmap_ext
      (λ i, SquareRecv (length (chans σ) + 1 + 1 + (i + i))
              (S (length (chans σ) + 1 + 1 + (i + i))))
      ((λ i, SquareRecv (length (chans σ) + (i + i))
               (S (length (chans σ) + (i + i)))) ∘ S))
      by (intros _ i _; simpl; f_equal; lia).
    replace (length (chans σ) + 1) with (S (length (chans σ))) by lia.
    done.
Qed.

Lemma fan_boot nums N :
  boot (fan_main nums N) =
  fan_shape (replicate (S (S (N + N))) false) N (Range (S (N + N)))
    (Generate 0 nums)
    ((λ i, SquareRecv (lane_in i) (lane_out i)) <$> seq 0 N)
    (DistRecv 0 ((λ i, lane_in i) <$> seq 0 N) (Z.of_nat N) 0)
    ((λ i, ForwardRecv (lane_out i) (S (N + N)) 0) <$> seq 0 N)
    (WaitClose 0 (S (N + N))) [].
Proof.
  unfold boot, fan_main, mbind, Go_bind, generator, make_chan, go, mret,
    Go_ret. simpl.
  pose proof (for_each_lanes N 0
    (Config [Chan [] 0 false] [] [Exited; Generate 0 nums] [] false)) as E.
  unfold mbind, Go_bind, make_chan, go, mret, Go_ret in E. simpl in E.
  rewrite E. rewrite fanIn_run by done. simpl.
  unfold fan_shape.
  rewrite !length_fmap, !length_replicate, !length_seq, <- !list_fmap_compose.
  rewrite !fmap_replicate. csimpl.
  assert (∀ n, replicate n (mkch false) ++ [mkch false] =
               mkch false :: replicate n (mkch false)) as ->
    by (induction n as [|n IH]; simpl; [done|by rewrite IH]).
  rewrite <- !app_assoc, ?fmap_replicate. reflexivity.
Qed.

(** *** Reading and updating a fan configuration *)

Lemma fan_pool_lookup N (m g : goroutine) sqs d fwds cl (t : nat) x :
  length sqs = N → length fwds = N →
  (m :: g :: sqs ++ d :: fwds ++ [cl]) !! t = Some x →
  (t = 0 ∧ x = m) ∨ (t = 1 ∧ x = g) ∨
  (∃ i, t = S (S i) ∧ i < N ∧ sqs !! i = Some x) ∨
  (t = S (S N) ∧ x = d) ∨
  (∃ i, t = S (S (S (N + i))) ∧ i < N ∧ fwds !! i = Some x) ∨
  (t = S (S (S (N + N))) ∧ x = cl).
Proof.
  intros Hs Hf. destruct t as [|[|t]]; simpl; intros H.
  - left. by inversion H.
  - right; left. by inversion H.
  - right; right. apply lookup_app_Some in H as [H|[Hle H]].
    { left. exists t. split; [done|]. split; [|done].
      rewrite <- Hs. by eapply lookup_lt_Some. }
    right. destruct (t - length sqs) as [|u] eqn:Hu; simpl in H.
    { left. split; [f_equal; f_equal; lia|by inversion H]. }
    right. apply lookup_app_Some in H as [H|[Hle' H]].
    { left. exists u. split; [lia|]. split; [|done].
      rewrite <- Hf. by eapply lookup_lt_Some. }
    right. apply list_lookup_singleton_Some in H as [H ->].
    split; [lia|done].
Qed.

Lemma fan_sq_lookup (m g : goroutine) sqs d fwds cl (i : nat) x :
  sqs !! i = Some x →
  (m :: g :: sqs ++ d :: fwds ++ [cl]) !! S (S i) = Some x.
Proof. intros H. simpl. by apply lookup_app_l_Some. Qed.

Lemma fan_dist_lookup N (m g : goroutine) sqs d fwds cl :
  length sqs = N →
  (m :: g :: sqs ++ d :: fwds ++ [cl]) !! S (S N) = Some d.
Proof.
  intros <-. simpl. rewrite lookup_app_r by lia. by rewrite Nat.sub_diag.
Qed.

Lemma fan_fwd_lookup N (m g : goroutine) sqs d fwds cl (i : nat) f :
  length sqs = N → fwds !! i = Some f →
  (m :: g :: sqs ++ d :: fwds ++ [cl]) !! S (S (S (N + i))) = Some f.
Proof.
  intros <- H. simpl. rewrite lookup_app_r by lia.
  replace (S (length sqs + i) - length sqs) with (S i) by lia. simpl.
  by apply lookup_app_l_Some.
Qed.

Lemma fan_cl_lookup N (m g : goroutine) sqs d fwds cl :
  length sqs = N → length fwds = N →
  (m :: g :: sqs ++ d :: fwds ++ [cl]) !! S (S (S (N + N))) = Some cl.
Proof.
  intros Hs Hf. simpl. rewrite lookup_app_r by lia.
  replace (S (N + N) - length sqs) with (S N) by lia. simpl.
  rewrite lookup_app_r by lia.
  by replace (N - length fwds) with 0 by lia.
Qed.

Lemma fan_insert_sq (sqs : list goroutine) d fwds cl (i : nat) x :
  i < length sqs →
  <[i := x]> (sqs ++ d :: fwds ++ [cl]) = <[i := x]> sqs ++ d :: fwds ++ [cl].
Proof. intros. by rewrite insert_app_l. Qed.

Lemma fan_insert_dist N (sqs : list goroutine) d fwds cl x :
  length sqs = N →
  <[N := x]> (sqs ++ d :: fwds ++ [cl]) = sqs ++ x :: fwds ++ [cl].
Proof.
  intros <-. rewrite insert_app_r_alt by lia. by rewrite Nat.sub_diag.
Qed.

Lemma fan_insert_fwd N (sqs : list goroutine) d fwds cl (i : nat) x :
  length sqs = N → i < length fwds →
  <[S (N + i) := x]> (sqs ++ d :: fwds ++ [cl]) =
  sqs ++ d :: <[i := x]> fwds ++ [cl].
Proof.
  intros <- H. rewrite insert_app_r_alt by lia.
  replace (S (length sqs + i) - length sqs) with (S i) by lia. simpl.
  by rewrite insert_app_l.
Qed.

Lemma fan_insert_cl N (sqs : list goroutine) d fwds cl x :
  length sqs = N → length fwds = N →
  <[S (N + N) := x]> (sqs ++ d :: fwds ++ [cl]) = sqs ++ d :: fwds ++ [x].
Proof.
  intros Hs Hf. rewrite insert_app_r_alt by lia.
  replace (S (N + N) - length sqs) with (S N) by lia. simpl.
  rewrite insert_app_r_alt by lia.
  by replace (N - length fwds) with 0 by lia.
Qed.

(** *** Frames *)

Lemma dist_ok_frame N bs L bs' es d :
  dist_ok N bs L d →
  (∀ i, i < N → bs' !! lane_in i = bs !! lane_in i) →
  (bs !! 0 = Some true → bs' !! 0 = Some true) →
  sent_on 0 es = [] → (∀ i, i < N → sent_on (lane_in i) es = []) →
  dist_ok N bs' (L ++ es) d.
Proof.
  intros H Hl H0 E0 El.
  assert (sent_on 0 (L ++ es) = sent_on 0 L) as E
    by (by rewrite sent_on_app, E0, app_nil_r).
  assert (∀ i, i < N → sent_on (lane_in i) (L ++ es) = sent_on (lane_in i) L)
    as E' by (intros; by rewrite sent_on_app, El, app_nil_r).
  destruct H as [Ho Hs|dp n Hd Ho Hs|j Hj Hb Ho Hs].
  - rewrite <- E. constructor.
    + intros i Hi. rewrite Hl by done. auto.
    + intros i Hi. rewrite E, E' by done. auto.
  - constructor.
    + by rewrite E.
    + intros i Hi. rewrite Hl by done. auto.
    + intros i Hi. rewrite E' by done. auto.
  - constructor; auto.
    + intros i Hi. rewrite Hl by done. auto.
    + intros i Hi. rewrite E, E' by done. auto.
Qed.

Lemma lfwd_ok_frame N bs L bs' es i f :
  lfwd_ok N bs L i f →
  (bs !! lane_out i = Some true → bs' !! lane_out i = Some true) →
  sent_by (S (S (S (N + i)))) (S (N + N)) es = [] →
  sent_on (lane_out i) es = [] →
  lfwd_ok N bs' (L ++ es) i f.
Proof.
  intros H Hb E1 E2.
  destruct H; constructor; auto;
    by rewrite ?sent_by_app, ?sent_on_app, ?E1, ?E2, ?app_nil_r.
Qed.

Lemma fan_out_frame N L es :
  (∀ t, sent_by t (S (N + N)) es = []) →
  (λ i, sent_by (S (S (S (N + i)))) (S (N + N)) (L ++ es)) <$> seq 0 N =
  (λ i, sent_by (S (S (S (N + i)))) (S (N + N)) L) <$> seq 0 N.
Proof.
  intros E. apply list_fmap_ext. intros _ i _.
  by rewrite sent_by_app, E, app_nil_r.
Qed.

Lemma fan_out_snoc N L i v t' :
  i < N →
  (λ j, sent_by (S (S (S (N + j)))) (S (N + N))
          (L ++ [EvSend (S (S (S (N + i)))) (S (N + N)) v;
                 EvRecv t' (S (N + N)) v])) <$> seq 0 N =
  <[i := sent_by (S (S (S (N + i)))) (S (N + N)) L ++ [v]]>
    ((λ j, sent_by (S (S (S (N + j)))) (S (N + N)) L) <$> seq 0 N).
Proof.
  intros Hi. apply list_eq. intros j.
  destruct (decide (j < N)) as [Hj|Hj].
  - destruct (decide (i = j)) as [->|Hne].
    + rewrite list_lookup_insert_eq by (by rewrite length_fmap, length_seq).
      rewrite list_lookup_fmap, lookup_seq_lt by done. simpl. f_equal. logs.
    + rewrite list_lookup_insert_ne by done.
      rewrite !list_lookup_fmap, lookup_seq_lt by done. simpl. f_equal. logs.
  - rewrite !lookup_ge_None_2; [done|..];
      rewrite ?length_insert, length_fmap, length_seq; lia.
Qed.

Lemma dist_ok_recv_inv N bs L chs nw k :
  dist_ok N bs L (DistRecv 0 chs nw k) →
  chs = (λ i, lane_in i) <$> seq 0 N ∧ nw = Z.of_nat N ∧
  k = Z.of_nat (length (sent_on 0 L)) ∧
  (∀ i, i < N → bs !! lane_in i = Some false) ∧
  (∀ i, i < N → sent_on (lane_in i) L = lane_items N i (sent_on 0 L)).
Proof. by inversion 1. Qed.

Lemma dist_ok_send_inv N bs L chs nw k n :
  dist_ok N bs L (DistSend 0 chs nw k n) →
  ∃ dp, chs = (λ i, lane_in i) <$> seq 0 N ∧ nw = Z.of_nat N ∧
        k = Z.of_nat (length dp) ∧ sent_on 0 L = dp ++ [n] ∧
        (∀ i, i < N → bs !! lane_in i = Some false) ∧
        (∀ i, i < N → sent_on (lane_in i) L = lane_items N i dp).
Proof. inversion 1; subst. by eexists. Qed.

Lemma dist_ok_close_inv N bs L rest :
  dist_ok N bs L (DistClose rest) →
  ∃ j, rest = (λ i, lane_in i) <$> seq j (N - j) ∧ j ≤ N ∧
       bs !! 0 = Some true ∧
       (∀ i, i < N → bs !! lane_in i = Some (bool_decide (i < j))) ∧
       (∀ i, i < N → sent_on (lane_in i) L = lane_items N i (sent_on 0 L)).
Proof. inversion 1; subst. by eexists. Qed.

Section fan_cases.
Variable nums : list Z.
Variable N : nat.

Ltac sq_frame fn_sq :=
  eapply stage_ok_frame;
    [by apply fn_sq
    |try done; intros; rewrite ?list_lookup_insert_ne by lia; done
    |try done; rewrite ?list_lookup_insert_ne by lia; done
    |logs|logs].

Ltac fwd_frame fn_fwd :=
  eapply lfwd_ok_frame;
    [by apply fn_fwd
    |try done; intros; rewrite ?list_lookup_insert_ne by lia; done
    |logs|logs].

Ltac dist_frame fn_dist :=
  eapply dist_ok_frame;
    [exact fn_dist
    |try done; intros; rewrite ?list_lookup_insert_ne by lia; done
    |try done; intros; rewrite ?list_lookup_insert_ne by lia; done
    |logs|intros; logs].

Ltac gen_frame fn_gen :=
  eapply gen_ok_frame;
    [exact fn_gen
    |try done; rewrite ?list_lookup_insert_ne by lia; done
    |logs].

(** The generator hands an item to the distributor. *)
Lemma fan_gen_send bs w m sqs fwds cl L n rest chs k :
  fan_ok nums N bs w m (Generate 0 (n :: rest)) sqs
    (DistRecv 0 chs (Z.of_nat N) k) fwds cl L →
  fan_ok nums N bs w m (Generate 0 rest) sqs
    (DistSend 0 chs (Z.of_nat N) k n) fwds cl
    (L ++ [EvSend 1 0 n; EvRecv (S (S N)) 0 n]).
Proof.
  intros [fn_pos fn_int fn_bs fn_sqs fn_fwds fn_main fn_gen fn_dist fn_sq fn_fwd
      fn_wg fn_cl fn_closers fn_recv fn_merge].
  split; try done.
  - inversion fn_gen; subst. constructor; [done|]. logs.
    by rewrite <- app_assoc.
  - apply dist_ok_recv_inv in fn_dist as (-> & _ & -> & Ho & Hs).
    apply (do_send _ _ _ (sent_on 0 L)); [logs|done|].
    intros i Hi. logs. auto.
  - intros i sq Hi. sq_frame fn_sq.
  - intros i f Hi. fwd_frame fn_fwd.
  - intros i b Hi Hb. logs. auto.
  - intros c. logs; by rewrite fn_recv.
  - rewrite fan_out_frame by (intros; logs). logs.
Qed.

(** The generator closes [input]. *)
Lemma fan_gen_close bs w m sqs d fwds cl L :
  fan_ok nums N bs w m (Generate 0 []) sqs d fwds cl L →
  fan_ok nums N (<[0 := true]> bs) w m Exited sqs d fwds cl
    (L ++ [EvClose 1 0]).
Proof.
  intros [fn_pos fn_int fn_bs fn_sqs fn_fwds fn_main fn_gen fn_dist fn_sq fn_fwd
      fn_wg fn_cl fn_closers fn_recv fn_merge].
  split; try done.
  - by rewrite length_insert.
  - by apply main_ok_close.
  - inversion fn_gen as [? ? E|]; subst. constructor.
    + apply list_lookup_insert_eq. lia.
    + logs.
  - eapply dist_ok_frame; [done| | |logs|intros; logs].
    + intros. by rewrite list_lookup_insert_ne by lia.
    + intros. apply list_lookup_insert_eq. lia.
  - intros i sq Hi. sq_frame fn_sq.
  - intros i f Hi. fwd_frame fn_fwd.
  - destruct fn_cl as (bo & ? & ?). exists bo.
    by rewrite list_lookup_insert_ne by lia.
  - intros i b Hi Hb. rewrite list_lookup_insert_ne in Hb by lia.
    logs. auto.
  - intros c. logs; by rewrite fn_recv.
  - rewrite fan_out_frame by (intros; logs). logs.
Qed.

(** The distributor finds [input] closed. *)
Lemma fan_dist_eof bs w m g sqs fwds cl L chs k :
  fan_ok nums N bs w m g sqs (DistRecv 0 chs (Z.of_nat N) k) fwds cl L →
  bs !! 0 = Some true →
  fan_ok nums N bs w m g sqs (DistClose chs) fwds cl
    (L ++ [EvRecvClosed (S (S N)) 0]).
Proof.
  intros [fn_pos fn_int fn_bs fn_sqs fn_fwds fn_main fn_gen fn_dist fn_sq fn_fwd
      fn_wg fn_cl fn_closers fn_recv fn_merge]
      Hb.
  split; try done.
  - gen_frame fn_gen.
  - apply dist_ok_recv_inv in fn_dist as (-> & _ & -> & Ho & Hs).
    replace (seq 0 N) with (seq 0 (N - 0)) by (by rewrite Nat.sub_0_r).
    apply (do_close _ _ _ 0); [lia|done| |].
    + intros i Hi. rewrite Ho by done.
      f_equal; symmetry; apply bool_decide_eq_false_2; lia.
    + intros i Hi. logs. auto.
  - intros i sq Hi. sq_frame fn_sq.
  - intros i f Hi. fwd_frame fn_fwd.
  - intros i b Hi Hb'. logs. auto.
  - intros c. logs; by rewrite fn_recv.
  - rewrite fan_out_frame by (intros; logs). logs.
Qed.

(** The distributor hands an item to the worker of the lane its counter
    selects. *)
Lemma fan_dist_send bs w m g sqs fwds cl L chs (dp : list Z) n :
  fan_ok nums N bs w m g sqs
    (DistSend 0 chs (Z.of_nat N) (Z.of_nat (length dp)) n) fwds cl L →
  sqs !! (length dp `mod` N) =
    Some (SquareRecv (lane_in (length dp `mod` N))
            (lane_out (length dp `mod` N))) →
  fan_ok nums N bs w m g
    (<[length dp `mod` N :=
         SquareSend (lane_in (length dp `mod` N))
           (lane_out (length dp `mod` N)) n]> sqs)
    (DistRecv 0 chs (Z.of_nat N) (int_add (Z.of_nat (length dp)) 1)) fwds cl
    (L ++ [EvSend (S (S N)) (lane_in (length dp `mod` N)) n;
           EvRecv (S (S (length dp `mod` N))) (lane_in (length dp `mod` N)) n]).
Proof.
  intros [fn_pos fn_int fn_bs fn_sqs fn_fwds fn_main fn_gen fn_dist fn_sq fn_fwd
      fn_wg fn_cl fn_closers fn_recv fn_merge]
      Hsq.
  pose proof (lookup_lt_Some _ _ _ Hsq) as Hlt.
  apply dist_ok_send_inv in fn_dist as (dp' & -> & _ & Hk & E & Ho & Hs).
  apply Nat2Z.inj in Hk.
  assert (length (dp' ++ [n]) ≤ length nums) as Hle.
  { rewrite <- E. inversion fn_gen as [rest ? <-|? <-]; rewrite ?length_app; lia. }
  rewrite length_app in Hle. simpl in Hle.
  split; try done.
  - by rewrite length_insert.
  - gen_frame fn_gen.
  - rewrite int_add_succ by lia.
    match goal with |- dist_ok _ _ ?L' _ =>
      assert (sent_on 0 L' = dp' ++ [n]) as E' by logs;
      replace (S (length dp)) with (length (sent_on 0 L'))
        by (rewrite E', length_app; simpl; lia)
    end.
    constructor; [done|]. intros i Hi.
    rewrite E', lane_items_snoc, <- Hs by done. rewrite <- Hk.
    logs; case_bool_decide; try done; lia.
  - intros i sq Hi. apply list_lookup_insert_Some in Hi as [(<- & <- & _)|[Hne Hi]].
    + pose proof (fn_sq _ _ Hsq) as Hst.
      apply (stage_ok_recv_inv _ _ StSquare) in Hst as [Hb Hst].
      apply (so_send _ _ StSquare); [done|]. logs.
      rewrite fmap_app. simpl. by rewrite Hst.
    + sq_frame fn_sq.
  - intros i f Hi. fwd_frame fn_fwd.
  - intros i b Hi Hb'. logs; auto.
  - intros c. logs; by rewrite fn_recv.
  - rewrite fan_out_frame by (intros; logs). logs.
Qed.

(** The distributor closes the next lane. *)
Lemma fan_dist_close bs w m g sqs fwds cl L c rest :
  fan_ok nums N bs w m g sqs (DistClose (c :: rest)) fwds cl L →
  fan_ok nums N (<[c := true]> bs) w m g sqs (DistClose rest) fwds cl
    (L ++ [EvClose (S (S N)) c]).
Proof.
  intros [fn_pos fn_int fn_bs fn_sqs fn_fwds fn_main fn_gen fn_dist fn_sq fn_fwd
      fn_wg fn_cl fn_closers fn_recv fn_merge].
  apply dist_ok_close_inv in fn_dist as (j & Heq & Hj & Hb0 & Ho & Hs).
  destruct (N - j) as [|k] eqn:Hk; [done|]. simpl in Heq.
  injection Heq as Hc Hr. subst c rest.
  assert (k = N - S j) as -> by lia.
  split; try done.
  - by rewrite length_insert.
  - by apply main_ok_close.
  - gen_frame fn_gen.
  - apply (do_close _ _ _ (S j)); [lia| | |].
    + by rewrite list_lookup_insert_ne by lia.
    + intros i Hi. destruct (decide (i = j)) as [->|Hne].
      * rewrite list_lookup_insert_eq by lia. f_equal. symmetry.
        apply bool_decide_eq_true_2. lia.
      * rewrite list_lookup_insert_ne by lia. rewrite Ho by done. f_equal.
        apply bool_decide_ext. lia.
    + intros i Hi. logs. auto.
  - intros i sq Hi. eapply stage_ok_frame; [by apply fn_sq| | |logs|logs].
    + intros Hb. destruct (decide (i = j)) as [->|Hne].
      * apply list_lookup_insert_eq. lia.
      * by rewrite list_lookup_insert_ne by lia.
    + by rewrite list_lookup_insert_ne by lia.
  - intros i f Hi. fwd_frame fn_fwd.
  - destruct fn_cl as (bo & ? & ?). exists bo.
    by rewrite list_lookup_insert_ne by lia.
  - intros i b Hi Hb. destruct (decide (i = j)) as [->|Hne].
    + rewrite list_lookup_insert_eq in Hb by lia. inversion Hb; subst.
      logs. rewrite (fn_closers j false); [done|lia|].
      rewrite Ho by lia. f_equal. apply bool_decide_eq_false_2. lia.
    + rewrite list_lookup_insert_ne in Hb by lia. logs. auto.
  - intros c. logs; by rewrite fn_recv.
  - rewrite fan_out_frame by (intros; logs). logs.
Qed.

(** A worker finds its lane closed. *)
Lemma fan_sq_eof bs w m g sqs d fwds cl L i :
  fan_ok nums N bs w m g sqs d fwds cl L →
  sqs !! i = Some (SquareRecv (lane_in i) (lane_out i)) →
  bs !! lane_in i = Some true →
  fan_ok nums N bs w m g (<[i := CloseOut (lane_out i)]> sqs) d fwds cl
    (L ++ [EvRecvClosed (S (S i)) (lane_in i)]).
Proof.
  intros [fn_pos fn_int fn_bs fn_sqs fn_fwds fn_main fn_gen fn_dist fn_sq fn_fwd
      fn_wg fn_cl fn_closers fn_recv fn_merge]
      Hsq Hb.
  split; try done.
  - by rewrite length_insert.
  - gen_frame fn_gen.
  - dist_frame fn_dist.
  - intros i' sq Hi. apply list_lookup_insert_Some in Hi as [(<- & <- & _)|[Hne Hi]].
    + pose proof (fn_sq _ _ Hsq) as Hst.
      apply (stage_ok_recv_inv _ _ StSquare) in Hst as [Hb' Hst].
      apply (so_close _ _ StSquare); [done|done|]. logs.
    + sq_frame fn_sq.
  - intros i' f Hi. fwd_frame fn_fwd.
  - intros i' b Hi Hb'. logs; auto.
  - intros c. logs; by rewrite fn_recv.
  - rewrite fan_out_frame by (intros; logs). logs.
Qed.

(** A worker hands a square to its forwarder. *)
Lemma fan_sq_send bs w m g sqs d fwds cl L i n :
  fan_ok nums N bs w m g sqs d fwds cl L →
  sqs !! i = Some (SquareSend (lane_in i) (lane_out i) n) →
  fwds !! i = Some (ForwardRecv (lane_out i) (S (N + N)) 0) →
  fan_ok nums N bs w m g (<[i := SquareRecv (lane_in i) (lane_out i)]> sqs) d
    (<[i := ForwardSend (lane_out i) (S (N + N)) 0 (int_mul n n)]> fwds) cl
    (L ++ [EvSend (S (S i)) (lane_out i) (int_mul n n);
           EvRecv (S (S (S (N + i)))) (lane_out i) (int_mul n n)]).
Proof.
  intros [fn_pos fn_int fn_bs fn_sqs fn_fwds fn_main fn_gen fn_dist fn_sq fn_fwd
      fn_wg fn_cl fn_closers fn_recv fn_merge]
      Hsq Hf.
  pose proof (lookup_lt_Some _ _ _ Hsq).
  split; try done.
  - by rewrite length_insert.
  - by rewrite length_insert.
  - gen_frame fn_gen.
  - dist_frame fn_dist.
  - intros i' sq Hi. apply list_lookup_insert_Some in Hi as [(<- & <- & _)|[Hne Hi]].
    + pose proof (fn_sq _ _ Hsq) as Hst.
      apply (stage_ok_send_inv _ _ StSquare) in Hst as [Hb' Hst].
      apply (so_recv _ _ StSquare); [done|]. logs.
    + sq_frame fn_sq.
  - intros i' f Hi. apply list_lookup_insert_Some in Hi as [(<- & <- & _)|[Hne Hi]].
    + pose proof (fn_fwd _ _ Hf) as Hfw. inversion Hfw as [E| | |]; subst.
      constructor. logs. by rewrite E.
    + fwd_frame fn_fwd.
  - pose proof (sum_list_fmap_insert alive _ _ _
      (ForwardSend (lane_out i) (S (N + N)) 0 (int_mul n n)) Hf).
    simpl in *. lia.
  - intros i' b Hi Hb'. logs; auto.
  - intros c. logs; by rewrite fn_recv.
  - rewrite fan_out_frame by (intros; logs). logs.
Qed.

(** A worker closes its output. *)
Lemma fan_sq_close bs w m g sqs d fwds cl L i :
  fan_ok nums N bs w m g sqs d fwds cl L →
  sqs !! i = Some (CloseOut (lane_out i)) →
  fan_ok nums N (<[lane_out i := true]> bs) w m g (<[i := Exited]> sqs) d
    fwds cl (L ++ [EvClose (S (S i)) (lane_out i)]).
Proof.
  intros [fn_pos fn_int fn_bs fn_sqs fn_fwds fn_main fn_gen fn_dist fn_sq fn_fwd
      fn_wg fn_cl fn_closers fn_recv fn_merge]
      Hsq.
  pose proof (lookup_lt_Some _ _ _ Hsq).
  pose proof (fn_sq _ _ Hsq) as Hst.
  apply (stage_ok_close_inv _ _ StSquare) in Hst as (Hb1 & Hb2 & Hst).
  split; try done.
  - by rewrite length_insert.
  - by rewrite length_insert.
  - by apply main_ok_close.
  - gen_frame fn_gen.
  - dist_frame fn_dist.
  - intros i' sq Hi. apply list_lookup_insert_Some in Hi as [(<- & <- & _)|[Hne Hi]].
    + apply (so_exited _ _ StSquare).
      * by rewrite list_lookup_insert_ne by lia.
      * apply list_lookup_insert_eq. lia.
      * logs.
    + sq_frame fn_sq.
  - intros i' f Hi. eapply lfwd_ok_frame; [by apply fn_fwd| |logs|logs].
    intros Hb. destruct (decide (i' = i)) as [->|Hne].
    + apply list_lookup_insert_eq. lia.
    + by rewrite list_lookup_insert_ne by lia.
  - destruct fn_cl as (bo & ? & ?). exists bo.
    by rewrite list_lookup_insert_ne by lia.
  - intros i' b Hi Hb. rewrite list_lookup_insert_ne in Hb by lia.
    logs; auto.
  - intros c. logs; by rewrite fn_recv.
  - rewrite fan_out_frame by (intros; logs). logs.
Qed.

(** A forwarder finds its lane closed. *)
Lemma fan_fwd_eof bs w m g sqs d fwds cl L i :
  fan_ok nums N bs w m g sqs d fwds cl L →
  fwds !! i = Some (ForwardRecv (lane_out i) (S (N + N)) 0) →
  bs !! lane_out i = Some true →
  fan_ok nums N bs w m g sqs d (<[i := DeferredDone 0]> fwds) cl
    (L ++ [EvRecvClosed (S (S (S (N + i)))) (lane_out i)]).
Proof.
  intros [fn_pos fn_int fn_bs fn_sqs fn_fwds fn_main fn_gen fn_dist fn_sq fn_fwd
      fn_wg fn_cl fn_closers fn_recv fn_merge]
      Hf Hb.
  split; try done.
  - by rewrite length_insert.
  - gen_frame fn_gen.
  - dist_frame fn_dist.
  - intros i' sq Hi. sq_frame fn_sq.
  - intros i' f Hi. apply list_lookup_insert_Some in Hi as [(<- & <- & _)|[Hne Hi]].
    + pose proof (fn_fwd _ _ Hf) as Hfw. inversion Hfw as [E| | |]; subst.
      constructor; [done|logs].
    + fwd_frame fn_fwd.
  - pose proof (sum_list_fmap_insert alive _ _ _ (DeferredDone 0) Hf).
    simpl in *. lia.
  - intros i' b Hi Hb'. logs; auto.
  - intros c. logs; by rewrite fn_recv.
  - rewrite fan_out_frame by (intros; logs). logs.
Qed.

(** A forwarder hands an item to main on the merged output. *)
Lemma fan_fwd_send bs w g sqs d fwds cl L i v :
  fan_ok nums N bs w (Range (S (N + N))) g sqs d fwds cl L →
  fwds !! i = Some (ForwardSend (lane_out i) (S (N + N)) 0 v) →
  fan_ok nums N bs w (Range (S (N + N))) g sqs d
    (<[i := ForwardRecv (lane_out i) (S (N + N)) 0]> fwds) cl
    (L ++ [EvSend (S (S (S (N + i)))) (S (N + N)) v; EvRecv 0 (S (N + N)) v]).
Proof.
  intros [fn_pos fn_int fn_bs fn_sqs fn_fwds fn_main fn_gen fn_dist fn_sq fn_fwd
      fn_wg fn_cl fn_closers fn_recv fn_merge]
      Hf.
  pose proof (lookup_lt_Some _ _ _ Hf).
  split; try done.
  - by rewrite length_insert.
  - gen_frame fn_gen.
  - dist_frame fn_dist.
  - intros i' sq Hi. pose proof (lookup_lt_Some _ _ _ Hi). sq_frame fn_sq.
  - intros i' f Hi. apply list_lookup_insert_Some in Hi as [(<- & <- & _)|[Hne Hi]].
    + pose proof (fn_fwd _ _ Hf) as Hfw. inversion Hfw as [|? E| |]; subst.
      constructor. logs.
    + pose proof (lookup_lt_Some _ _ _ Hi). fwd_frame fn_fwd.
  - pose proof (sum_list_fmap_insert alive _ _ _
      (ForwardRecv (lane_out i) (S (N + N)) 0) Hf).
    simpl in *. lia.
  - intros i' b Hi Hb'. logs; auto.
  - intros c. logs; by rewrite fn_recv.
  - rewrite fan_out_snoc by lia. logs. apply interleave_snoc; [done|].
    rewrite list_lookup_fmap, lookup_seq_lt by lia. done.
Qed.

(** The deferred [wg.Done()] of a forwarder. *)
Lemma fan_fwd_done bs n m g sqs d fwds cl L i :
  fan_ok nums N bs (S n) m g sqs d fwds cl L →
  fwds !! i = Some (DeferredDone 0) →
  fan_ok nums N bs n m g sqs d (<[i := Exited]> fwds) cl
    (L ++ [EvDone (S (S (S (N + i)))) 0]).
Proof.
  intros [fn_pos fn_int fn_bs fn_sqs fn_fwds fn_main fn_gen fn_dist fn_sq fn_fwd
      fn_wg fn_cl fn_closers fn_recv fn_merge]
      Hf.
  split; try done.
  - by rewrite length_insert.
  - gen_frame fn_gen.
  - dist_frame fn_dist.
  - intros i' sq Hi. sq_frame fn_sq.
  - intros i' f Hi. apply list_lookup_insert_Some in Hi as [(<- & <- & _)|[Hne Hi]].
    + pose proof (fn_fwd _ _ Hf) as Hfw. inversion Hfw; subst.
      constructor; [done|logs].
    + fwd_frame fn_fwd.
  - pose proof (sum_list_fmap_insert alive _ _ _ Exited Hf).
    simpl in *. lia.
  - destruct fn_cl as (bo & ? & Hcl). exists bo. split; [done|].
    inversion Hcl; subst; try done. by constructor.
  - intros i' b Hi Hb'. logs; auto.
  - intros c. logs; by rewrite fn_recv.
  - rewrite fan_out_frame by (intros; logs). logs.
Qed.

(** The closer: [wg.Wait()] returns, then [close(out)]. *)
Lemma fan_closer_wait bs m g sqs d fwds L :
  fan_ok nums N bs 0 m g sqs d fwds (WaitClose 0 (S (N + N))) L →
  fan_ok nums N bs 0 m g sqs d fwds (CloseOut (S (N + N)))
    (L ++ [EvWait (S (S (S (N + N)))) 0]).
Proof.
  intros [fn_pos fn_int fn_bs fn_sqs fn_fwds fn_main fn_gen fn_dist fn_sq fn_fwd
      fn_wg fn_cl fn_closers fn_recv fn_merge].
  split; try done.
  - gen_frame fn_gen.
  - dist_frame fn_dist.
  - intros i' sq Hi. sq_frame fn_sq.
  - intros i' f Hi. fwd_frame fn_fwd.
  - destruct fn_cl as (bo & ? & Hcl). exists bo. split; [done|].
    inversion Hcl; subst. by constructor.
  - intros i' b Hi Hb'. logs; auto.
  - intros c. logs; by rewrite fn_recv.
  - rewrite fan_out_frame by (intros; logs). logs.
Qed.

Lemma fan_closer_close bs w m g sqs d fwds L :
  fan_ok nums N bs w m g sqs d fwds (CloseOut (S (N + N))) L →
  fan_ok nums N (<[S (N + N) := true]> bs) w m g sqs d fwds Exited
    (L ++ [EvClose (S (S (S (N + N)))) (S (N + N))]).
Proof.
  intros [fn_pos fn_int fn_bs fn_sqs fn_fwds fn_main fn_gen fn_dist fn_sq fn_fwd
      fn_wg fn_cl fn_closers fn_recv fn_merge].
  destruct fn_cl as (bo & Hbo & Hcl). inversion Hcl; subst.
  split; try done.
  - by rewrite length_insert.
  - by apply main_ok_close.
  - gen_frame fn_gen.
  - dist_frame fn_dist.
  - intros i' sq Hi. pose proof (lookup_lt_Some _ _ _ Hi). sq_frame fn_sq.
  - intros i' f Hi. pose proof (lookup_lt_Some _ _ _ Hi). fwd_frame fn_fwd.
  - exists true. split; [apply list_lookup_insert_eq; lia|by constructor].
  - intros i' b Hi Hb'. rewrite list_lookup_insert_ne in Hb' by lia.
    logs; auto.
  - intros c. logs; by rewrite fn_recv.
  - rewrite fan_out_frame by (intros; logs). logs.
Qed.

(** Main finds the merged output closed. *)
Lemma fan_main_eof bs w g sqs d fwds cl L :
  fan_ok nums N bs w (Range (S (N + N))) g sqs d fwds cl L →
  bs !! S (N + N) = Some true →
  fan_ok nums N bs w Exited g sqs d fwds cl
    (L ++ [EvRecvClosed 0 (S (N + N))]).
Proof.
  intros [fn_pos fn_int fn_bs fn_sqs fn_fwds fn_main fn_gen fn_dist fn_sq fn_fwd
      fn_wg fn_cl fn_closers fn_recv fn_merge]
      Hb.
  split; try done.
  - by constructor.
  - gen_frame fn_gen.
  - dist_frame fn_dist.
  - intros i' sq Hi. sq_frame fn_sq.
  - intros i' f Hi. fwd_frame fn_fwd.
  - intros i' b Hi Hb'. logs; auto.
  - intros c. logs; by rewrite fn_recv.
  - rewrite fan_out_frame by (intros; logs). logs.
Qed.

End fan_cases.

(** Which goroutine a pool index denotes, with what the invariant says
    about it. *)
Lemma fan_thread nums N bs w m g sqs d fwds cl L (t : nat) x :
  fan_ok nums N bs w m g sqs d fwds cl L →
  (m :: g :: sqs ++ d :: fwds ++ [cl]) !! t = Some x →
  (t = 0 ∧ x = m) ∨
  (t = 1 ∧ x = g ∧ gen_ok nums bs L g) ∨
  (∃ i, t = S (S i) ∧ i < N ∧ sqs !! i = Some x ∧
        stage_ok bs L StSquare (lane_in i) x) ∨
  (t = S (S N) ∧ x = d ∧ dist_ok N bs L d) ∨
  (∃ i, t = S (S (S (N + i))) ∧ i < N ∧ fwds !! i = Some x ∧
        lfwd_ok N bs L i x) ∨
  (t = S (S (S (N + N))) ∧ x = cl ∧
   ∃ bo, bs !! S (N + N) = Some bo ∧ cl_ok (S (N + N)) bo w cl).
Proof.
  intros Hok H.
  apply (fan_pool_lookup N) in H
    as [?|[[-> ->]|[(i & -> & ? & H)|[[-> ->]|[(i & -> & ? & H)|[-> ->]]]]]];
    [by left| | | | | |by destruct Hok..].
  - right; left. split; [done|]. split; [done|]. by destruct Hok.
  - right; right; left. exists i. split_and!; try done.
    by apply (fn_sq _ _ _ _ _ _ _ _ _ _ _ Hok).
  - right; right; right; left. split; [done|]. split; [done|].
    by destruct Hok.
  - right; right; right; right; left. exists i. split_and!; try done.
    by apply (fn_fwd _ _ _ _ _ _ _ _ _ _ _ Hok).
  - right; right; right; right; right. split; [done|]. split; [done|].
    by destruct Hok.
Qed.

(** While a forwarder has not returned, the counter is positive and the
    merged output is open. *)
Lemma fan_fwd_alive nums N bs w m g sqs d fwds cl L i f :
  fan_ok nums N bs w m g sqs d fwds cl L →
  fwds !! i = Some f → f ≠ Exited → 0 < w ∧ bs !! S (N + N) = Some false.
Proof.
  intros Hok Hf Hne.
  assert (0 < w) as Hw.
  { destruct (decide (w = 0)) as [->|]; [|lia]. exfalso. apply Hne.
    eapply alive_sum_zero; [|done].
    by rewrite <- (fn_wg _ _ _ _ _ _ _ _ _ _ _ Hok). }
  split; [done|].
  destruct (fn_cl _ _ _ _ _ _ _ _ _ _ _ Hok) as (bo & Hbo & Hcl).
  destruct Hcl; subst; try done. lia.
Qed.

Ltac fan_classify Hok :=
  repeat match goal with
  | H : (_ :: _ :: _ ++ _ :: _ ++ [_]) !! _ = Some _ |- _ =>
      apply (fan_thread _ _ _ _ _ _ _ _ _ _ _ _ _ Hok) in H as
        [[-> ->]
        |[(-> & -> & ?)
         |[(? & -> & ? & ? & ?)
          |[(-> & -> & ?)
           |[(? & -> & ? & ? & ?)
            |(-> & -> & ? & ? & ?)]]]]]
  | H : (mkch <$> _) !! _ = Some _ |- _ =>
      apply mkch_lookup in H as (? & ? & ->)
  end.

Ltac fan_next :=
  repeat match goal with
  | H : next (Range _) = _ |- _ => simpl in H; try discriminate
  | H : gen_ok _ _ _ _ |- _ => destruct H
  | H : stage_ok _ _ StSquare _ _ |- _ => destruct H
  | H : dist_ok _ _ _ _ |- _ => destruct H
  | H : lfwd_ok _ _ _ _ _ |- _ => destruct H
  | H : cl_ok _ _ _ _ |- _ => destruct H
  | H : next (Generate _ ?r) = _ |- _ => destruct r; simpl in H
  | H : next (DistClose (_ <$> seq _ ?n)) = _ |- _ =>
      destruct n eqn:?; simpl in H
  | H : next (DistSend _ _ (Z.of_nat ?N) (Z.of_nat ?k) _) = _ |- _ =>
      simpl in H; rewrite dist_lane_round_robin in H by done;
      assert (k `mod` N < N) by (apply Nat.mod_upper_bound; lia)
  | H : next _ = _ |- _ => progress simpl in H
  end; try discriminate;
  repeat match goal with
  | H : ASend _ _ _ = ASend _ _ _ |- _ => inversion H; clear H; subst
  | H : ARecv _ _ = ARecv _ _ |- _ => inversion H; clear H; subst
  | H : AClose _ _ = AClose _ _ |- _ => inversion H; clear H; subst
  | H : AWgDone _ _ = AWgDone _ _ |- _ => inversion H; clear H; subst
  | H : AWgWait _ _ = AWgWait _ _ |- _ => inversion H; clear H; subst
  end.

Ltac fan_alive Hok :=
  match goal with
  | H : _ !! _ = Some ?f |- _ =>
      let Ha := fresh in
      assert (f ≠ Exited) as Ha by done;
      destruct (fan_fwd_alive _ _ _ _ _ _ _ _ _ _ _ _ _ Hok H Ha);
      first [lia|congruence]
  end.

(** Two lanes with the same channel are the same lane. *)
Ltac fan_same_lane :=
  repeat match goal with
  | H : ?a + ?a = ?b + ?b |- _ =>
      assert (b = a) by lia; clear H; first [subst b|subst a]
  end.

(** A lane the distributor still has to serve or close is open. *)
Ltac fan_lane_open :=
  match goal with
  | Ho : ∀ i, i < _ → ?bs !! lane_in i = Some _,
    H : ?bs !! lane_in ?j = Some true |- _ =>
      rewrite Ho in H by lia;
      rewrite ?bool_decide_eq_false_2 in H by lia; discriminate
  end.

Lemma fan_close (bs : list bool) (c : nat) :
  <[c := Chan [] 0 true]> (mkch <$> bs) = mkch <$> <[c := true]> bs.
Proof. by rewrite list_fmap_insert. Qed.

(** Bring the configuration reached into the shape of the invariant. *)
Ltac fan_shape_eq :=
  rewrite ?fan_close;
  repeat first
    [ rewrite fan_insert_dist by done
    | rewrite fan_insert_sq by lia
    | rewrite fan_insert_cl by done
    | rewrite fan_insert_fwd by (rewrite ?length_insert; first [done|lia]) ].

Ltac fan_finish lem :=
  fan_shape_eq;
  eexists _, _, _, _, _, _, _, _, _; split; [reflexivity|];
  eapply lem; eauto; congruence.

Lemma fan_step nums N σ σ' :
  fan_inv nums N σ → step σ σ' → fan_inv nums N σ'.
Proof.
  intros (bs & w & m & g & sqs & d & fwds & cl & L & -> & Hok)
    [Hh Ht]%step_transition.
  pose proof (fn_main _ _ _ _ _ _ _ _ _ _ _ Hok) as Hm.
  pose proof (fn_pos _ _ _ _ _ _ _ _ _ _ _ Hok) as Hpos.
  pose proof (fn_sqs _ _ _ _ _ _ _ _ _ _ _ Hok) as Hls.
  pose proof (fn_fwds _ _ _ _ _ _ _ _ _ _ _ Hok) as Hlf.
  unfold halted in Hh. simpl in Hh. destruct Hm; [clear Hh|done].
  inversion Ht; simplify_eq/=; fan_classify Hok; fan_next;
    simplify_eq/=; try lia; try congruence; clear Ht;
    try (lookup_bounds; lia); try fan_lane_open; try fan_alive Hok;
    fan_same_lane; lookup_bounds.
  - fan_finish fan_main_eof.
  - fan_finish fan_sq_eof.
  - fan_finish fan_dist_eof.
  - fan_finish fan_fwd_eof.
  - fan_finish fan_gen_close.
  - fan_finish fan_sq_close.
  - fan_finish fan_dist_close.
  - fan_finish fan_closer_close.
  - fan_finish fan_fwd_done.
  - fan_finish fan_closer_wait.
  - fan_finish fan_gen_send.
  - fan_finish fan_sq_send.
  - fan_finish fan_dist_send.
  - fan_finish fan_fwd_send.
Qed.


(** *** Bounds, termination measure *)

Lemma fan_chan_cases N c :
  c < S (S (N + N)) →
  c = 0 ∨ (∃ i, i < N ∧ c = lane_in i) ∨ (∃ i, i < N ∧ c = lane_out i) ∨
  c = S (N + N).
Proof.
  intros Hc. destruct (Nat.Even_or_Odd c) as [[k Hk]|[k Hk]].
  - destruct k as [|k]; [left; lia|].
    right; right; left. exists k. lia.
  - destruct (decide (k = N)) as [->|Hne].
    + right; right; right. lia.
    + right; left. exists k. lia.
Qed.

Lemma fan_input_bound nums N bs w m g sqs d fwds cl L :
  fan_ok nums N bs w m g sqs d fwds cl L →
  length (sent_on 0 L) ≤ length nums.
Proof.
  intros Hok.
  destruct (fn_gen _ _ _ _ _ _ _ _ _ _ _ Hok) as [rest _ <-|_ <-];
    rewrite ?length_app; lia.
Qed.

Lemma fan_lane_in_bound nums N bs w m g sqs d fwds cl L i :
  fan_ok nums N bs w m g sqs d fwds cl L → i < N →
  length (sent_on (lane_in i) L) ≤ length nums.
Proof.
  intros Hok Hi. pose proof (fan_input_bound _ _ _ _ _ _ _ _ _ _ _ Hok) as Hb.
  destruct (fn_dist _ _ _ _ _ _ _ _ _ _ _ Hok) as [Ho Hs|dp n E Ho Hs|j Hj Hb0 Ho Hs];
    rewrite Hs by done.
  - pose proof (lane_items_length N i (sent_on 0 L)). lia.
  - pose proof (lane_items_length N i dp). rewrite E, length_app in Hb.
    simpl in Hb. lia.
  - pose proof (lane_items_length N i (sent_on 0 L)). lia.
Qed.

Lemma fan_lane_out_bound nums N bs w m g sqs d fwds cl L i :
  fan_ok nums N bs w m g sqs d fwds cl L → i < N →
  length (sent_on (lane_out i) L) ≤ length nums ∧
  length (sent_by (S (S (S (N + i)))) (S (N + N)) L) ≤ length nums.
Proof.
  intros Hok Hi.
  pose proof (fan_lane_in_bound _ _ _ _ _ _ _ _ _ _ _ i Hok Hi) as Hb.
  assert (is_Some (sqs !! i)) as [sq Hsq]
    by (apply lookup_lt_is_Some; by rewrite (fn_sqs _ _ _ _ _ _ _ _ _ _ _ Hok)).
  assert (is_Some (fwds !! i)) as [f Hf]
    by (apply lookup_lt_is_Some; by rewrite (fn_fwds _ _ _ _ _ _ _ _ _ _ _ Hok)).
  assert (length (sent_on (lane_out i) L) ≤ length nums) as H1.
  { destruct (fn_sq _ _ _ _ _ _ _ _ _ _ _ Hok i sq Hsq) as [_ E|n _ E|_ _ E|_ _ E];
      apply (f_equal length) in E;
      rewrite ?length_app, length_fmap in E; simpl in E; lia. }
  split; [done|].
  destruct (fn_fwd _ _ _ _ _ _ _ _ _ _ _ Hok i f Hf) as [E|v E|_ E|_ E];
    rewrite <- E in H1; rewrite ?length_app in H1; lia.
Qed.

Lemma sum_list_const_le (l : list nat) k :
  Forall (λ x, x ≤ k) l → sum_list l ≤ length l * k.
Proof. induction 1; simpl; lia. Qed.

Lemma fan_out_bound nums N bs w m g sqs d fwds cl L :
  fan_ok nums N bs w m g sqs d fwds cl L →
  length (sent_on (S (N + N)) L) ≤ N * length nums.
Proof.
  intros Hok.
  rewrite (interleave_length _ _ (fn_merge _ _ _ _ _ _ _ _ _ _ _ Hok)).
  etrans; [apply (sum_list_const_le _ (length nums))|].
  - apply Forall_fmap, Forall_fmap, Forall_forall. intros i Hi. simpl.
    apply elem_of_seq in Hi.
    apply (fan_lane_out_bound _ _ _ _ _ _ _ _ _ _ _ i Hok). lia.
  - by rewrite !length_fmap, length_seq.
Qed.

Lemma fan_bounds nums N bs w m g sqs d fwds cl L c :
  fan_ok nums N bs w m g sqs d fwds cl L → c < S (S (N + N)) →
  length (sent_on c L) ≤ fan_cap nums N c.
Proof.
  intros Hok Hc. unfold fan_cap.
  destruct (fan_chan_cases _ _ Hc) as [->|[(i & Hi & ->)|[(i & Hi & ->)| ->]]].
  - rewrite bool_decide_eq_false_2 by lia. by eapply fan_input_bound.
  - rewrite bool_decide_eq_false_2 by lia. by eapply fan_lane_in_bound.
  - rewrite bool_decide_eq_false_2 by lia.
    by apply (fan_lane_out_bound _ _ _ _ _ _ _ _ _ _ _ i Hok).
  - rewrite bool_decide_eq_true_2 by done. by eapply fan_out_bound.
Qed.

Lemma fan_measure_step nums N σ σ' :
  fan_inv nums N σ → fan_inv nums N σ' → step σ σ' →
  fan_measure nums N σ' < fan_measure nums N σ.
Proof.
  intros (bs & w & m & g & sqs & d & fwds & cl & L & -> & Hok).
  intros (bs' & w' & m' & g' & sqs' & d' & fwds' & cl' & L' & -> & Hok').
  intros [_ Ht]%step_transition. unfold fan_measure.
  replace (S (S (N + N))) with
    (length (chans (fan_shape bs w m g sqs d fwds cl L)))
    by (simpl; by rewrite length_fmap, (fn_bs _ _ _ _ _ _ _ _ _ _ _ Hok)).
  apply item_measure_step; [done|done|]. intros c Hlt. simpl in *.
  rewrite length_fmap, (fn_bs _ _ _ _ _ _ _ _ _ _ _ Hok) in Hlt.
  rewrite (fn_recv _ _ _ _ _ _ _ _ _ _ _ Hok').
  split; by eapply fan_bounds.
Qed.

(** *** Progress and the final configuration *)

Lemma fan_chan_lookup (bs : list bool) (c : nat) b :
  bs !! c = Some b → (mkch <$> bs) !! c = Some (mkch b).
Proof. intros H. by rewrite list_lookup_fmap, H. Qed.

(** Once the merged output is closed everything upstream is finished. *)
Lemma fan_all_done nums N bs w m g sqs d fwds cl L :
  fan_ok nums N bs w m g sqs d fwds cl L →
  bs !! S (N + N) = Some true →
  w = 0 ∧ cl = Exited ∧ g = Exited ∧ d = DistClose [] ∧
  sent_on 0 L = nums ∧ bs !! 0 = Some true ∧
  ∀ i, i < N →
    sqs !! i = Some Exited ∧ fwds !! i = Some Exited ∧
    bs !! lane_in i = Some true ∧ bs !! lane_out i = Some true ∧
    sent_on (lane_in i) L = lane_items N i nums ∧
    sent_on (lane_out i) L = (λ n, int_mul n n) <$> lane_items N i nums ∧
    sent_by (S (S (S (N + i)))) (S (N + N)) L =
      (λ n, int_mul n n) <$> lane_items N i nums.
Proof.
  intros Hok Hbo.
  destruct (fn_cl _ _ _ _ _ _ _ _ _ _ _ Hok) as (bo & Hbo' & Hcl).
  assert (bo = true) as -> by congruence.
  destruct Hcl as [?|? ?|_ ->]; try done.
  assert (∀ i, i < N →
    sqs !! i = Some Exited ∧ fwds !! i = Some Exited ∧
    bs !! lane_in i = Some true ∧ bs !! lane_out i = Some true ∧
    sent_on (lane_out i) L = (λ n, int_mul n n) <$> sent_on (lane_in i) L ∧
    sent_by (S (S (S (N + i)))) (S (N + N)) L = sent_on (lane_out i) L)
    as Hlanes.
  { intros i Hi.
    assert (is_Some (sqs !! i)) as [sq Hsq]
      by (apply lookup_lt_is_Some; by rewrite (fn_sqs _ _ _ _ _ _ _ _ _ _ _ Hok)).
    assert (is_Some (fwds !! i)) as [f Hf]
      by (apply lookup_lt_is_Some; by rewrite (fn_fwds _ _ _ _ _ _ _ _ _ _ _ Hok)).
    assert (f = Exited) as ->.
    { eapply alive_sum_zero; [|done].
      by rewrite <- (fn_wg _ _ _ _ _ _ _ _ _ _ _ Hok). }
    pose proof (fn_fwd _ _ _ _ _ _ _ _ _ _ _ Hok i _ Hf) as Hfw.
    inversion Hfw as [| | |Hb E]; subst.
    destruct (fn_sq _ _ _ _ _ _ _ _ _ _ _ Hok i sq Hsq) as [?|? ?|? ?|? ? E'];
      try congruence.
    done. }
  pose proof (fn_pos _ _ _ _ _ _ _ _ _ _ _ Hok) as Hpos.
  destruct (Hlanes 0 Hpos) as (_ & _ & Hin0 & _).
  assert (d = DistClose [] ∧ bs !! 0 = Some true ∧
          ∀ i, i < N → sent_on (lane_in i) L = lane_items N i (sent_on 0 L))
    as (-> & Hb0 & Hs).
  { destruct (fn_dist _ _ _ _ _ _ _ _ _ _ _ Hok) as [Ho Hs|dp n E Ho Hs|j Hj Hb0 Ho Hs].
    - rewrite Ho in Hin0 by done. done.
    - rewrite Ho in Hin0 by done. done.
    - assert (j = N) as ->.
      { destruct (decide (j = N)) as [|Hne]; [done|].
        assert (j < N) as Hlt by lia.
        destruct (Hlanes j Hlt) as (_ & _ & Hinj & _).
        rewrite Ho in Hinj by done.
        rewrite bool_decide_eq_false_2 in Hinj by lia. done. }
      by rewrite Nat.sub_diag. }
  assert (g = Exited ∧ sent_on 0 L = nums) as [-> E0].
  { destruct (fn_gen _ _ _ _ _ _ _ _ _ _ _ Hok); [congruence|done]. }
  split_and!; try done.
  intros i Hi. destruct (Hlanes i Hi) as (? & ? & ? & ? & E1 & E2).
  rewrite Hs, E0 in E1 by done. rewrite E1 in E2.
  split_and!; try done. by rewrite Hs, E0.
Qed.

Ltac fan_fire :=
  eexists; apply step_transition; split; [done|].

Lemma fan_progress nums N σ :
  fan_inv nums N σ → final σ = true ∨ ∃ σ', step σ σ'.
Proof.
  intros (bs & w & m & g & sqs & d & fwds & cl & L & -> & Hok).
  pose proof (fn_sqs _ _ _ _ _ _ _ _ _ _ _ Hok) as Hls.
  pose proof (fn_fwds _ _ _ _ _ _ _ _ _ _ _ Hok) as Hlf.
  pose proof (fn_pos _ _ _ _ _ _ _ _ _ _ _ Hok) as Hpos.
  destruct (fn_main _ _ _ _ _ _ _ _ _ _ _ Hok) as [|Hbo].
  - right. destruct (fn_cl _ _ _ _ _ _ _ _ _ _ _ Hok) as (bo & Hbo & Hcl).
    destruct (decide (w = 0)) as [->|Hw].
    { destruct Hcl as [Hb|Hb _|Hb _]; subst bo.
      - fan_fire. eapply (T_wait _ (S (S (S (N + N)))) _ 0);
          [by apply fan_cl_lookup|done..].
      - fan_fire. eapply (T_close _ (S (S (S (N + N)))) _ (S (N + N)) _
                            (mkch false));
          [by apply fan_cl_lookup|done|by apply fan_chan_lookup|done].
      - fan_fire. eapply (T_recv_closed _ 0 _ (S (N + N)) _ (mkch true));
          [done|done|by apply fan_chan_lookup|done..]. }
    destruct (alive_sum_pos fwds) as (i & f & Hf & Hne).
    { rewrite <- (fn_wg _ _ _ _ _ _ _ _ _ _ _ Hok). lia. }
    destruct (fan_fwd_alive _ _ _ _ _ _ _ _ _ _ _ _ _ Hok Hf Hne) as [_ Hout].
    assert (i < N) as Hi by (rewrite <- Hlf; by eapply lookup_lt_Some).
    destruct (fn_fwd _ _ _ _ _ _ _ _ _ _ _ Hok i f Hf) as [E|v E|Hbt E|Hbt E];
      [| | |done].
    2:{ fan_fire.
        eapply (T_sync _ (S (S (S (N + i)))) 0 _ _ (S (N + N)) _ _ _
                  (mkch false));
          [lia|by apply fan_fwd_lookup|done|done|done
          |by apply fan_chan_lookup|done..]. }
    2:{ destruct w as [|n]; [done|]. fan_fire.
        eapply (T_done _ (S (S (S (N + i)))) _ 0 _ n);
          [by apply fan_fwd_lookup|done..]. }
    assert (is_Some (sqs !! i)) as [sq Hsq]
      by (apply lookup_lt_is_Some; by rewrite Hls).
    destruct (fn_sq _ _ _ _ _ _ _ _ _ _ _ Hok i sq Hsq) as [Hb2 E'|n Hb2 E'|Hb1 Hb2 E'|Hb1 Hb2 E'].
    2:{ fan_fire.
        eapply (T_sync _ (S (S i)) (S (S (S (N + i)))) _ _ (lane_out i) _ _ _
                  (mkch false));
          [lia|by apply fan_sq_lookup|by apply fan_fwd_lookup|done|done
          |by apply fan_chan_lookup|done..]. }
    2:{ fan_fire.
        eapply (T_close _ (S (S i)) _ (lane_out i) _ (mkch false));
          [by apply fan_sq_lookup|done|by apply fan_chan_lookup|done]. }
    2:{ fan_fire.
        eapply (T_recv_closed _ (S (S (S (N + i)))) _ (lane_out i) _
                  (mkch true));
          [by apply fan_fwd_lookup|done|by apply fan_chan_lookup|done..]. }
    simpl in Hsq.
    destruct (fn_dist _ _ _ _ _ _ _ _ _ _ _ Hok) as [Ho Hs|dp n Ed Ho Hs|j Hj Hb0 Ho Hs].
    + destruct (fn_gen _ _ _ _ _ _ _ _ _ _ _ Hok) as [[|n rest] Hb0 Eg|Hb0 Eg].
      * fan_fire. eapply (T_close _ 1 _ 0 _ (mkch false));
          [done|done|by apply fan_chan_lookup|done].
      * fan_fire.
        eapply (T_sync _ 1 (S (S N)) _ _ 0 _ _ _ (mkch false));
          [lia|done|by apply fan_dist_lookup|done|done
          |by apply fan_chan_lookup|done..].
      * fan_fire.
        eapply (T_recv_closed _ (S (S N)) _ 0 _ (mkch true));
          [by apply fan_dist_lookup|done|by apply fan_chan_lookup|done..].
    + assert (length dp `mod` N < N) as Hj by (apply Nat.mod_upper_bound; lia).
      set (j := length dp `mod` N) in *.
      assert (is_Some (sqs !! j)) as [sq0 Hsq0]
        by (apply lookup_lt_is_Some; by rewrite Hls).
      assert (is_Some (fwds !! j)) as [f0 Hf0]
        by (apply lookup_lt_is_Some; by rewrite Hlf).
      pose proof (Ho j Hj) as Hoj.
      destruct (fn_sq _ _ _ _ _ _ _ _ _ _ _ Hok j sq0 Hsq0) as [Hc2 Ec|n' Hc2 Ec|Hc1 Hc2 Ec|Hc1 Hc2 Ec];
        [| |congruence|congruence].
      * fan_fire.
        eapply (T_sync _ (S (S N)) (S (S j)) _ _ (lane_in j) _ _ _
                  (mkch false));
          [lia|by apply fan_dist_lookup|by apply fan_sq_lookup
          |simpl; by rewrite dist_lane_round_robin|done
          |by apply fan_chan_lookup|done..].
      * destruct (fn_fwd _ _ _ _ _ _ _ _ _ _ _ Hok j f0 Hf0) as [E0|v E0|Hbt E0|Hbt E0];
          [| |congruence|congruence].
        -- fan_fire.
           eapply (T_sync _ (S (S j)) (S (S (S (N + j)))) _ _ (lane_out j) _ _ _
                     (mkch false));
             [lia|by apply fan_sq_lookup|by apply fan_fwd_lookup|done|done
             |by apply fan_chan_lookup|done..].
        -- fan_fire.
           eapply (T_sync _ (S (S (S (N + j)))) 0 _ _ (S (N + N)) _ _ _
                     (mkch false));
             [lia|by apply fan_fwd_lookup|done|done|done
             |by apply fan_chan_lookup|done..].
    + pose proof (Ho i Hi) as Hoi.
      destruct (decide (i < j)) as [Hlt|Hge].
      * rewrite bool_decide_eq_true_2 in Hoi by done. fan_fire.
        eapply (T_recv_closed _ (S (S i)) _ (lane_in i) _ (mkch true));
          [by apply fan_sq_lookup|done|by apply fan_chan_lookup|done..].
      * assert (j < N) as Hjn by lia. pose proof (Ho j Hjn) as Hoj.
        rewrite bool_decide_eq_false_2 in Hoj by lia.
        assert (∃ k, N - j = S k) as [k Hk] by (exists (N - j - 1); lia).
        fan_fire.
        eapply (T_close _ (S (S N)) _ (lane_in j) _ (mkch false));
          [by apply fan_dist_lookup|by rewrite Hk
          |by apply fan_chan_lookup|done].
  - left.
    destruct (fan_all_done _ _ _ _ _ _ _ _ _ _ _ Hok Hbo)
      as (-> & -> & -> & -> & _ & _ & Hlanes).
    unfold final. simpl. rewrite !forallb_app. simpl.
    rewrite forallb_app. simpl.
    rewrite andb_true_r. apply andb_true_intro. split.
    + apply forallb_forall. intros x Hx.
      apply list_elem_of_In, list_elem_of_lookup in Hx as [i Hi].
      assert (i < N) as Hlt by (rewrite <- Hls; by eapply lookup_lt_Some).
      destruct (Hlanes i Hlt) as (? & _). by simplify_eq.
    + apply forallb_forall. intros x Hx.
      apply list_elem_of_In, list_elem_of_lookup in Hx as [i Hi].
      assert (i < N) as Hlt by (rewrite <- Hlf; by eapply lookup_lt_Some).
      destruct (Hlanes i Hlt) as (_ & ? & _). by simplify_eq.
Qed.

Lemma fan_terminates nums N σ :
  fan_inv nums N σ →
  inevitably (λ σ', final σ' = true ∧ fan_inv nums N σ') σ.
Proof.
  apply (inevitably_measure (fan_inv nums N) _ (fan_measure nums N)).
  - intros σ0 Hinv. destruct (fan_progress _ _ _ Hinv); auto.
  - intros σ0 σ1 Hinv Hst.
    pose proof (fan_step _ _ _ _ Hinv Hst). split; [done|].
    by apply fan_measure_step.
Qed.

Lemma sum_list_ones n : ∀ k, sum_list ((λ _, 1) <$> seq k n) = n.
Proof. induction n as [|n IH]; intros k; csimpl; [done|]. by rewrite IH. Qed.

Lemma fan_boot_inv nums N :
  0 < N → (Z.of_nat (length nums) < 2 ^ 63)%Z →
  fan_inv nums N (boot (fan_main nums N)).
Proof.
  intros Hpos Hint. rewrite fan_boot. do 9 eexists. split; [done|].
  split; try done.
  - rewrite length_replicate. done.
  - by rewrite length_fmap, length_seq.
  - by rewrite length_fmap, length_seq.
  - constructor.
  - constructor; [|done]. by apply lookup_replicate_2; lia.
  - apply (do_recv N _ []).
    + intros i Hi. apply lookup_replicate_2. lia.
    + done.
  - intros i sq Hi. rewrite list_lookup_fmap in Hi.
    destruct (seq 0 N !! i) as [k|] eqn:Hk; [|done].
    apply lookup_seq in Hk as [-> Hk]. simpl in Hi. inversion Hi; subst.
    apply (so_recv _ _ StSquare); [|done]. apply lookup_replicate_2. lia.
  - intros i f Hi. rewrite list_lookup_fmap in Hi.
    destruct (seq 0 N !! i) as [k|] eqn:Hk; [|done].
    apply lookup_seq in Hk as [-> Hk]. simpl in Hi. inversion Hi; subst.
    by constructor.
  - rewrite <- list_fmap_compose.
    rewrite (list_fmap_ext _ (λ _, 1) (seq 0 N) ) by done.
    symmetry. apply sum_list_ones.
  - exists false. split; [|by constructor]. apply lookup_replicate_2. lia.
  - intros i b Hi [-> _]%lookup_replicate. done.
  - apply il_nil. apply Forall_fmap, Forall_forall. done.
Qed.

(** ** [transform] against the specialised stages *)

Lemma next_generalise g : action_generalises (next g) (next (generalise g)).
Proof.
  destruct g; simpl; repeat case_match; simpl; try done;
    try (split; [done|]); try (intros [?|]; done).
Qed.

Lemma returned_generalise g : returned (generalise g) = returned g.
Proof. by destruct g. Qed.

Lemma halted_generalise σ : halted (generalise_config σ) = halted σ.
Proof.
  unfold halted, main_returned. simpl. rewrite list_lookup_fmap.
  destruct (pool σ !! 0); simpl; [|done]. by rewrite returned_generalise.
Qed.

Lemma final_generalise σ : final (generalise_config σ) = final σ.
Proof.
  unfold final. simpl. f_equal.
  induction (pool σ) as [|g p IH]; [done|].
  rewrite fmap_cons. cbn [forallb]. by rewrite returned_generalise, IH.
Qed.

Lemma panic_generalise t σ :
  panic t (generalise_config σ) = generalise_config (panic t σ).
Proof. done. Qed.

Lemma exec_solo_generalise t σ :
  exec_solo t (generalise_config σ) = generalise_config <$> exec_solo t σ.
Proof.
  unfold exec_solo. simpl. rewrite list_lookup_fmap.
  destruct (pool σ !! t) as [g|]; simpl; [|done].
  pose proof (next_generalise g) as H.
  destruct (next g) as [c v k|c k|c k|w k|w k| |];
    destruct (next (generalise g)) as [c' v' k'|c' k'|c' k'|w' k'|w' k'| |];
    simpl in H; try done.
  - destruct H as (-> & -> & ->).
    destruct (chans σ !! c') as [ch|]; simpl; [|done].
    destruct (closed ch); [done|]. case_bool_decide; [|done]. simpl.
    unfold generalise_config. simpl. by rewrite list_fmap_insert.
  - destruct H as [-> H].
    destruct (chans σ !! c') as [ch|]; simpl; [|done].
    destruct (buf ch) as [|v b].
    + destruct (closed ch); [|done]. simpl.
      unfold generalise_config. simpl. by rewrite list_fmap_insert, H.
    + simpl. unfold generalise_config. simpl.
      by rewrite list_fmap_insert, H.
  - destruct H as (-> & ->).
    destruct (chans σ !! c') as [ch|]; simpl; [|done].
    destruct (closed ch); [done|]. simpl.
    unfold generalise_config. simpl. by rewrite list_fmap_insert.
  - destruct H as (-> & ->).
    destruct (wgs σ !! w') as [[|n]|]; simpl; [done| |done].
    unfold generalise_config. simpl. by rewrite list_fmap_insert.
  - destruct H as (-> & ->).
    destruct (wgs σ !! w') as [[|n]|]; simpl; [|done|done].
    unfold generalise_config. simpl. by rewrite list_fmap_insert.
Qed.

Lemma exec_sync_generalise ts tr σ :
  exec_sync ts tr (generalise_config σ) =
  generalise_config <$> exec_sync ts tr σ.
Proof.
  unfold exec_sync. case_bool_decide; [done|]. simpl.
  rewrite !list_lookup_fmap.
  destruct (pool σ !! ts) as [gs|]; simpl; [|done].
  destruct (pool σ !! tr) as [gr|]; simpl; [|done].
  pose proof (next_generalise gs) as Hs.
  pose proof (next_generalise gr) as Hr.
  destruct (next gs) as [c v k|c k|c k|w k|w k| |];
    destruct (next (generalise gs)) as [c' v' k'|c' k'|c' k'|w' k'|w' k'| |];
    simpl in Hs; try done.
  destruct Hs as (-> & -> & ->).
  destruct (next gr) as [|c k0| | | | |];
    destruct (next (generalise gr)) as [|c0 k0'| | | | |];
    simpl in Hr; try done.
  destruct Hr as [-> Hr]. case_bool_decide; [subst|done].
  destruct (chans σ !! c0) as [ch|]; simpl; [|done].
  destruct (closed ch); [done|]. destruct (cap ch); [|done].
  destruct (buf ch); [|done]. simpl.
  unfold generalise_config. simpl. by rewrite !list_fmap_insert, Hr.
Qed.

Lemma exec_generalise ch σ :
  exec ch (generalise_config σ) = generalise_config <$> exec ch σ.
Proof.
  unfold exec. rewrite halted_generalise. destruct (halted σ); [done|].
  destruct ch; [apply exec_solo_generalise|apply exec_sync_generalise].
Qed.

Lemma run_generalise sch : ∀ σ,
  run sch (generalise_config σ) = generalise_config <$> run sch σ.
Proof.
  induction sch as [|ch sch IH]; intros σ; simpl; [done|].
  rewrite exec_generalise. destruct (exec ch σ) as [σ'|]; simpl; [|done].
  apply IH.
Qed.

Lemma launch_generalise st inp σ :
  launch (StTransform (stage_fn st)) inp (generalise_config σ) =
  prod_map id generalise_config (launch st inp σ).
Proof.
  destruct st; simpl;
    unfold square, addTen, double, transform, mbind, Go_bind, make_chan, go,
      mret, Go_ret, generalise_config; simpl; by rewrite fmap_app.
Qed.

(** ** What the invariants say about reachable and final configurations *)

Lemma run_rtc sch : ∀ σ σ', run sch σ = Some σ' → rtc step σ σ'.
Proof.
  induction sch as [|ch sch IH]; intros σ σ' H; simpl in H.
  - inversion H. apply rtc_refl.
  - destruct (exec ch σ) as [σ1|] eqn:E; simpl in H; [|done].
    eapply rtc_l; [by exists ch|by apply IH].
Qed.

Lemma steps_bounded_measure (Inv : config → Prop) (Φ : config → nat) σ :
  (∀ σ σ', Inv σ → step σ σ' → Inv σ' ∧ Φ σ' < Φ σ) →
  Inv σ → steps_bounded (Φ σ) σ.
Proof.
  intros Hpres Hinv n σ' Hn.
  pose proof (measure_bounds_steps Inv Φ Hpres n σ σ' Hinv Hn). lia.
Qed.

(** *** Linear pipelines *)

Lemma chain_safety nums sts σ :
  chain_inv nums sts σ →
  crashed σ = false ∧
  sent_on 0 (log σ) `prefix_of` nums ∧
  (closers 0 (log σ) = [] ∨
   closers 0 (log σ) = [1] ∧ sent_on 0 (log σ) = nums) ∧
  (∀ j, received_from j (log σ) = sent_on j (log σ)) ∧
  (∀ j st, sts !! j = Some st →
     sent_on (S j) (log σ) `prefix_of` (stage_fn st <$> sent_on j (log σ))).
Proof.
  intros (bs & m & g & gs & L & -> & Hok). simpl. destruct Hok as [co_bs co_len co_main co_gen co_stages co_closers co_recv co_bound].
  split_and!; try done.
  - destruct co_gen as [rest _ <-|_ <-]; [by eexists|done].
  - destruct co_gen as [rest Hb _|Hb E].
    + left. by rewrite (co_closers 0 false).
    + right. by rewrite (co_closers 0 true).
  - intros j st Hj. destruct (co_stages j st Hj) as (gj & _ & Hs).
    destruct Hs as [_ ->|n _ <-|_ _ ->|_ _ ->]; try done. by eexists.
Qed.

Lemma chain_terminates_closing nums sts :
  terminates_closing (length sts) (boot (chain_main nums sts)).
Proof.
  eapply inevitably_mono; [|apply chain_terminates, chain_boot_inv].
  intros σ [Hf Hinv]. split; [done|].
  destruct (chain_final _ _ _ Hinv Hf) as (_ & Hall & _).
  destruct (Hall (length sts)) as (Hc & _); [done|]. eauto.
Qed.

Lemma chain_steps_bounded nums sts :
  steps_bounded (chain_measure nums sts (boot (chain_main nums sts)))
    (boot (chain_main nums sts)).
Proof.
  apply (steps_bounded_measure (chain_inv nums sts)); [|apply chain_boot_inv].
  intros σ σ' Hinv Hst. split; [by eapply chain_step|].
  by apply chain_measure_step.
Qed.

(** *** The fan-in merger *)

Lemma merge_safety inputs σ :
  merge_inv inputs σ →
  crashed σ = false ∧
  (∃ bo, chans σ !! length inputs = Some (Chan [] 0 bo) ∧
     if bo
     then closers (length inputs) (log σ) =
            [S (length inputs + length inputs)] ∧
          wgs σ = [0] ∧
          ∀ i nums, inputs !! i = Some nums →
            pool σ !! S (length inputs + i) = Some Exited ∧
            chans σ !! i = Some (Chan [] 0 true) ∧
            sent_by (S (length inputs + i)) (length inputs) (log σ) = nums ∧
            EvRecvClosed (S (length inputs + i)) i ∈ log σ
     else closers (length inputs) (log σ) = []) ∧
  interleave
    ((λ i, sent_by (S (length inputs + i)) (length inputs) (log σ))
       <$> seq 0 (length inputs))
    (sent_on (length inputs) (log σ)) ∧
  (∀ i nums, inputs !! i = Some nums →
     sent_by (S (length inputs + i)) (length inputs) (log σ)
       `prefix_of` nums).
Proof.
  intros (bs & bo & w & m & gens & fwds & cl & L & -> & Hok). simpl.
  pose proof (mo_bs _ _ _ _ _ _ _ _ _ Hok) as Hlb.
  pose proof (mo_gens _ _ _ _ _ _ _ _ _ Hok) as Hlg.
  split_and!; try done.
  - exists bo. split; [by apply merge_out_lookup|].
    destruct bo.
    + destruct (merge_closed _ _ _ _ _ _ _ _ Hok) as (-> & -> & Hc & Hl).
      split_and!; try done. intros i nums Hi.
      destruct (Hl i nums Hi) as (Hb & Hg & Hf & E1 & E2 & Hev).
      split_and!; try done.
      * apply (merge_fwd_lookup (length inputs) m); [done|done].
      * by apply (merge_lane_lookup _ _ _ true).
    + apply (mo_closer _ _ _ _ _ _ _ _ _ Hok).
  - apply (mo_merge _ _ _ _ _ _ _ _ _ Hok).
  - intros i nums Hi.
    destruct (mo_lanes _ _ _ _ _ _ _ _ _ Hok i nums Hi)
      as (b & g & f & _ & _ & _ & Hg & Hf).
    assert (sent_on i L `prefix_of` nums) as Hp.
    { destruct Hg as [rest _ <-|_ <-]; [by eexists|done]. }
    destruct Hf as [->|v E|_ ->|_ ->]; try done.
    etrans; [|exact Hp]. rewrite <- E. by eexists.
Qed.

Lemma merge_final inputs σ :
  merge_inv inputs σ → final σ = true →
  interleave inputs (sent_on (length inputs) (log σ)) ∧
  received_from (length inputs) (log σ) = sent_on (length inputs) (log σ) ∧
  chans σ !! length inputs = Some (Chan [] 0 true) ∧
  closers (length inputs) (log σ) = [S (length inputs + length inputs)].
Proof.
  intros (bs & bo & w & m & gens & fwds & cl & L & -> & Hok) Hf.
  apply final_main_returned in Hf. unfold main_returned in Hf. simpl in *.
  pose proof (mo_bs _ _ _ _ _ _ _ _ _ Hok) as Hlb.
  destruct (mo_main _ _ _ _ _ _ _ _ _ Hok) as [|Hbo]; [done|]. subst bo.
  split_and!.
  - by eapply merge_final_output.
  - apply (mo_recv _ _ _ _ _ _ _ _ _ Hok).
  - by apply merge_out_lookup.
  - apply (mo_closer _ _ _ _ _ _ _ _ _ Hok).
Qed.

Lemma merge_terminates_closing inputs :
  terminates_closing (length inputs) (boot (merge_main inputs)).
Proof.
  eapply inevitably_mono; [|apply merge_terminates, merge_boot_inv].
  intros σ [Hf Hinv]. split; [done|].
  destruct (merge_final _ _ Hinv Hf) as (_ & _ & Hc & _). eauto.
Qed.

Lemma merge_steps_bounded inputs :
  steps_bounded (merge_measure inputs (boot (merge_main inputs)))
    (boot (merge_main inputs)).
Proof.
  apply (steps_bounded_measure (merge_inv inputs)); [|apply merge_boot_inv].
  intros σ σ' Hinv Hst. pose proof (merge_step _ _ _ Hinv Hst).
  split; [done|]. by apply merge_measure_step.
Qed.

(** *** The worker pool *)

Lemma jobs_before_prefix j k : j ≤ k → jobs_before j `prefix_of` jobs_before k.
Proof.
  intros H. unfold jobs_before.
  replace (k - 1) with ((j - 1) + (k - j - (if decide (j = 0) then 1 else 0)))
    by (case_decide; lia).
  rewrite seq_app, fmap_app. by eexists.
Qed.

Lemma pool_safety nJ w σ :
  pool_inv nJ w σ →
  crashed σ = false ∧
  sent_on 0 (log σ) `prefix_of` jobs_before (S nJ) ∧
  (∃ jb cj rb cr,
     chans σ = [Chan jb nJ cj; Chan rb nJ cr] ∧
     (if cj
      then closers 0 (log σ) = [0] ∧ sent_on 0 (log σ) = jobs_before (S nJ)
      else closers 0 (log σ) = []) ∧
     (if cr
      then closers 1 (log σ) = [0] ∧ wgs σ = [0] ∧
           ∀ i, i < w → pool σ !! S i = Some Exited
      else closers 1 (log σ) = [])).
Proof.
  intros (jb & cj & rb & cr & wg & m & ws & L & -> & Hok). simpl.
  destruct Hok as [po_int po_ws po_wg po_jobs po_results po_held po_workers po_main
      po_closers0 po_closers1 po_idle].
  split_and!; try done.
  - destruct po_main as [j Hj _ _ -> _|_ _ -> _|_ _ _ -> _|_ _ _ ->|_ _ _ _ ->];
      try done. apply jobs_before_prefix. lia.
  - exists jb, cj, rb, cr. split; [done|]. split.
    + rewrite po_closers0. destruct cj; [|done]. split; [done|].
      by destruct po_main.
    + rewrite po_closers1. destruct cr; [|done].
      assert (wg = 0) as -> by (by destruct po_main).
      split_and!; try done. intros i Hi.
      assert (is_Some (ws !! i)) as [g Hg]
        by (apply lookup_lt_is_Some; by rewrite po_ws).
      simpl. rewrite Hg. f_equal. by eapply alive_sum_zero.
Qed.

Lemma pool_final nJ w σ :
  pool_inv nJ w σ → final σ = true →
  closers 0 (log σ) = [0] ∧ closers 1 (log σ) = [0] ∧
  sent_on 0 (log σ) = jobs_before (S nJ) ∧
  received_from 1 (log σ) = sent_on 1 (log σ) ∧
  length (sent_on 1 (log σ)) = length (received_from 0 (log σ)) ∧
  ∃ jb, chans σ = [Chan jb nJ true; Chan [] nJ true] ∧
        sent_on 0 (log σ) = received_from 0 (log σ) ++ jb ∧
        (0 < w → jb = []) ∧
        (w = 0 → received_from 0 (log σ) = []).
Proof.
  intros (jb & cj & rb & cr & wg & m & ws & L & -> & Hok) Hf.
  pose proof (final_main_returned _ Hf) as Hm.
  unfold main_returned in Hm. unfold final in Hf. simpl in *.
  rewrite andb_true_iff in Hf. destruct Hf as [_ Hws].
  assert (∀ i g, ws !! i = Some g → g = Exited) as Hex.
  { intros i g Hg.
    assert (returned g = true) as Hr.
    { rewrite forallb_forall in Hws. apply Hws.
      apply list_elem_of_In. by eapply list_elem_of_lookup_2. }
    destruct (po_workers _ _ _ _ _ _ _ _ _ _ Hok i g Hg); try done. }
  assert (sum_list (holding <$> ws) = 0) as Hh.
  { clear -Hex. induction ws as [|a ws IH]; [done|]. csimpl.
    rewrite (Hex 0 a eq_refl). simpl. apply IH.
    intros i g Hg. apply (Hex (S i)). done. }
  destruct Hok as [po_int po_ws po_wg po_jobs po_results po_held po_workers po_main
      po_closers0 po_closers1 po_idle].
  rewrite Hh in po_held.
  assert (m = Exited) as ->.
  { destruct po_main; try done. unfold returned in Hm. simpl in Hm.
    by destruct (_ <=? _)%Z. }
  inversion po_main as [ | | | | Hcj Hcr _ Hrb E]. subst cj cr rb.
  rewrite app_nil_r in po_results.
  split_and!; try done.
  - lia.
  - exists jb. split_and!; try done.
    intros Hw. destruct ws as [|g ws]; [simpl in *; lia|].
    pose proof (Hex 0 g eq_refl) as ->.
    pose proof (po_workers 0 Exited eq_refl) as Hwk. by inversion Hwk.
Qed.

Lemma pool_terminates_closing nJ w :
  (Z.of_nat nJ < 2 ^ 63 - 1)%Z →
  terminates_closing 1 (boot (pool_main nJ w)).
Proof.
  intros Hint.
  eapply inevitably_mono; [|by apply pool_terminates, pool_boot_inv].
  intros σ [Hf Hinv]. split; [done|].
  destruct (pool_final _ _ _ Hinv Hf) as (_ & _ & _ & _ & _ & jb & -> & _).
  eauto.
Qed.

Lemma pool_steps_bounded nJ w :
  (Z.of_nat nJ < 2 ^ 63 - 1)%Z →
  steps_bounded (pool_measure nJ (boot (pool_main nJ w)))
    (boot (pool_main nJ w)).
Proof.
  intros Hint.
  apply (steps_bounded_measure (pool_inv nJ w)); [|by apply pool_boot_inv].
  intros σ σ' Hinv Hst. pose proof (pool_step _ _ _ _ Hinv Hst).
  split; [done|]. by eapply pool_measure_step.
Qed.

(** *** The fan-out/fan-in program *)

Lemma lane_items_prefix n j l1 l2 :
  l1 `prefix_of` l2 → lane_items n j l1 `prefix_of` lane_items n j l2.
Proof.
  intros [k ->]. unfold lane_items. rewrite imap_app, omap_app. by eexists.
Qed.

Lemma succ_div_mod m n :
  0 < n →
  (S (m `mod` n) < n ∧ S m / n = m / n ∧ S m `mod` n = S (m `mod` n)) ∨
  (S (m `mod` n) = n ∧ S m / n = S (m / n) ∧ S m `mod` n = 0).
Proof.
  intros Hn. pose proof (Nat.div_mod_eq m n) as E.
  pose proof (Nat.mod_upper_bound m n) as Hr.
  destruct (decide (S (m `mod` n) < n)) as [Hlt|Hge].
  - left. split; [done|]. split.
    + symmetry. apply (Nat.div_unique _ _ _ (S (m `mod` n))); lia.
    + symmetry. apply (Nat.mod_unique _ _ (m / n)); lia.
  - right. split; [lia|]. split.
    + symmetry. apply (Nat.div_unique _ _ _ 0); lia.
    + symmetry. apply (Nat.mod_unique _ _ (S (m / n))); lia.
Qed.

Lemma lane_items_count n j l :
  0 < n → j < n →
  length (lane_items n j l) =
  length l / n + (if bool_decide (j < length l `mod` n) then 1 else 0).
Proof.
  intros Hn Hj. induction l as [|x l IH] using rev_ind.
  - simpl. rewrite Nat.Div0.div_0_l, Nat.Div0.mod_0_l.
    by rewrite bool_decide_eq_false_2 by lia.
  - rewrite lane_items_snoc, !length_app, IH. simpl.
    replace (length l + 1) with (S (length l)) by lia.
    destruct (succ_div_mod (length l) n Hn) as [(H1 & -> & ->)|(H1 & -> & ->)];
      repeat case_bool_decide; simpl; lia.
Qed.

(** Item [p] of the input is the [p / n]-th item of lane [p mod n]. *)
Lemma lane_items_lookup n l p x :
  0 < n → l !! p = Some x →
  lane_items n (p `mod` n) l !! (p / n) = Some x.
Proof.
  intros Hn. induction l as [|y l IH] using rev_ind; [done|].
  intros Hp. rewrite lane_items_snoc.
  apply lookup_app_Some in Hp as [Hp|[Hge Hp]].
  - apply lookup_app_l_Some. auto.
  - apply list_lookup_singleton_Some in Hp as [Hp ->].
    assert (p = length l) as -> by lia.
    rewrite bool_decide_eq_true_2 by done.
    rewrite lookup_app_r; rewrite lane_items_count;
      try (apply Nat.mod_upper_bound; lia); try done;
      rewrite bool_decide_eq_false_2 by lia; rewrite Nat.add_0_r; [|done].
    by rewrite Nat.sub_diag.
Qed.

Lemma fan_safety nums N σ :
  fan_inv nums N σ →
  crashed σ = false ∧
  (∃ dp, dp `prefix_of` nums ∧
         ∀ j, j < N → sent_on (lane_in j) (log σ) = lane_items N j dp) ∧
  (∀ j, j < N →
     ∃ b, chans σ !! lane_in j = Some (Chan [] 0 b) ∧
          if b
          then closers (lane_in j) (log σ) = [S (S N)] ∧
               chans σ !! 0 = Some (Chan [] 0 true) ∧
               sent_on 0 (log σ) = nums ∧
               sent_on (lane_in j) (log σ) = lane_items N j nums
          else closers (lane_in j) (log σ) = []).
Proof.
  intros (bs & w & m & g & sqs & d & fwds & cl & L & -> & Hok). simpl.
  destruct Hok as [fn_pos fn_int fn_bs fn_sqs fn_fwds fn_main fn_gen fn_dist fn_sq fn_fwd
      fn_wg fn_cl fn_closers fn_recv fn_merge].
  assert (sent_on 0 L `prefix_of` nums) as Hp.
  { destruct fn_gen as [rest _ <-|_ <-]; [by eexists|done]. }
  split_and!; try done.
  - destruct fn_dist as [Ho Hs|dp n E Ho Hs|j Hj Hb0 Ho Hs].
    + by exists (sent_on 0 L).
    + exists dp. split; [|done]. etrans; [|exact Hp]. rewrite E. by eexists.
    + by exists (sent_on 0 L).
  - intros j Hj.
    assert (is_Some (bs !! lane_in j)) as [b Hb]
      by (apply lookup_lt_is_Some; lia).
    exists b. split; [by apply fan_chan_lookup|].
    rewrite (fn_closers j b Hj Hb). destruct b; [|done].
    destruct fn_dist as [Ho Hs|dp n E Ho Hs|j' Hj' Hb0 Ho Hs];
      try (rewrite Ho in Hb by done; done).
    assert (sent_on 0 L = nums) as E0
      by (destruct fn_gen; [congruence|done]).
    split_and!; try done.
    + by apply fan_chan_lookup.
    + by rewrite Hs, E0.
Qed.

Lemma fan_final nums N σ :
  fan_inv nums N σ → final σ = true →
  sent_on 0 (log σ) = nums ∧
  (∀ j, j < N →
     sent_on (lane_in j) (log σ) = lane_items N j nums ∧
     received_from (lane_in j) (log σ) = lane_items N j nums ∧
     chans σ !! lane_in j = Some (Chan [] 0 true) ∧
     closers (lane_in j) (log σ) = [S (S N)] ∧
     sent_on (lane_out j) (log σ) =
       (λ n, int_mul n n) <$> lane_items N j nums) ∧
  interleave
    ((λ j, (λ n, int_mul n n) <$> lane_items N j nums) <$> seq 0 N)
    (sent_on (S (N + N)) (log σ)) ∧
  received_from (S (N + N)) (log σ) = sent_on (S (N + N)) (log σ) ∧
  chans σ !! S (N + N) = Some (Chan [] 0 true).
Proof.
  intros (bs & w & m & g & sqs & d & fwds & cl & L & -> & Hok) Hf.
  apply final_main_returned in Hf. unfold main_returned in Hf. simpl in *.
  destruct (fn_main _ _ _ _ _ _ _ _ _ _ _ Hok) as [|Hbo]; [done|].
  destruct (fan_all_done _ _ _ _ _ _ _ _ _ _ _ Hok Hbo)
    as (-> & -> & -> & -> & E0 & Hb0 & Hl).
  split_and!; try done.
  - intros j Hj. destruct (Hl j Hj) as (_ & _ & Hbi & _ & E1 & E2 & _).
    split_and!; try done.
    + by rewrite (fn_recv _ _ _ _ _ _ _ _ _ _ _ Hok).
    + by apply fan_chan_lookup.
    + by rewrite (fn_closers _ _ _ _ _ _ _ _ _ _ _ Hok j true).
  - pose proof (fn_merge _ _ _ _ _ _ _ _ _ _ _ Hok) as Hm.
    assert ((λ i, sent_by (S (S (S (N + i)))) (S (N + N)) L) <$> seq 0 N =
            (λ j, (λ n, int_mul n n) <$> lane_items N j nums) <$> seq 0 N)
      as <-; [|exact Hm].
    apply list_fmap_ext. intros i j Hij. simpl.
    apply lookup_seq in Hij as [-> Hj].
    by destruct (Hl i Hj) as (_ & _ & _ & _ & _ & _ & E3).
  - apply (fn_recv _ _ _ _ _ _ _ _ _ _ _ Hok).
  - by apply fan_chan_lookup.
Qed.

Lemma fan_terminates_closing nums N :
  0 < N → (Z.of_nat (length nums) < 2 ^ 63)%Z →
  terminates_closing (S (N + N)) (boot (fan_main nums N)).
Proof.
  intros Hpos Hint.
  eapply inevitably_mono; [|by apply fan_terminates, fan_boot_inv].
  intros σ [Hf Hinv]. split; [done|].
  destruct (fan_final _ _ _ Hinv Hf) as (_ & _ & _ & _ & Hc). eauto.
Qed.

Lemma fan_steps_bounded nums N :
  0 < N → (Z.of_nat (length nums) < 2 ^ 63)%Z →
  steps_bounded (fan_measure nums N (boot (fan_main nums N)))
    (boot (fan_main nums N)).
Proof.
  intros Hpos Hint.
  apply (steps_bounded_measure (fan_inv nums N)); [|by apply fan_boot_inv].
  intros σ σ' Hinv Hst. pose proof (fan_step _ _ _ _ Hinv Hst).
  split; [done|]. by apply fan_measure_step.
Qed.

Lemma lane_items_sublist n j l : lane_items n j l `sublist_of` l.
Proof.
  induction l as [|x l IH] using rev_ind; [done|].
  rewrite lane_items_snoc. apply sublist_app; [done|].
  case_bool_decide; [done|apply sublist_nil_l].
Qed.

Lemma lane_items_perm n l :
  0 < n → concat ((λ j, lane_items n j l) <$> seq 0 n) ≡ₚ l.
Proof. intros Hn. by apply interleave_perm, lane_items_interleave. Qed.

(** *** Small configurations, step by step *)

Ltac concrete_step Ht :=
  inversion Ht; simplify_eq/=;
  repeat match goal with
  | H : (_ :: _) !! ?t = Some _ |- _ => destruct t; simplify_eq/=
  | H : [] !! _ = Some _ |- _ => done
  end.

Lemma empty_source_first_step σ' :
  step (boot (chain_main [] [])) σ' →
  σ' = Config [Chan [] 0 true] [] [Range 0; Exited] [EvClose 1 0] false.
Proof. intros [_ Ht]%step_transition. concrete_step Ht; done. Qed.

Lemma empty_merge_first_step σ' :
  step (boot (merge_main [])) σ' →
  σ' = Config [Chan [] 0 false] [0] [Range 0; CloseOut 0] [EvWait 1 0] false.
Proof. intros [_ Ht]%step_transition. concrete_step Ht; done. Qed.

Lemma empty_merge_second_step σ' :
  step (Config [Chan [] 0 false] [0] [Range 0; CloseOut 0] [EvWait 1 0] false)
    σ' →
  σ' = Config [Chan [] 0 true] [0] [Range 0; Exited] [EvWait 1 0; EvClose 1 0]
         false.
Proof. intros [_ Ht]%step_transition. concrete_step Ht; done. Qed.

(** *** Panics *)

(** A panic ends the program: no goroutine takes another step. *)
Lemma crashed_stuck σ ch : crashed σ = true → exec ch σ = None.
Proof. intros H. unfold exec, halted. by rewrite H. Qed.

Lemma halted_stuck σ σ' : halted σ = true → ¬ step σ σ'.
Proof. intros H Hs. apply step_not_halted in Hs. congruence. Qed.

(** If the executions of [σ] all reach [P], and [P] only holds where the
    program has ended, then a run from [σ] keeps that property. *)
Lemma inevitably_run (P : config → Prop) :
  (∀ σ, P σ → halted σ = true) →
  ∀ sch σ σ', run sch σ = Some σ' → inevitably P σ → inevitably P σ'.
Proof.
  intros HP. induction sch as [|ch sch IH]; intros σ σ' Hr Hi.
  - by simplify_eq/=.
  - simpl in Hr. destruct (exec ch σ) as [σ1|] eqn:He; [|done]. simpl in Hr.
    apply (IH σ1 σ' Hr). destruct Hi as [Hp|_ Hall].
    + apply HP in Hp. unfold exec in He. by rewrite Hp in He.
    + apply Hall. by exists ch.
Qed.

Lemma inevitably_ended (P : config → Prop) σ :
  halted σ = true → inevitably P σ → P σ.
Proof.
  intros Hh [Hp|[σ' Hs] _]; [done|]. by apply halted_stuck in Hs.
Qed.

(** *** The fan-out/fan-in main with no worker *)

Lemma fan0_boot nums :
  boot (fan_main nums 0) =
  Config [Chan [] 0 false; Chan [] 0 false] [0]
    [Range 1; Generate 0 nums; DistRecv 0 [] 0 0; WaitClose 0 1] [] false.
Proof. reflexivity. Qed.

Lemma fan0_boot_inv nums : fan0_inv nums (boot (fan_main nums 0)).
Proof.
  rewrite fan0_boot. exists (Range 1), (Generate 0 nums), (DistRecv 0 [] 0 0),
    (WaitClose 0 1), false, false, false, [].
  split_and!; try done; constructor.
Qed.

Ltac fan0_close H1 H2 H3 :=
  split;
  [ eexists _, _, _, _, _, _, _, _; split; [reflexivity|];
    split_and!;
      [ first [ by apply f0_start | by eapply f0_taken
              | by eapply f0_taken_closed | by apply f0_closed
              | by apply f0_eof ]
      | first [ apply o_wait | apply o_closing | apply o_closed
              | apply o_done ]
      | log_simpl; rewrite ?H1, ?H2, ?H3; bdec.. ]
  | unfold fan0_measure, weight_sum, unsent; simpl; lia ].

Lemma fan0_step nums σ σ' :
  fan0_inv nums σ → step σ σ' →
  fan0_inv nums σ' ∧ fan0_measure σ' < fan0_measure σ.
Proof.
  intros (m & g & d & cl & b0 & b1 & c & L & -> & Hf & Ho & H1 & H2 & H3)
    [Hh Ht]%step_transition.
  destruct Hf as [|n rest c E|n c E|E|E]; destruct Ho; subst;
    try destruct c; try (by cbv in Hh);
    try destruct nums as [|n nums]; try destruct rest as [|n' rest];
    concrete_step Ht; try (exfalso; lia); try done; fan0_close H1 H2 H3.
Qed.

Lemma fan0_ended_halted nums σ : fan0_ended nums σ → halted σ = true.
Proof.
  unfold halted, main_returned.
  intros [[-> _]|(-> & -> & _)]; reflexivity.
Qed.

Lemma fan0_progress nums σ :
  fan0_inv nums σ → fan0_ended nums σ ∨ ∃ σ', step σ σ'.
Proof.
  intros (m & g & d & cl & b0 & b1 & c & L & -> & Hf & Ho & H1 & H2 & H3).
  destruct c.
  - left. left. split; [done|]. inversion Hf; subst; simpl; eauto.
  - destruct Ho.
    + right. eexists. exists (Solo 3). reflexivity.
    + right. eexists. exists (Solo 3). reflexivity.
    + right. eexists. exists (Solo 0). reflexivity.
    + left. right. done.
Qed.

Lemma fan0_terminates nums :
  inevitably (fan0_ended nums) (boot (fan_main nums 0)).
Proof.
  apply (inevitably_measure (fan0_inv nums) _ fan0_measure).
  - apply fan0_progress.
  - apply fan0_step.
  - apply fan0_boot_inv.
Qed.

Lemma fan0_reachable nums σ :
  rtc step (boot (fan_main nums 0)) σ → fan0_inv nums σ.
Proof.
  apply (invariant_reachable (fan0_inv nums)); [|apply fan0_boot_inv].
  intros σ1 σ2 Hi Hs. by destruct (fan0_step _ _ _ Hi Hs).
Qed.

Lemma fan0_safety nums σ :
  fan0_inv nums σ →
  sent_on 1 (log σ) = [] ∧ received_from 1 (log σ) = [] ∧
  (crashed σ = true →
   ∃ n rest, nums = n :: rest ∧ pool σ !! 2 = Some (DistSend 0 [] 0 0 n)).
Proof.
  intros (m & g & d & cl & b0 & b1 & c & L & -> & Hf & Ho & H1 & H2 & H3).
  simpl. split_and!; try done. intros ->. inversion Hf; subst; simpl; eauto.
Qed.

(** *** A stage that can panic *)

Lemma partial_boot nums fn :
  boot (partial_main nums fn) =
  Config [Chan [] 0 false; Chan [] 0 false] []
    [Range 1; Generate 0 nums; PartialRecv 0 1 fn] [] false.
Proof. reflexivity. Qed.

Lemma partial_boot_inv nums fn :
  partial_inv nums fn (boot (partial_main nums fn)).
Proof.
  rewrite partial_boot.
  exists (Range 1), (Generate 0 nums), (PartialRecv 0 1 fn),
    false, false, false, [].
  split_and!; try done; by constructor.
Qed.

Ltac partial_fn :=
  repeat match goal with
  | H : match ?fn ?n with _ => _ end = _ |- _ =>
      let E := fresh "Hfn" in destruct (fn n) eqn:E; simplify_eq/=
  end.

Ltac partial_gen :=
  first [ by (apply go_sending; [done|logs; by rewrite <- ?app_assoc])
        | by (apply go_exited; [done|logs]) ].

Ltac partial_stage Hf Hd :=
  first
    [ by (apply ps_recv; [done|done|
            logs; rewrite ?Hd, ?fmap_app, ?Hf; simpl; congruence])
    | by (eapply ps_send; [done|logs; try reflexivity; by rewrite Hd|
            logs; try done; by rewrite ?Hf|
            first [done|congruence]])
    | by (apply ps_close; [done|done|done|logs; by rewrite ?Hf])
    | by (apply ps_exited; [done|done|done|logs; by rewrite ?Hf]) ].

Lemma partial_step nums fn σ σ' :
  partial_inv nums fn σ → step σ σ' →
  partial_inv nums fn σ' ∧ partial_measure nums σ' < partial_measure nums σ.
Proof.
  intros (m & g & s & b0 & b1 & c & L & -> & Hg & Hs & Hm & Hr)
    [Hh Ht]%step_transition.
  destruct Hg as [rest Hb0 Hn|Hb0 Hn];
    destruct Hs as [Hb1 Hc Hf|dp n Hb1 Hd Hf Hc|Hb0' Hb1 Hc Hf|Hb0' Hb1 Hc Hf];
    destruct Hm as [|Hb1'];
    pose proof (f_equal length Hf) as Hlen; rewrite !length_fmap in Hlen;
    try (pose proof (f_equal length Hd) as Hlen';
         rewrite length_app in Hlen'; simpl in Hlen');
    simplify_eq/=;
    try (destruct c; [by cbv in Hh|]);
    try destruct rest as [|n' rest];
    concrete_step Ht; try (exfalso; lia); try done; partial_fn.
  all: split;
    [ eexists _, _, _, _, _, _, _; split; [reflexivity|]; split_and!;
      [ partial_gen | partial_stage Hf Hd
      | first [apply mo_range|by apply mo_exited]
      | log_simpl; rewrite ?Hr; bdec ]
    | unfold partial_measure, weight_sum, panic; simpl; log_simpl;
      repeat case_bool_decide; simplify_eq/=;
      rewrite ?length_app in *; simpl in *; lia ].
Qed.

Lemma partial_progress nums fn σ :
  partial_inv nums fn σ → partial_ended nums fn σ ∨ ∃ σ', step σ σ'.
Proof.
  intros (m & g & s & b0 & b1 & c & L & -> & Hg & Hs & Hm & Hr).
  destruct c.
  - left. right.
    destruct Hs as [? Hc|dp n Hb1 Hd Hf Hc|? ? Hc|? ? Hc]; try done.
    subst b1. destruct Hm as [|Hb1']; [|done].
    split_and!; try done. exists dp, n.
    destruct Hg as [rest _ Hn|_ Hn].
    + exists rest. rewrite <- Hn, Hd, <- app_assoc. simpl.
      split_and!; auto. by rewrite Hr.
    + exists []. rewrite <- Hn, Hd. simpl. split_and!; auto. by rewrite Hr.
  - destruct Hm as [|Hb1'].
    + right.
      destruct Hs as [Hb1 _ Hf|dp n Hb1 Hd Hf _|Hb0 Hb1 _ Hf|Hb0 Hb1 _ Hf];
        subst.
      * destruct Hg as [[|n rest] Hb0 Hn|Hb0 Hn]; simplify_eq/=.
        -- eexists. exists (Solo 1). reflexivity.
        -- eexists. exists (Sync 1 2). reflexivity.
        -- eexists. exists (Solo 2). reflexivity.
      * destruct (fn n) as [v|] eqn:Hfn.
        -- eexists. exists (Sync 2 0).
           unfold exec, exec_sync, halted, main_returned. simpl.
           rewrite Hfn. reflexivity.
        -- eexists. exists (Solo 2).
           unfold exec, exec_solo, halted, main_returned. simpl.
           rewrite Hfn. reflexivity.
      * eexists. exists (Solo 2). reflexivity.
      * eexists. exists (Solo 0). reflexivity.
    + left. left. simplify_eq/=.
      destruct Hs as [Hb1|dp n Hb1|Hb0 Hb1|Hb0 Hb1 _ Hf]; try done. subst.
      destruct Hg as [rest Hb0 Hn|Hb0 Hn]; [done|]. subst.
      simpl. split_and!; try done. by rewrite Hr.
Qed.

Lemma partial_terminates nums fn :
  inevitably (partial_ended nums fn) (boot (partial_main nums fn)).
Proof.
  apply (inevitably_measure (partial_inv nums fn) _ (partial_measure nums)).
  - apply partial_progress.
  - apply partial_step.
  - apply partial_boot_inv.
Qed.

Lemma fmap_Some_all (fn : Z → option Z) (l out : list Z) n :
  fn <$> l = Some <$> out → n ∈ l → is_Some (fn n).
Proof.
  revert out. induction l as [|x l IH]; intros [|y out] H Hin;
    simplify_eq/=; try by apply elem_of_nil in Hin.
  apply elem_of_cons in Hin as [->|Hin]; [by eexists|]. by eapply IH.
Qed.

(** A stage whose [fn] panics on no item terminates and closes its output;
    one whose [fn] panics on some item never closes it. *)
Lemma partial_total_terminates nums fn :
  (∀ n, n ∈ nums → is_Some (fn n)) →
  inevitably
    (λ σ, final σ = true ∧ chans σ = [Chan [] 0 true; Chan [] 0 true] ∧
          fn <$> nums = Some <$> received_from 1 (log σ))
    (boot (partial_main nums fn)).
Proof.
  intros Hall. eapply inevitably_mono; [|apply partial_terminates].
  intros σ [(_ & Hf & Hc & Hr)|(_ & _ & _ & dp & n & rest & -> & Hn & _)];
    [done|].
  destruct (Hall n) as [v Hv]; [|congruence].
  apply elem_of_app. right. apply elem_of_cons. by left.
Qed.

Lemma partial_fault_crashes nums fn n :
  n ∈ nums → fn n = None →
  inevitably
    (λ σ, crashed σ = true ∧ chans σ !! 1 = Some (Chan [] 0 false) ∧
          pool σ !! 0 = Some (Range 1) ∧
          ∃ dp n' rest, nums = dp ++ n' :: rest ∧ fn n' = None ∧
                        fn <$> dp = Some <$> received_from 1 (log σ))
    (boot (partial_main nums fn)).
Proof.
  intros Hin Hn. eapply inevitably_mono; [|apply partial_terminates].
  intros σ [(_ & _ & _ & Hr)|H]; [|done].
  destruct (fmap_Some_all _ _ _ _ Hr Hin) as [v Hv]. congruence.
Qed.

(** * The specification, claim by claim *)

(** C1: in a program that merges any number of generators through [fanIn]
    (channel [length inputs] is the merged output, goroutine
    [S (length inputs + i)] the forwarder of input [i], goroutine
    [S (length inputs + length inputs)] the closer), no reachable
    configuration has panicked, so no forwarder ever sends on the closed
    output; the output has been closed at most once, and only by the closer;
    and whenever it is closed the WaitGroup counter is zero and every
    forwarder has seen its input closed, forwarded all of it and returned.
    Every execution does reach the configuration where the closer has
    closed it, exactly once. *)
Theorem fanIn_closes_once_after_forwarders (inputs : list (list Z)) :
  (∀ σ, rtc step (boot (merge_main inputs)) σ →
     crashed σ = false ∧
     ∃ bo, chans σ !! length inputs = Some (Chan [] 0 bo) ∧
       if bo
       then closers (length inputs) (log σ) =
              [S (length inputs + length inputs)] ∧
            wgs σ = [0] ∧
            ∀ i nums, inputs !! i = Some nums →
              pool σ !! S (length inputs + i) = Some Exited ∧
              chans σ !! i = Some (Chan [] 0 true) ∧
              sent_by (S (length inputs + i)) (length inputs) (log σ) = nums ∧
              EvRecvClosed (S (length inputs + i)) i ∈ log σ
       else closers (length inputs) (log σ) = []) ∧
  inevitably
    (λ σ, final σ = true ∧
          chans σ !! length inputs = Some (Chan [] 0 true) ∧
          closers (length inputs) (log σ) =
            [S (length inputs + length inputs)])
    (boot (merge_main inputs)).
Proof.
  split.
  - intros σ Hr.
    pose proof (invariant_reachable (merge_inv inputs) (merge_step inputs)
                  _ _ (merge_boot_inv inputs) Hr) as Hinv.
    destruct (merge_safety _ _ Hinv) as (Hc & Hout & _). done.
  - eapply inevitably_mono; [|apply merge_terminates, merge_boot_inv].
    intros σ [Hf Hinv].
    destruct (merge_final _ _ Hinv Hf) as (_ & _ & ? & ?). done.
Qed.

Lemma fanIn_closes_once_after_forwarders_witness :
  ∃ σ, run [Sync 1 3; Sync 3 0; Sync 1 3; Sync 3 0; Solo 1; Solo 3; Solo 3;
            Sync 2 4; Sync 4 0; Solo 2; Solo 4; Solo 4; Solo 5; Solo 5]
         (boot (merge_main [[1; 2]; [3]]%Z)) = Some σ ∧
       crashed σ = false ∧
       ∃ bo, chans σ !! 2 = Some (Chan [] 0 bo) ∧
         if bo
         then closers 2 (log σ) = [5] ∧ wgs σ = [0] ∧
              ∀ i nums, [[1; 2]; [3]]%Z !! i = Some nums →
                pool σ !! S (2 + i) = Some Exited ∧
                chans σ !! i = Some (Chan [] 0 true) ∧
                sent_by (S (2 + i)) 2 (log σ) = nums ∧
                EvRecvClosed (S (2 + i)) i ∈ log σ
         else closers 2 (log σ) = [].
Proof.
  eexists. split; [vm_compute; reflexivity|].
  apply (proj1 (fanIn_closes_once_after_forwarders [[1; 2]; [3]]%Z)).
  apply (run_rtc [Sync 1 3; Sync 3 0; Sync 1 3; Sync 3 0; Solo 1; Solo 3;
                  Solo 3; Sync 2 4; Sync 4 0; Solo 2; Solo 4; Solo 4; Solo 5;
                  Solo 5]).
  vm_compute. reflexivity.
Defined.

(** C2, as the code has it: every pipeline of the repository terminates on
    every finite input, under every schedule: the two linear pipelines of
    pipeline/main.go (and any other chain of stages after [generate]), the
    fan-out/fan-in main with any positive number of workers, and the
    worker pool with any number of jobs and workers.  Every execution
    reaches a configuration where no goroutine is left blocked (all have
    returned), nothing has panicked and the terminal channel is closed and
    drained; and no execution is longer than the termination measure of
    the initial configuration.  The counters of the distributor and of the
    pool are Go [int]s, hence the size bounds.  None of these executions
    contains an abort: the stage functions of the source cannot fail and no
    stage has an early return.  The guarantee stops there.  The only way a
    stage can stop early is a panic, and a panic ends the program at once
    (no goroutine takes another step).  So for [transform] with a function
    [fn] that can panic: if [fn] panics on no item of the input the
    pipeline terminates and closes its output as above; if [fn] panics on
    some item, every execution ends with that panic, the output of the
    stage still open, main still in its [range] loop, and nothing can
    happen any more. *)
Theorem every_pipeline_terminates (nums : list Z) (sts : list stage)
    (numWorkers numJobs poolWorkers : nat) (fn : Z → option Z) :
  (terminates_closing 3 (boot (pipeline_main nums)) ∧
   steps_bounded
     (chain_measure nums [StSquare; StAddTen; StDouble]
        (boot (pipeline_main nums)))
     (boot (pipeline_main nums))) ∧
  (terminates_closing 3 (boot (generic_main nums)) ∧
   ∃ b, steps_bounded b (boot (generic_main nums))) ∧
  (terminates_closing (length sts) (boot (chain_main nums sts)) ∧
   steps_bounded (chain_measure nums sts (boot (chain_main nums sts)))
     (boot (chain_main nums sts))) ∧
  (0 < numWorkers → (Z.of_nat (length nums) < 2 ^ 63)%Z →
   terminates_closing (S (numWorkers + numWorkers))
     (boot (fan_main nums numWorkers)) ∧
   steps_bounded (fan_measure nums numWorkers (boot (fan_main nums numWorkers)))
     (boot (fan_main nums numWorkers))) ∧
  ((Z.of_nat numJobs < 2 ^ 63 - 1)%Z →
   terminates_closing 1 (boot (pool_main numJobs poolWorkers)) ∧
   steps_bounded (pool_measure numJobs (boot (pool_main numJobs poolWorkers)))
     (boot (pool_main numJobs poolWorkers))) ∧
  (∀ σ ch, crashed σ = true → exec ch σ = None) ∧
  ((∀ n, n ∈ nums → is_Some (fn n)) →
   terminates_closing 1 (boot (partial_main nums fn)) ∧
   inevitably
     (λ σ, final σ = true ∧
           fn <$> nums = Some <$> received_from 1 (log σ))
     (boot (partial_main nums fn))) ∧
  (∀ n, n ∈ nums → fn n = None →
   inevitably
     (λ σ, crashed σ = true ∧ final σ = false ∧
           chans σ !! 1 = Some (Chan [] 0 false) ∧
           pool σ !! 0 = Some (Range 1) ∧
           (∀ ch, exec ch σ = None) ∧
           ∃ dp n' rest, nums = dp ++ n' :: rest ∧ fn n' = None ∧
                         fn <$> dp = Some <$> received_from 1 (log σ))
     (boot (partial_main nums fn))).
Proof.
  split_and!.
  - apply (chain_terminates_closing nums [StSquare; StAddTen; StDouble]).
  - apply (chain_steps_bounded nums [StSquare; StAddTen; StDouble]).
  - apply (chain_terminates_closing nums
             [StTransform (λ n, int_mul n 3); StTransform (λ n, int_sub n 5);
              StTransform (λ n, int_mul n n)]).
  - eexists.
    apply (chain_steps_bounded nums
             [StTransform (λ n, int_mul n 3); StTransform (λ n, int_sub n 5);
              StTransform (λ n, int_mul n n)]).
  - apply chain_terminates_closing.
  - apply chain_steps_bounded.
  - intros Hpos Hint. split;
      [by apply fan_terminates_closing|by apply fan_steps_bounded].
  - intros Hint. split;
      [by apply pool_terminates_closing|by apply pool_steps_bounded].
  - intros σ ch Hc. by apply crashed_stuck.
  - intros Hall. split.
    + eapply inevitably_mono; [|by apply partial_total_terminates].
      intros σ (Hf & Hc & _). split; [done|]. rewrite Hc. simpl. eauto.
    + eapply inevitably_mono; [|by apply partial_total_terminates].
      intros σ (Hf & _ & Hr). done.
  - intros n Hin Hn.
    eapply inevitably_mono; [|by apply (partial_fault_crashes nums fn n)].
    intros σ (Hc & Hch & Hm & Hd). split_and!; try done.
    + unfold final. by rewrite Hc.
    + intros ch. by apply crashed_stuck.
Qed.

Lemma every_pipeline_terminates_witness :
  terminates_closing 3 (boot (pipeline_main [1; 2; 3; 4; 5]%Z)) ∧
  terminates_closing 3 (boot (generic_main [1; 2; 3]%Z)) ∧
  terminates_closing 7
    (boot (fan_main [1; 2; 3; 4; 5; 6; 7; 8; 9; 10]%Z 3)) ∧
  terminates_closing 1 (boot (pool_main 5 3)) ∧
  terminates_closing 1
    (boot (partial_main [1; 2; 3]%Z
             (λ n, if (n =? 0)%Z then None else Some (Z.quot 10 n)))).
Proof.
  pose proof (every_pipeline_terminates [1; 2; 3; 4; 5]%Z [] 3 5 3
                (λ _, None)) as ((H1 & _) & _).
  pose proof (every_pipeline_terminates [1; 2; 3]%Z [] 3 5 3
                (λ n, if (n =? 0)%Z then None else Some (Z.quot 10 n)))
    as (_ & (H2 & _) & _ & _ & _ & _ & H5 & _).
  pose proof (every_pipeline_terminates [1; 2; 3; 4; 5; 6; 7; 8; 9; 10]%Z
                [] 3 5 3 (λ _, None)) as (_ & _ & _ & H3 & H4 & _).
  split_and!; [exact H1|exact H2| | |].
  - apply H3; [lia|]. vm_compute. reflexivity.
  - apply H4. vm_compute. reflexivity.
  - apply H5. intros n Hn.
    repeat (apply elem_of_cons in Hn as [->|Hn]; [by eexists|]).
    by apply elem_of_nil in Hn.
Defined.

(** C2, as the specification has it, fails on the code: a stage that aborts
    closes nothing.  [transform] applied to [func(n int) int { return 10 / n }]
    on the input 5, 0, 7 delivers 2, takes the item 0 and panics (integer
    division by zero): the program is dead with both channels open, the
    generator still holding 7 and main still in its [range] loop; and this
    is how every execution of that pipeline ends. *)
Lemma aborting_stage_closes_nothing :
  run [Sync 1 2; Sync 2 0; Sync 1 2; Solo 2]
    (boot (partial_main [5; 0; 7]%Z
             (λ n, if (n =? 0)%Z then None else Some (Z.quot 10 n)))) =
  Some (Config [Chan [] 0 false; Chan [] 0 false] []
          [Range 1; Generate 0 [7]%Z;
           PartialSend 0 1
             (λ n, if (n =? 0)%Z then None else Some (Z.quot 10 n)) 0]
          [EvSend 1 0 5; EvRecv 2 0 5; EvSend 2 1 2; EvRecv 0 1 2;
           EvSend 1 0 0; EvRecv 2 0 0; EvPanic 2] true) ∧
  inevitably
    (λ σ, crashed σ = true ∧ final σ = false ∧
          chans σ !! 1 = Some (Chan [] 0 false) ∧
          pool σ !! 0 = Some (Range 1) ∧
          received_from 1 (log σ) = [2]%Z)
    (boot (partial_main [5; 0; 7]%Z
             (λ n, if (n =? 0)%Z then None else Some (Z.quot 10 n)))).
Proof.
  split; [vm_compute; reflexivity|].
  eapply inevitably_mono; [|apply partial_terminates].
  intros σ [(_ & _ & _ & Hr)|(Hc & Hch & Hm & dp & n & rest & E & Hn & Hr)].
  - destruct (received_from 1 (log σ)) as [|?[|?[|?[|? ?]]]];
      simplify_eq/=.
  - destruct dp as [|? [|? [|? [|? ?]]]]; simplify_eq/=.
    destruct (received_from 1 (log σ)) as [|?[|? ?]] eqn:Er; simplify_eq/=.
    split_and!; try done.
    unfold final. by rewrite Hc.
Qed.

(** C3: merging [inputs] through [fanIn]: every execution ends with the
    merged output closed and, sent on it and received from it, an
    interleaving of the input sequences - a permutation of their
    concatenation in which each input keeps its order, forwarder [i] having
    forwarded exactly input [i].  At every moment the items sent so far are
    an interleaving of prefixes of the inputs, and the output is closed only
    if every input channel is closed (and then the closing, which every
    execution reaches, has happened after all of them). *)
Theorem fanIn_merges_all_inputs (inputs : list (list Z)) :
  inevitably
    (λ σ, final σ = true ∧
          interleave inputs (sent_on (length inputs) (log σ)) ∧
          concat inputs ≡ₚ sent_on (length inputs) (log σ) ∧
          (∀ i nums, inputs !! i = Some nums →
             nums `sublist_of` sent_on (length inputs) (log σ)) ∧
          received_from (length inputs) (log σ) =
            sent_on (length inputs) (log σ) ∧
          chans σ !! length inputs = Some (Chan [] 0 true))
    (boot (merge_main inputs)) ∧
  (∀ σ, rtc step (boot (merge_main inputs)) σ →
     interleave
       ((λ i, sent_by (S (length inputs + i)) (length inputs) (log σ))
          <$> seq 0 (length inputs))
       (sent_on (length inputs) (log σ)) ∧
     (∀ i nums, inputs !! i = Some nums →
        sent_by (S (length inputs + i)) (length inputs) (log σ)
          `prefix_of` nums) ∧
     (chans σ !! length inputs = Some (Chan [] 0 true) →
      ∀ i nums, inputs !! i = Some nums →
        chans σ !! i = Some (Chan [] 0 true) ∧
        sent_by (S (length inputs + i)) (length inputs) (log σ) = nums)).
Proof.
  split.
  - eapply inevitably_mono; [|apply merge_terminates, merge_boot_inv].
    intros σ [Hf Hinv].
    destruct (merge_final _ _ Hinv Hf) as (Hi & Hr & Hc & _).
    split_and!; try done.
    + by apply interleave_perm.
    + intros i nums Hn. by eapply interleave_sublist.
  - intros σ Hr.
    pose proof (invariant_reachable (merge_inv inputs) (merge_step inputs)
                  _ _ (merge_boot_inv inputs) Hr) as Hinv.
    destruct (merge_safety _ _ Hinv) as (_ & (bo & Hbo & Hcl) & Hil & Hpre).
    split_and!; try done.
    intros Hc i nums Hi. rewrite Hbo in Hc. inversion Hc; subst.
    destruct Hcl as (_ & _ & Hl). destruct (Hl i nums Hi) as (_ & ? & ? & _).
    done.
Qed.

(** C4: the distributor of the fan-out main, for any input and any positive
    number [N] of workers (channel [S (j + j)] is [inputChannels[j]],
    goroutine [S (S N)] the distributor).  [lane_items N j nums] are the
    items of [nums] at the positions that are [j] modulo [N]: item [p] is
    the [p / N]-th item of lane [p mod N], the lanes together are a
    permutation of the input and each is a subsequence of it.  Every
    execution ends with exactly [lane_items N j nums] sent and received on
    lane [j], in that order, and lane [j] closed once by the distributor.
    At every moment the lanes hold the round-robin distribution of a prefix
    of the input, and a lane is closed only once the input channel is closed
    and wholly distributed. *)
Theorem distributor_round_robin (nums : list Z) (N : nat) :
  0 < N → (Z.of_nat (length nums) < 2 ^ 63)%Z →
  (∀ p x, nums !! p = Some x →
     lane_items N (p `mod` N) nums !! (p / N) = Some x) ∧
  concat ((λ j, lane_items N j nums) <$> seq 0 N) ≡ₚ nums ∧
  (∀ j, lane_items N j nums `sublist_of` nums) ∧
  inevitably
    (λ σ, final σ = true ∧
          ∀ j, j < N →
            sent_on (S (j + j)) (log σ) = lane_items N j nums ∧
            received_from (S (j + j)) (log σ) = lane_items N j nums ∧
            chans σ !! S (j + j) = Some (Chan [] 0 true) ∧
            closers (S (j + j)) (log σ) = [S (S N)])
    (boot (fan_main nums N)) ∧
  (∀ σ, rtc step (boot (fan_main nums N)) σ →
     crashed σ = false ∧
     (∃ dp, dp `prefix_of` nums ∧
            ∀ j, j < N → sent_on (S (j + j)) (log σ) = lane_items N j dp) ∧
     (∀ j, j < N →
        ∃ b, chans σ !! S (j + j) = Some (Chan [] 0 b) ∧
             if b
             then closers (S (j + j)) (log σ) = [S (S N)] ∧
                  chans σ !! 0 = Some (Chan [] 0 true) ∧
                  sent_on 0 (log σ) = nums ∧
                  sent_on (S (j + j)) (log σ) = lane_items N j nums
             else closers (S (j + j)) (log σ) = [])).
Proof.
  intros Hpos Hint. split_and!.
  - intros p x Hp. by apply lane_items_lookup.
  - by apply lane_items_perm.
  - intros j. apply lane_items_sublist.
  - eapply inevitably_mono; [|by apply fan_terminates, fan_boot_inv].
    intros σ [Hf Hinv]. split; [done|]. intros j Hj.
    destruct (fan_final _ _ _ Hinv Hf) as (_ & Hl & _).
    destruct (Hl j Hj) as (? & ? & ? & ? & _). done.
  - intros σ Hr. apply fan_safety.
    by apply (invariant_reachable (fan_inv nums N) (fan_step nums N)
                _ _ (fan_boot_inv nums N Hpos Hint)).
Qed.

Lemma distributor_round_robin_witness :
  lane_items 3 0 [1; 2; 3; 4; 5; 6; 7; 8; 9; 10]%Z = [1; 4; 7; 10]%Z ∧
  lane_items 3 1 [1; 2; 3; 4; 5; 6; 7; 8; 9; 10]%Z = [2; 5; 8]%Z ∧
  lane_items 3 2 [1; 2; 3; 4; 5; 6; 7; 8; 9; 10]%Z = [3; 6; 9]%Z ∧
  inevitably
    (λ σ, final σ = true ∧
          ∀ j, j < 3 →
            sent_on (S (j + j)) (log σ) =
              lane_items 3 j [1; 2; 3; 4; 5; 6; 7; 8; 9; 10]%Z ∧
            received_from (S (j + j)) (log σ) =
              lane_items 3 j [1; 2; 3; 4; 5; 6; 7; 8; 9; 10]%Z ∧
            chans σ !! S (j + j) = Some (Chan [] 0 true) ∧
            closers (S (j + j)) (log σ) = [5])
    (boot (fan_main [1; 2; 3; 4; 5; 6; 7; 8; 9; 10]%Z 3)).
Proof.
  split_and!; [reflexivity..|].
  assert (0 < 3) as Hpos by lia.
  assert (Z.of_nat (length [1; 2; 3; 4; 5; 6; 7; 8; 9; 10]%Z) < 2 ^ 63)%Z
    as Hint by (vm_compute; reflexivity).
  exact (proj1 (proj2 (proj2 (proj2
    (distributor_round_robin [1; 2; 3; 4; 5; 6; 7; 8; 9; 10]%Z 3 Hpos Hint))))).
Defined.

(** C5: [generate] followed by one stage ([square], [addTen], [double] or
    [transform] with any function), consumed by main.  Every execution ends
    with the stage's output channel closed after exactly
    [fn <$> nums] has been sent on it and received from it, in input order;
    at every moment the stage has received a prefix of [nums] and sent a
    prefix of the images of what it has received.  For the first pipeline of
    pipeline/main.go the three stages compose accordingly. *)
Theorem source_stage_maps_in_order (nums : list Z) (st : stage) :
  inevitably
    (λ σ, final σ = true ∧
          sent_on 1 (log σ) = stage_fn st <$> nums ∧
          received_from 1 (log σ) = stage_fn st <$> nums ∧
          chans σ !! 1 = Some (Chan [] 0 true))
    (boot (chain_main nums [st])) ∧
  (∀ σ, rtc step (boot (chain_main nums [st])) σ →
     crashed σ = false ∧
     received_from 0 (log σ) `prefix_of` nums ∧
     sent_on 1 (log σ) `prefix_of` (stage_fn st <$> received_from 0 (log σ))) ∧
  inevitably
    (λ σ, final σ = true ∧
          received_from 3 (log σ) =
            (λ n, int_mul (int_add (int_mul n n) 10) 2) <$> nums)
    (boot (pipeline_main nums)).
Proof.
  split_and!.
  - eapply inevitably_mono; [|apply chain_terminates, chain_boot_inv].
    intros σ [Hf Hinv].
    destruct (chain_final _ _ _ Hinv Hf) as (Hs & Hall & _).
    destruct (Hall 1) as (Hc & _ & Hr); [simpl; lia|].
    rewrite Hr. done.
  - intros σ Hr.
    pose proof (invariant_reachable (chain_inv nums [st])
                  (chain_step nums [st]) _ _ (chain_boot_inv nums [st]) Hr)
      as Hinv.
    destruct (chain_safety _ _ _ Hinv) as (Hc & Hp & _ & Hrecv & Hst).
    rewrite Hrecv. split_and!; try done. by apply (Hst 0 st).
  - eapply inevitably_mono;
      [|apply (chain_terminates nums [StSquare; StAddTen; StDouble]),
          chain_boot_inv].
    intros σ [Hf Hinv].
    destruct (chain_final _ _ _ Hinv Hf) as (Hs & Hall & _).
    destruct (Hall 3) as (Hc & _ & Hr); [simpl; lia|].
    rewrite Hr. done.
Qed.

(** C6: the worker pool, for any number of jobs and workers (channel 0 is
    [jobs], channel 1 [results]; goroutine 0 is main, the producer and
    coordinator; goroutine [S i] is worker [i]).  No reachable
    configuration has panicked.  [jobs] has been closed at most once, by
    main and never by a worker, and when it is closed main has sent all its
    jobs [1 .. numJobs]; [results] has been closed at most once, by main,
    and when it is closed the WaitGroup counter is zero and every worker has
    returned.  Every execution ends with both closed exactly once. *)
Theorem pool_channels_closed_by_owner (numJobs numWorkers : nat) :
  (Z.of_nat numJobs < 2 ^ 63 - 1)%Z →
  (∀ σ, rtc step (boot (pool_main numJobs numWorkers)) σ →
     crashed σ = false ∧
     sent_on 0 (log σ) `prefix_of` jobs_before (S numJobs) ∧
     ∃ jb cj rb cr,
       chans σ = [Chan jb numJobs cj; Chan rb numJobs cr] ∧
       (if cj
        then closers 0 (log σ) = [0] ∧
             sent_on 0 (log σ) = jobs_before (S numJobs)
        else closers 0 (log σ) = []) ∧
       (if cr
        then closers 1 (log σ) = [0] ∧ wgs σ = [0] ∧
             ∀ i, i < numWorkers → pool σ !! S i = Some Exited
        else closers 1 (log σ) = [])) ∧
  inevitably
    (λ σ, final σ = true ∧
          closers 0 (log σ) = [0] ∧ closers 1 (log σ) = [0] ∧
          sent_on 0 (log σ) = jobs_before (S numJobs))
    (boot (pool_main numJobs numWorkers)).
Proof.
  intros Hint. split.
  - intros σ Hr. apply pool_safety.
    by apply (invariant_reachable (pool_inv numJobs numWorkers)
                (pool_step numJobs numWorkers) _ _
                (pool_boot_inv numJobs numWorkers Hint)).
  - eapply inevitably_mono; [|by apply pool_terminates, pool_boot_inv].
    intros σ [Hf Hinv].
    destruct (pool_final _ _ _ Hinv Hf) as (? & ? & ? & _). done.
Qed.

Lemma pool_channels_closed_by_owner_witness :
  jobs_before 6 = [1; 2; 3; 4; 5]%Z ∧
  inevitably
    (λ σ, final σ = true ∧
          closers 0 (log σ) = [0] ∧ closers 1 (log σ) = [0] ∧
          sent_on 0 (log σ) = jobs_before 6)
    (boot (pool_main 5 3)).
Proof.
  split; [reflexivity|].
  assert (Z.of_nat 5 < 2 ^ 63 - 1)%Z as Hint by (vm_compute; reflexivity).
  exact (proj2 (pool_channels_closed_by_owner 5 3 Hint)).
Defined.

(** C7: [generate] (and the identical [generator]) allocates a fresh
    unbuffered channel, starts one goroutine on it and returns at once.
    Consumed by main's [range] loop, every execution ends with exactly
    [nums] sent on the channel and received from it, in order, and the
    channel closed once, by that goroutine; at every moment what has been
    sent is a prefix of [nums], and the channel is closed only when all of
    [nums] has been sent.  For the empty sequence the one step the program
    can take first is that close. *)
Theorem source_emits_then_closes (nums : list Z) :
  (∀ σ, generate nums σ =
        (length (chans σ),
         Config (chans σ ++ [Chan [] 0 false]) (wgs σ)
           (pool σ ++ [Generate (length (chans σ)) nums]) (log σ)
           (crashed σ))) ∧
  (∀ σ, generator nums σ = generate nums σ) ∧
  inevitably
    (λ σ, final σ = true ∧
          sent_on 0 (log σ) = nums ∧ received_from 0 (log σ) = nums ∧
          chans σ !! 0 = Some (Chan [] 0 true) ∧ closers 0 (log σ) = [1])
    (boot (chain_main nums [])) ∧
  (∀ σ, rtc step (boot (chain_main nums [])) σ →
     crashed σ = false ∧
     sent_on 0 (log σ) `prefix_of` nums ∧
     (closers 0 (log σ) = [] ∨
      closers 0 (log σ) = [1] ∧ sent_on 0 (log σ) = nums)) ∧
  (∀ σ', step (boot (chain_main [] [])) σ' →
     σ' = Config [Chan [] 0 true] [] [Range 0; Exited] [EvClose 1 0] false).
Proof.
  split_and!.
  - done.
  - done.
  - eapply inevitably_mono; [|apply chain_terminates, chain_boot_inv].
    intros σ [Hf Hinv].
    destruct (chain_final _ _ _ Hinv Hf) as (Hs & Hall & _).
    destruct (Hall 0) as (Hc & Hcl & Hr); [simpl; lia|].
    simpl in Hs. rewrite Hr, Hs.
    rewrite (list_fmap_ext _ id nums) by done. by rewrite list_fmap_id.
  - intros σ Hr.
    pose proof (invariant_reachable (chain_inv nums [])
                  (chain_step nums []) _ _ (chain_boot_inv nums []) Hr)
      as Hinv.
    destruct (chain_safety _ _ _ Hinv) as (Hc & Hp & Hcl & _). done.
  - apply empty_source_first_step.
Qed.

(** C8, as the code has it: a width of zero is not rejected.  The worker
    pool started with no worker is not in a failed state, takes steps, and
    in every execution runs to a normal end: [jobs] and [results] closed,
    no result ever produced, every job still in the [jobs] buffer.  The
    fan-out main with no worker starts likewise, with its generator, its
    distributor and the closer of [fanIn] launched.  In no execution is a
    result sent or received.  Every execution ends, in one of two ways:
    main returns, once the closer has closed the output that no forwarder
    feeds; or the distributor, having taken the first item, panics on
    [i%numWorkers], which kills the whole program.  The schedule decides:
    with an item in the input both ends are reached by some execution and
    neither by all of them; with no item there is never a panic.  And main
    may return before the other goroutines have finished, so that not
    every execution ends with all of them returned, though on the empty
    input some do. *)
Theorem width_zero_is_not_rejected (numJobs : nat) (nums : list Z) (n : Z) :
  (Z.of_nat numJobs < 2 ^ 63 - 1)%Z →
  (crashed (boot (pool_main numJobs 0)) = false ∧
   (∃ σ', step (boot (pool_main numJobs 0)) σ') ∧
   inevitably
     (λ σ, final σ = true ∧ sent_on 1 (log σ) = [] ∧
           received_from 0 (log σ) = [] ∧
           chans σ = [Chan (jobs_before (S numJobs)) numJobs true;
                      Chan [] numJobs true])
     (boot (pool_main numJobs 0))) ∧
  (boot (fan_main nums 0) =
     Config [Chan [] 0 false; Chan [] 0 false] [0]
       [Range 1; Generate 0 nums; DistRecv 0 [] 0 0; WaitClose 0 1] []
       false ∧
   (∃ σ', step (boot (fan_main nums 0)) σ') ∧
   (∀ σ, rtc step (boot (fan_main nums 0)) σ →
      sent_on 1 (log σ) = [] ∧ received_from 1 (log σ) = [] ∧
      (crashed σ = true →
       ∃ n' rest, nums = n' :: rest ∧
                  pool σ !! 2 = Some (DistSend 0 [] 0 0 n'))) ∧
   inevitably
     (λ σ, halted σ = true ∧
           ((crashed σ = true ∧
             ∃ n' rest, nums = n' :: rest ∧
                        pool σ !! 2 = Some (DistSend 0 [] 0 0 n')) ∨
            (crashed σ = false ∧ pool σ !! 0 = Some Exited ∧
             chans σ !! 1 = Some (Chan [] 0 true) ∧
             closers 1 (log σ) = [3])))
     (boot (fan_main nums 0)) ∧
   run [Sync 1 2; Solo 2] (boot (fan_main (n :: nums) 0)) =
     Some (Config [Chan [] 0 false; Chan [] 0 false] [0]
             [Range 1; Generate 0 nums; DistSend 0 [] 0 0 n; WaitClose 0 1]
             [EvSend 1 0 n; EvRecv 2 0 n; EvPanic 2] true) ∧
   run [Solo 3; Solo 3; Solo 0] (boot (fan_main nums 0)) =
     Some (Config [Chan [] 0 false; Chan [] 0 true] [0]
             [Exited; Generate 0 nums; DistRecv 0 [] 0 0; Exited]
             [EvWait 3 0; EvClose 3 1; EvRecvClosed 0 1] false) ∧
   ¬ inevitably (λ σ, crashed σ = true) (boot (fan_main (n :: nums) 0)) ∧
   ¬ inevitably (λ σ, crashed σ = false ∧ main_returned σ = true)
       (boot (fan_main (n :: nums) 0)) ∧
   ¬ inevitably (λ σ, final σ = true) (boot (fan_main nums 0)) ∧
   ∃ σ, run [Solo 1; Solo 2; Solo 3; Solo 3; Solo 0] (boot (fan_main [] 0)) =
          Some σ ∧ final σ = true).
Proof.
  intros Hint. split.
  - pose proof (pool_boot_inv numJobs 0 Hint) as Hinv. split_and!.
    + by rewrite pool_boot.
    + destruct (pool_progress _ _ _ Hinv) as [Hf|Hs]; [|done].
      rewrite pool_boot in Hf. unfold final, returned in Hf. simpl in Hf.
      by destruct (1 <=? Z.of_nat numJobs)%Z.
    + eapply inevitably_mono; [|by apply pool_terminates].
      intros σ [Hf Hinv'].
      destruct (pool_final _ _ _ Hinv' Hf)
        as (_ & _ & Hs & _ & Hlen & jb & Hc & Hj & _ & Hidle).
      rewrite Hidle in * by done. simpl in *.
      split_and!; try done.
      * by destruct (sent_on 1 (log σ)).
      * rewrite Hc. by rewrite <- Hs, Hj.
  - split_and!.
    + reflexivity.
    + eexists. exists (Solo 3). reflexivity.
    + intros σ Hr. by apply fan0_safety, fan0_reachable.
    + eapply inevitably_mono; [|apply fan0_terminates].
      intros σ He. split; [by eapply fan0_ended_halted|exact He].
    + reflexivity.
    + reflexivity.
    + intros Hi.
      assert (run [Solo 3; Solo 3; Solo 0] (boot (fan_main (n :: nums) 0)) =
              Some (Config [Chan [] 0 false; Chan [] 0 true] [0]
                      [Exited; Generate 0 (n :: nums); DistRecv 0 [] 0 0;
                       Exited]
                      [EvWait 3 0; EvClose 3 1; EvRecvClosed 0 1] false))
        as Hrun by reflexivity.
      assert (∀ σ, crashed σ = true → halted σ = true) as HP
        by (by unfold halted; intros ? ->).
      apply (inevitably_run _ HP _ _ _ Hrun) in Hi.
      by apply inevitably_ended in Hi.
    + intros Hi.
      assert (run [Sync 1 2; Solo 2] (boot (fan_main (n :: nums) 0)) =
              Some (Config [Chan [] 0 false; Chan [] 0 false] [0]
                      [Range 1; Generate 0 nums; DistSend 0 [] 0 0 n;
                       WaitClose 0 1]
                      [EvSend 1 0 n; EvRecv 2 0 n; EvPanic 2] true))
        as Hrun by reflexivity.
      assert (∀ σ, crashed σ = false ∧ main_returned σ = true →
                   halted σ = true) as HP
        by (by unfold halted; intros ? [-> ->]).
      apply (inevitably_run _ HP _ _ _ Hrun) in Hi.
      apply inevitably_ended in Hi; [|done]. by destruct Hi.
    + intros Hi.
      assert (run [Solo 3; Solo 3; Solo 0] (boot (fan_main nums 0)) =
              Some (Config [Chan [] 0 false; Chan [] 0 true] [0]
                      [Exited; Generate 0 nums; DistRecv 0 [] 0 0; Exited]
                      [EvWait 3 0; EvClose 3 1; EvRecvClosed 0 1] false))
        as Hrun by reflexivity.
      assert (∀ σ, final σ = true → halted σ = true) as HP.
      { unfold halted. intros ? ->%final_main_returned.
        by rewrite orb_true_r. }
      apply (inevitably_run _ HP _ _ _ Hrun) in Hi.
      apply inevitably_ended in Hi; [|done].
      unfold final, returned in Hi. simpl in Hi. by destruct nums.
    + eexists. split; [vm_compute; reflexivity|reflexivity].
Qed.

Lemma width_zero_is_not_rejected_witness :
  (Z.of_nat 5 < 2 ^ 63 - 1)%Z ∧
  jobs_before 6 = [1; 2; 3; 4; 5]%Z ∧
  inevitably
    (λ σ, final σ = true ∧ sent_on 1 (log σ) = [] ∧
          received_from 0 (log σ) = [] ∧
          chans σ = [Chan (jobs_before 6) 5 true; Chan [] 5 true])
    (boot (pool_main 5 0)).
Proof.
  assert (Z.of_nat 5 < 2 ^ 63 - 1)%Z as Hint by (vm_compute; reflexivity).
  split_and!; [exact Hint|reflexivity|].
  exact (proj2 (proj2 (proj1
    (width_zero_is_not_rejected 5 [] 0%Z Hint)))).
Defined.

(** C8, as the specification has it, fails on the code: a worker pool of
    width zero is constructed without any error and runs to a normal
    end with all five jobs left in the buffer; a distributor of width zero
    is constructed without any error, is running when it receives its first
    item, and then brings the whole program down. *)
Lemma width_zero_runs :
  (crashed (boot (pool_main 5 0)) = false ∧
   run [Solo 0; Solo 0; Solo 0; Solo 0; Solo 0; Solo 0; Solo 0; Solo 0; Solo 0]
     (boot (pool_main 5 0)) =
   Some (Config [Chan [1; 2; 3; 4; 5]%Z 5 true; Chan [] 5 true] [0] [Exited]
           [EvSend 0 0 1; EvSend 0 0 2; EvSend 0 0 3; EvSend 0 0 4;
            EvSend 0 0 5; EvClose 0 0; EvWait 0 0; EvClose 0 1;
            EvRecvClosed 0 1] false)) ∧
  (crashed (boot (fan_main [7]%Z 0)) = false ∧
   run [Sync 1 2; Solo 2] (boot (fan_main [7]%Z 0)) =
   Some (Config [Chan [] 0 false; Chan [] 0 false] [0]
           [Range 1; Generate 0 []; DistSend 0 [] 0 0 7; WaitClose 0 1]
           [EvSend 1 0 7; EvRecv 2 0 7; EvPanic 2] true)).
Proof. split; split; vm_compute; reflexivity. Qed.

(** C9: [transform] is the generalisation of [square], [addTen] and
    [double]: replacing, anywhere in a configuration, the goroutines of
    these stages by goroutines of [transform] with the function the stage
    applies ([generalise_config]) changes nothing observable.  Under every
    schedule both configurations take the same steps or block alike, with
    the same events logged, the same channel contents and the same outcome;
    and the constructors correspond, so a pipeline built with [transform]
    is the generalisation of the pipeline built with the stage. *)
Theorem transform_generalises_stages (σ : config) (sch : list choice) :
  run sch (generalise_config σ) = generalise_config <$> run sch σ ∧
  log (generalise_config σ) = log σ ∧
  chans (generalise_config σ) = chans σ ∧
  final (generalise_config σ) = final σ ∧
  (∀ st inp,
     launch (StTransform (stage_fn st)) inp (generalise_config σ) =
     prod_map id generalise_config (launch st inp σ)) ∧
  (∀ nums st,
     boot (chain_main nums [StTransform (stage_fn st)]) =
     generalise_config (boot (chain_main nums [st]))) ∧
  (∀ nums,
     boot (chain_main nums
             [StTransform (λ n, int_mul n n); StTransform (λ n, int_add n 10);
              StTransform (λ n, int_mul n 2)]) =
     generalise_config (boot (pipeline_main nums))).
Proof.
  split_and!.
  - apply run_generalise.
  - done.
  - done.
  - apply final_generalise.
  - intros st inp. apply launch_generalise.
  - intros nums st. by destruct st.
  - done.
Qed.

(** C10: [fanIn] called with no channel still creates the output and starts
    the closer, with the WaitGroup counter at zero.  In a program that then
    ranges over the output, the one step possible first is the closer's
    [wg.Wait()] returning, the one step possible next is its [close(out)];
    every execution ends with the output closed, by the closer, and no item
    ever sent on it or received from it. *)
Theorem fanIn_no_inputs_closes_at_once :
  fanIn [] (Config [] [] [Exited] [] false) =
    (0, Config [Chan [] 0 false] [0] [Exited; WaitClose 0 0] [] false) ∧
  boot (merge_main []) =
    Config [Chan [] 0 false] [0] [Range 0; WaitClose 0 0] [] false ∧
  (∀ σ', step (boot (merge_main [])) σ' →
     σ' = Config [Chan [] 0 false] [0] [Range 0; CloseOut 0] [EvWait 1 0]
            false) ∧
  (∀ σ', step (Config [Chan [] 0 false] [0] [Range 0; CloseOut 0]
                 [EvWait 1 0] false) σ' →
     σ' = Config [Chan [] 0 true] [0] [Range 0; Exited]
            [EvWait 1 0; EvClose 1 0] false) ∧
  inevitably
    (λ σ, final σ = true ∧
          sent_on 0 (log σ) = [] ∧ received_from 0 (log σ) = [] ∧
          chans σ !! 0 = Some (Chan [] 0 true) ∧ closers 0 (log σ) = [1])
    (boot (merge_main [])).
Proof.
  split_and!.
  - reflexivity.
  - reflexivity.
  - apply empty_merge_first_step.
  - apply empty_merge_second_step.
  - eapply inevitably_mono; [|apply merge_terminates, (merge_boot_inv [])].
    intros σ [Hf Hinv].
    destruct (merge_final _ _ Hinv Hf) as (Hi & Hr & Hc & Hcl).
    simpl in *. rewrite Hr.
    assert (sent_on 0 (log σ) = []) as ->
      by (apply interleave_perm in Hi; by apply Permutation_nil_l in Hi).
    done.
Qed.

(** * The max heap *)

(** ** Index arithmetic *)

Lemma wrap64_id z : (- 2 ^ 63 ≤ z < 2 ^ 63)%Z → wrap64 z = z.
Proof. intros H. unfold wrap64. rewrite Z.mod_small; lia. Qed.

Lemma getParentIndex_nat (i : nat) :
  (Z.of_nat i < 2 ^ 63)%Z → getParentIndex (Z.of_nat i) = Z.of_nat ((i - 1) / 2).
Proof.
  intros H. unfold getParentIndex, int_sub. rewrite wrap64_id by lia.
  destruct i as [|i]; [done|].
  replace (Z.of_nat (S i) - 1)%Z with (Z.of_nat i) by lia.
  rewrite Z.quot_div_nonneg by lia.
  replace (S i - 1) with i by lia. by rewrite Nat2Z.inj_div.
Qed.

Lemma parent_lt (j : nat) : 1 ≤ j → (j - 1) / 2 < j.
Proof.
  intros H. pose proof (Nat.div_mod_eq (j - 1) 2).
  pose proof (Nat.mod_upper_bound (j - 1) 2). lia.
Qed.

Lemma elem_nat (array : list Z) (i : nat) :
  elem array (Z.of_nat i) = array !! i.
Proof.
  unfold elem. destruct (Z.ltb_spec (Z.of_nat i) 0); [lia|].
  by rewrite Nat2Z.id.
Qed.

Lemma elem_Some (array : list Z) (i : Z) x :
  elem array i = Some x →
  ∃ n : nat, i = Z.of_nat n ∧ array !! n = Some x ∧ n < length array.
Proof.
  unfold elem. destruct (Z.ltb_spec i 0); [done|]. intros Hx.
  exists (Z.to_nat i). split; [lia|]. split; [done|].
  by eapply lookup_lt_Some.
Qed.

Lemma elem_None (array : list Z) (i : Z) :
  (i < 0 ∨ Z.of_nat (length array) ≤ i)%Z → elem array i = None.
Proof.
  intros H. unfold elem. destruct (Z.ltb_spec i 0); [done|].
  apply lookup_ge_None. lia.
Qed.

(** ** [swap] *)

Lemma insert_out_perm (t : list Z) (k : nat) y h :
  t !! k = Some y → y :: <[k := h]> t ≡ₚ h :: t.
Proof.
  revert k. induction t as [|z t IH]; intros [|k] Hk; simplify_eq/=.
  - apply Permutation_swap.
  - rewrite Permutation_swap. rewrite (IH k Hk). apply Permutation_swap.
Qed.

Lemma swap_perm (a : list Z) : ∀ (i j : nat) x y,
  a !! i = Some x → a !! j = Some y → <[j := x]> (<[i := y]> a) ≡ₚ a.
Proof.
  induction a as [|h t IH]; intros [|i] [|j] x y Hi Hj; simplify_eq/=.
  - done.
  - by rewrite insert_out_perm.
  - by rewrite insert_out_perm.
  - by rewrite (IH i j x y).
Qed.

Lemma swap_nat (array : list Z) (i j : nat) x y :
  array !! i = Some x → array !! j = Some y →
  swap array (Z.of_nat i) (Z.of_nat j) =
  Some (<[j := x]> (<[i := y]> array)).
Proof.
  intros Hi Hj. unfold swap. rewrite !elem_nat, Hi, Hj. simpl.
  by rewrite !Nat2Z.id.
Qed.

(** ** [maxHeapifyUp] on indices in range *)

Lemma maxHeapifyUp_step fuel (array : list Z) (i : nat) x p :
  (Z.of_nat i < 2 ^ 63)%Z →
  array !! i = Some x → array !! ((i - 1) / 2) = Some p →
  maxHeapifyUp (S fuel) array (Z.of_nat i) =
  if (p <? x)%Z
  then maxHeapifyUp fuel (<[i := p]> (<[(i - 1) / 2 := x]> array))
         (Z.of_nat ((i - 1) / 2))
  else Returns array.
Proof.
  intros Hi Hx Hp. simpl. rewrite getParentIndex_nat by done.
  rewrite !elem_nat, Hx, Hp. destruct (p <? x)%Z; [|done].
  by rewrite (swap_nat _ _ _ p x).
Qed.

Lemma is_max_heap_nat (array : list Z) :
  (Z.of_nat (length array) < 2 ^ 63)%Z →
  is_max_heap array ↔ heap_nat array.
Proof.
  intros Hlen. split.
  - intros H j Hj. pose proof (parent_lt j (proj1 Hj)).
    destruct (lookup_lt_is_Some_2 array j) as [x Hx]; [lia|].
    destruct (lookup_lt_is_Some_2 array ((j - 1) / 2)) as [p Hp]; [lia|].
    rewrite (list_lookup_total_correct _ _ _ Hx).
    rewrite (list_lookup_total_correct _ _ _ Hp).
    apply (H (Z.of_nat j)); [lia|by rewrite elem_nat|].
    rewrite getParentIndex_nat by lia. by rewrite elem_nat.
  - intros H i x p Hi Hx Hp.
    apply elem_Some in Hx as (n & -> & Hx & Hn).
    rewrite getParentIndex_nat, elem_nat in Hp by lia.
    specialize (H n ltac:(lia)).
    rewrite (list_lookup_total_correct _ _ _ Hx) in H.
    by rewrite (list_lookup_total_correct _ _ _ Hp) in H.
Qed.

Lemma heap_upto_swap (a : list Z) (i : nat) :
  1 ≤ i < length a → heap_upto a i →
  Z.lt (a !!! ((i - 1) / 2)) (a !!! i) →
  heap_upto (<[i := a !!! ((i - 1) / 2)]> (<[(i - 1) / 2 := a !!! i]> a))
    ((i - 1) / 2).
Proof.
  intros Hi [H1 H2] Hlt. pose proof (parent_lt i (proj1 Hi)) as Hp.
  assert (∀ k, k < length a →
    <[i := a !!! ((i - 1) / 2)]> (<[(i - 1) / 2 := a !!! i]> a) !!! k =
    if decide (k = i) then a !!! ((i - 1) / 2)
    else if decide (k = (i - 1) / 2) then a !!! i else a !!! k) as Hget.
  { intros k Hk. case_decide; subst.
    - by rewrite list_lookup_total_insert_eq by (rewrite length_insert; lia).
    - rewrite list_lookup_total_insert_ne by done. case_decide; subst.
      + by rewrite list_lookup_total_insert_eq by lia.
      + by rewrite list_lookup_total_insert_ne. }
  split.
  - intros j Hj Hne. rewrite !length_insert in Hj.
    pose proof (parent_lt j (proj1 Hj)) as Hpj.
    rewrite !Hget by lia.
    destruct (decide (j = i)) as [->|Hji].
    + rewrite (decide_False (P := (i - 1) / 2 = i)) by lia.
      rewrite (decide_True (P := (i - 1) / 2 = (i - 1) / 2)) by done. lia.
    + rewrite (decide_False (P := j = (i - 1) / 2)) by done.
      pose proof (H1 j Hj Hji) as H1j.
      destruct (decide ((j - 1) / 2 = i)) as [Hc|Hc].
      * by apply H2; [|done|lia].
      * destruct (decide ((j - 1) / 2 = (i - 1) / 2)) as [Hs|Hs]; [|done].
        rewrite Hs in H1j. lia.
  - intros j Hj Hjp Hp1. rewrite !length_insert in Hj.
    pose proof (parent_lt ((i - 1) / 2) Hp1) as Hpp.
    pose proof (H1 ((i - 1) / 2) ltac:(lia) ltac:(lia)) as H1p.
    rewrite !Hget by lia.
    rewrite (decide_False (P := ((i - 1) / 2 - 1) / 2 = i)) by lia.
    rewrite (decide_False (P := ((i - 1) / 2 - 1) / 2 = (i - 1) / 2)) by lia.
    destruct (decide (j = i)) as [->|Hji]; [done|].
    rewrite (decide_False (P := j = (i - 1) / 2)).
    + pose proof (H1 j Hj Hji) as H1j. rewrite Hjp in H1j. lia.
    + pose proof (parent_lt j (proj1 Hj)). lia.
Qed.

Lemma maxHeapifyUp_sifts fuel : ∀ (a : list Z) (i : nat),
  (Z.of_nat (length a) < 2 ^ 63)%Z → i < length a → i < fuel →
  heap_upto a i →
  ∃ a', maxHeapifyUp fuel a (Z.of_nat i) = Returns a' ∧
        a' ≡ₚ a ∧ heap_nat a'.
Proof.
  induction fuel as [|fuel IH]; intros a i Hlen Hi Hf Hh; [lia|].
  destruct (lookup_lt_is_Some_2 a i) as [x Hx]; [done|].
  assert ((i - 1) / 2 ≤ i) as Hple.
  { destruct i; [done|]. pose proof (parent_lt (S i)). lia. }
  destruct (lookup_lt_is_Some_2 a ((i - 1) / 2)) as [p Hp]; [lia|].
  rewrite (maxHeapifyUp_step _ _ _ x p) by (done || lia).
  pose proof (list_lookup_total_correct _ _ _ Hx) as Ex.
  pose proof (list_lookup_total_correct _ _ _ Hp) as Ep.
  destruct (Z.ltb_spec p x) as [Hlt|Hge].
  - assert (1 ≤ i) as Hi1.
    { destruct i; [|lia]. simpl in *. simplify_eq. lia. }
    pose proof (parent_lt i Hi1) as Hpi.
    destruct (IH (<[i := p]> (<[(i - 1) / 2 := x]> a)) ((i - 1) / 2))
      as (a' & Hr & Hperm & Hheap).
    + by rewrite !length_insert.
    + rewrite !length_insert. lia.
    + lia.
    + rewrite <- Ex, <- Ep. apply heap_upto_swap; [lia|done|lia].
    + exists a'. split; [done|]. split; [|done].
      rewrite Hperm. by apply (swap_perm a ((i - 1) / 2) i p x).
  - exists a. split; [done|]. split; [done|].
    intros j Hj. destruct (decide (j = i)) as [->|Hne].
    + lia.
    + by apply Hh.
Qed.

Lemma heap_nat_root (a : list Z) :
  heap_nat a → ∀ j, j < length a → Z.le (a !!! j) (a !!! 0).
Proof.
  intros H j. induction (lt_wf j) as [j _ IH]. intros Hj.
  destruct j as [|j]; [done|].
  pose proof (parent_lt (S j)) as Hp.
  etrans; [apply H; lia|]. apply IH; lia.
Qed.

Lemma insert_sifts (array : list Z) (key : Z) :
  (Z.of_nat (length array) < 2 ^ 63 - 1)%Z → heap_nat array →
  ∃ array', insert array key = Returns array' ∧
            array' ≡ₚ key :: array ∧ heap_nat array'.
Proof.
  intros Hlen Hh. unfold insert. cbv zeta.
  rewrite length_app. simpl.
  replace (int_sub (Z.of_nat (length array + 1)) 1)
    with (Z.of_nat (length array))
    by (unfold int_sub; rewrite wrap64_id; lia).
  destruct (maxHeapifyUp_sifts (length array + 1) (array ++ [key])
              (length array)) as (a' & Hr & Hperm & Hheap).
  - rewrite length_app. simpl. lia.
  - rewrite length_app. simpl. lia.
  - lia.
  - split.
    + intros j Hj Hne. rewrite length_app in Hj. simpl in Hj.
      pose proof (parent_lt j (proj1 Hj)).
      rewrite !lookup_total_app_l by lia. apply Hh. lia.
    + intros j Hj Hpar _. rewrite length_app in Hj. simpl in Hj.
      pose proof (Nat.div_mod_eq (j - 1) 2).
      pose proof (Nat.mod_upper_bound (j - 1) 2). lia.
  - exists a'. split; [done|]. split; [|done].
    rewrite Hperm. by rewrite Permutation_app_comm.
Qed.

Lemma maxHeapifyUp_returns fuel : ∀ (a : list Z) (i : nat),
  (Z.of_nat (length a) < 2 ^ 63)%Z → i < length a → i < fuel →
  ∃ a', maxHeapifyUp fuel a (Z.of_nat i) = Returns a' ∧ a' ≡ₚ a.
Proof.
  induction fuel as [|fuel IH]; intros a i Hlen Hi Hf; [lia|].
  destruct (lookup_lt_is_Some_2 a i) as [x Hx]; [done|].
  assert ((i - 1) / 2 ≤ i) as Hple.
  { destruct i; [done|]. pose proof (parent_lt (S i)). lia. }
  destruct (lookup_lt_is_Some_2 a ((i - 1) / 2)) as [p Hp]; [lia|].
  rewrite (maxHeapifyUp_step _ _ _ x p) by (done || lia).
  destruct (Z.ltb_spec p x) as [Hlt|Hge]; [|by exists a].
  assert (1 ≤ i) as Hi1.
  { destruct i; [|lia]. simpl in *. simplify_eq. lia. }
  pose proof (parent_lt i Hi1) as Hpi.
  destruct (IH (<[i := p]> (<[(i - 1) / 2 := x]> a)) ((i - 1) / 2))
    as (a' & Hr & Hperm).
  - by rewrite !length_insert.
  - rewrite !length_insert. lia.
  - lia.
  - exists a'. split; [done|].
    rewrite Hperm. by apply (swap_perm a ((i - 1) / 2) i p x).
Qed.

Lemma insert_returns (array : list Z) (key : Z) :
  (Z.of_nat (length array) < 2 ^ 63 - 1)%Z →
  ∃ array', insert array key = Returns array' ∧ array' ≡ₚ key :: array.
Proof.
  intros Hlen. unfold insert. cbv zeta. rewrite length_app. simpl.
  replace (int_sub (Z.of_nat (length array + 1)) 1)
    with (Z.of_nat (length array))
    by (unfold int_sub; rewrite wrap64_id; lia).
  destruct (maxHeapifyUp_returns (length array + 1) (array ++ [key])
              (length array)) as (a' & Hr & Hperm).
  - rewrite length_app. simpl. lia.
  - rewrite length_app. simpl. lia.
  - lia.
  - exists a'. split; [done|]. rewrite Hperm. by rewrite Permutation_app_comm.
Qed.

Lemma build_from_heap (buildHeap : list Z) : ∀ array,
  (Z.of_nat (length array + length buildHeap) < 2 ^ 63)%Z →
  heap_nat array →
  ∃ array', build_from array buildHeap = Returns array' ∧
            array' ≡ₚ array ++ buildHeap ∧ heap_nat array'.
Proof.
  induction buildHeap as [|v rest IH]; intros array Hlen Hh; simpl in *.
  - exists array. by rewrite app_nil_r.
  - destruct (insert_sifts array v) as (a1 & -> & Hp1 & Hh1); [lia|done|].
    destruct (IH a1) as (a2 & Hr & Hp2 & Hh2).
    + rewrite Hp1. simpl. lia.
    + done.
    + exists a2. split; [done|]. split; [|done].
      rewrite Hp2, Hp1. by rewrite <- Permutation_middle.
Qed.

Lemma swap_back (a : list Z) (i j : nat) x y :
  a !! i = Some x → a !! j = Some y →
  <[j := y]> (<[i := x]> (<[j := x]> (<[i := y]> a))) = a.
Proof.
  intros Hi Hj. apply list_eq. intros k.
  pose proof (lookup_lt_Some _ _ _ Hi). pose proof (lookup_lt_Some _ _ _ Hj).
  destruct (decide (k = j)) as [->|Hkj].
  - rewrite list_lookup_insert_eq by (rewrite !length_insert; lia). done.
  - rewrite list_lookup_insert_ne by done.
    destruct (decide (k = i)) as [->|Hki].
    + rewrite list_lookup_insert_eq by (rewrite !length_insert; lia). done.
    + by rewrite !list_lookup_insert_ne.
Qed.

(** * More on the worker pool *)

Lemma pending_insert (ws : list goroutine) (i : nat) g g' :
  ws !! i = Some g →
  concat (pending <$> <[i := g']> ws) ++ pending g ≡ₚ
  concat (pending <$> ws) ++ pending g'.
Proof.
  revert i. induction ws as [|a ws IH]; intros [|i] Hi; simplify_eq/=.
  - rewrite <- !app_assoc. rewrite (Permutation_app_comm (pending g')).
    rewrite !app_assoc. by rewrite (Permutation_app_comm _ (pending g)).
  - rewrite <- !app_assoc. by rewrite (IH i Hi).
Qed.

Lemma results_accounted_step nJ w σ σ' :
  pool_inv nJ w σ → results_accounted σ → step σ σ' → results_accounted σ'.
Proof.
  intros (jb & cj & rb & cr & wg & m & ws & L & -> & Hok) Hacc
    [Hh Ht]%step_transition.
  pose proof (po_int _ _ _ _ _ _ _ _ _ _ Hok) as Hint.
  unfold results_accounted in *. simpl in Hacc.
  inversion Ht; simplify_eq/=; pool_classify Hok; pool_next;
    simplify_eq/=; try lia; try congruence; clear Ht;
    try pool_alive Hok; log_simpl; rewrite ?app_nil_r; try done;
    match goal with
    | Hw : ws !! _ = Some ?g |- context [<[_ := ?g']> ws] =>
        pose proof (pending_insert ws _ g g' Hw) as P; simpl in P;
        rewrite ?app_nil_r in P
    end.
  - rewrite Hacc, <- P, bool_decide_eq_true_2 by done.
    rewrite <- !app_assoc. f_equiv. apply Permutation_app_comm.
  - rewrite bool_decide_eq_true_2 by done.
    rewrite fmap_app, Hacc, P. simpl. by rewrite app_assoc.
  - by rewrite P.
  - by rewrite P.
Qed.

Lemma results_accounted_boot nJ w : results_accounted (boot (pool_main nJ w)).
Proof.
  rewrite pool_boot. unfold results_accounted. simpl.
  assert (concat (pending <$> replicate w (WorkerRecv 0 1 0)) = []) as ->;
    [|reflexivity].
  clear. induction w as [|w IH]; csimpl; [reflexivity|exact IH].
Qed.

Lemma pool_results_terminates nJ w :
  (Z.of_nat nJ < 2 ^ 63 - 1)%Z →
  inevitably
    (λ σ, final σ = true ∧ pool_inv nJ w σ ∧ results_accounted σ)
    (boot (pool_main nJ w)).
Proof.
  intros Hint.
  apply (inevitably_measure
           (λ σ, pool_inv nJ w σ ∧ results_accounted σ) _ (pool_measure nJ)).
  - intros σ [Hinv Hacc].
    destruct (pool_progress _ _ _ Hinv) as [Hf|Hs]; [by left|by right].
  - intros σ σ' [Hinv Hacc] Hst.
    pose proof (pool_step _ _ _ _ Hinv Hst) as Hinv'. split.
    + split; [done|]. by apply (results_accounted_step nJ w σ σ').
    + by eapply pool_measure_step.
  - split; [by apply pool_boot_inv|apply results_accounted_boot].
Qed.

Lemma returned_nothing_pending (ws : list goroutine) :
  forallb returned ws = true → concat (pending <$> ws) = [].
Proof.
  induction ws as [|g ws IH]; [done|]. csimpl.
  intros [Hg H]%andb_prop. rewrite (IH H), app_nil_r. by destruct g.
Qed.

Lemma final_nothing_pending σ :
  final σ = true → concat (pending <$> tail (pool σ)) = [].
Proof.
  unfold final. intros [_ H]%andb_prop.
  destruct (pool σ) as [|m ws]; [done|]. simpl in *.
  apply andb_prop in H as [_ H]. by apply returned_nothing_pending.
Qed.

(** * More on the linear pipelines and the fan-out *)

Lemma chain_final_all nums sts σ :
  chain_inv nums sts σ → final σ = true →
  ∀ j, j ≤ length sts → sent_on j (log σ) = chain_fn (take j sts) <$> nums.
Proof.
  intros (bs & m & g & gs & L & -> & Hok) Hf.
  pose proof (final_main_returned _ Hf) as Hm. simpl in *.
  pose proof (co_main _ _ _ _ _ _ _ Hok) as Hmain.
  destruct Hmain as [|Hlast]; [done|].
  pose proof (chain_exited _ _ _ _ _ _ _ Hok Hlast) as (_ & _ & H0 & Hst).
  by apply chain_output.
Qed.

Lemma chain_reachable nums sts σ :
  rtc step (boot (chain_main nums sts)) σ → chain_inv nums sts σ.
Proof.
  apply (invariant_reachable _ (chain_step nums sts)), chain_boot_inv.
Qed.

Lemma chain_lockstep nums sts σ :
  chain_inv nums sts σ →
  (∀ j, j < length sts →
     length (sent_on (S j) (log σ)) ≤ length (sent_on j (log σ)) ∧
     length (sent_on j (log σ)) ≤ S (length (sent_on (S j) (log σ)))) ∧
  (∀ c ch, chans σ !! c = Some ch → buf ch = [] ∧ cap ch = 0).
Proof.
  intros (bs & m & g & gs & L & -> & Hok). simpl. split.
  - intros j Hj. apply lookup_lt_is_Some in Hj as [st Hst].
    destruct (co_stages _ _ _ _ _ _ _ Hok j st Hst) as (gj & _ & Hs).
    assert (length (stage_fn st <$> sent_on j L) = length (sent_on j L)) as E
      by apply length_fmap.
    destruct Hs as [_ E'|n _ E'|_ _ E'|_ _ E']; rewrite <- E' in E;
      rewrite ?length_app in E; simpl in E; lia.
  - intros c ch Hc. rewrite list_lookup_fmap in Hc.
    destruct (bs !! c); simplify_eq/=. done.
Qed.

Lemma chain_lag nums sts σ :
  chain_inv nums sts σ →
  ∀ j, j ≤ length sts →
    length (sent_on 0 (log σ)) ≤ length (sent_on j (log σ)) + j.
Proof.
  intros Hinv. destruct (chain_lockstep _ _ _ Hinv) as [Hl _].
  induction j as [|j IH]; intros Hj; [lia|].
  destruct (Hl j) as [_ H]; [lia|]. specialize (IH ltac:(lia)). lia.
Qed.

Lemma concat_fmap_fmap {A} (f : Z → Z) (g : A → list Z) (l : list A) :
  concat ((λ j, f <$> g j) <$> l) = f <$> concat (g <$> l).
Proof.
  induction l as [|a l IH]; csimpl; [done|]. by rewrite IH, fmap_app.
Qed.

Lemma pool_reachable nJ w σ :
  rtc step (boot (pool_main nJ w)) σ → (Z.of_nat nJ < 2 ^ 63 - 1)%Z →
  pool_inv nJ w σ.
Proof.
  intros Hr Hint.
  by apply (invariant_reachable _ (pool_step nJ w) _ _ (pool_boot_inv nJ w Hint)).
Qed.

Lemma pool_main_running nJ cj rb wg L m :
  pmain_ok nJ cj false rb wg L m → returned m = false.
Proof.
  destruct 1; try done.
  unfold returned. simpl. by destruct (_ <=? _)%Z.
Qed.

(** * Further properties of the code *)

(** ** The max heap *)

(** X1: for an index whose children are representable ([2*index + 2] does
    not overflow), the parent of the left child and the parent of the right
    child are the index itself; the left child index is odd, the right one
    even, as the comments of [leftIndex] and [rightIndex] say, and both lie
    beyond the index. *)
Theorem child_indices_round_trip (index : Z) :
  (0 ≤ index < 2 ^ 62 - 1)%Z →
  getParentIndex (leftIndex index) = index ∧
  getParentIndex (rightIndex index) = index ∧
  Z.odd (leftIndex index) = true ∧
  Z.even (rightIndex index) = true ∧
  (index < leftIndex index < rightIndex index)%Z.
Proof.
  intros H.
  assert (leftIndex index = 2 * index + 1)%Z as ->.
  { unfold leftIndex, int_add, int_mul.
    rewrite (wrap64_id (2 * index)) by lia. rewrite wrap64_id; lia. }
  assert (rightIndex index = 2 * index + 2)%Z as ->.
  { unfold rightIndex, int_add, int_mul.
    rewrite (wrap64_id (2 * index)) by lia. rewrite wrap64_id; lia. }
  unfold getParentIndex, int_sub. rewrite !wrap64_id by lia.
  rewrite !Z.quot_div_nonneg by lia.
  pose proof (Z.div_mod (2 * index + 1 - 1) 2).
  pose proof (Z.mod_pos_bound (2 * index + 1 - 1) 2).
  pose proof (Z.div_mod (2 * index + 2 - 1) 2).
  pose proof (Z.mod_pos_bound (2 * index + 2 - 1) 2).
  split_and!; try lia.
  - rewrite Z.add_comm, Z.odd_add_mul_2. done.
  - replace (2 * index + 2)%Z with (0 + 2 * (index + 1))%Z by lia.
    by rewrite Z.even_add_mul_2.
Qed.

Lemma child_indices_round_trip_witness :
  (0 ≤ 2 < 2 ^ 62 - 1)%Z ∧
  leftIndex 2 = 5%Z ∧ rightIndex 2 = 6%Z ∧
  getParentIndex (leftIndex 2) = 2%Z ∧ getParentIndex (rightIndex 2) = 2%Z.
Proof.
  assert (0 ≤ 2 < 2 ^ 62 - 1)%Z as H by lia.
  split; [exact H|]. split; [reflexivity|]. split; [reflexivity|]. split.
  - exact (proj1 (child_indices_round_trip 2 H)).
  - exact (proj1 (proj2 (child_indices_round_trip 2 H))).
Defined.

(** X2: [maxHeapifyUp] at the edges.  The root is its own parent, because
    Go's division truncates [(0 - 1) / 2] to 0, so at index 0 of a non-empty
    slice the loop condition compares the root with itself and the call
    returns the slice unchanged; with an index that is negative or not
    below the length (in particular on an empty slice) the loop condition
    indexes out of range and the call panics. *)
Theorem maxHeapifyUp_root_and_out_of_range (fuel : nat) (array : list Z)
    (index : Z) :
  getParentIndex 0 = 0%Z ∧
  (array ≠ [] → maxHeapifyUp (S fuel) array 0 = Returns array) ∧
  ((index < 0 ∨ Z.of_nat (length array) ≤ index)%Z →
   maxHeapifyUp (S fuel) array index = Panics).
Proof.
  split_and!.
  - reflexivity.
  - intros Hne. destruct array as [|x array]; [done|].
    simpl. change (getParentIndex 0) with 0%Z.
    change (elem (x :: array) 0) with (Some x).
    by rewrite Z.ltb_irrefl.
  - intros Hout. simpl. rewrite (elem_None array index) by done.
    by destruct (elem array (getParentIndex index)).
Qed.

(** X3: [insert] on any slice whose length is below the [int] range
    returns: the loop of [maxHeapifyUp] ends within the fuel
    [len(h.array)] and never indexes out of range; the slice it leaves
    holds the old elements and the key, one element more. *)
Theorem insert_returns_permutation (array : list Z) (key : Z) :
  (Z.of_nat (length array) < 2 ^ 63 - 1)%Z →
  ∃ array', insert array key = Returns array' ∧
            array' ≡ₚ key :: array ∧
            length array' = S (length array).
Proof.
  intros Hlen. destruct (insert_returns array key Hlen) as (a' & Hr & Hp).
  exists a'. split_and!; try done. by rewrite Hp.
Qed.

Lemma insert_returns_permutation_witness :
  (Z.of_nat (length [3; 9; 4]%Z) < 2 ^ 63 - 1)%Z ∧
  insert [3; 9; 4]%Z 10 = Returns [10; 3; 4; 9]%Z ∧
  ∃ array', insert [3; 9; 4]%Z 10 = Returns array' ∧
            array' ≡ₚ 10%Z :: [3; 9; 4]%Z ∧
            length array' = S (length [3; 9; 4]%Z).
Proof.
  assert (Z.of_nat (length [3; 9; 4]%Z) < 2 ^ 63 - 1)%Z as H
    by (vm_compute; reflexivity).
  split_and!; [exact H|reflexivity|].
  exact (insert_returns_permutation [3; 9; 4]%Z 10 H).
Defined.

(** X4: [insert] keeps the max-heap property: if every element but the
    root is at most its parent, the same holds of the slice [insert]
    leaves, which holds the old elements and the key. *)
Theorem insert_keeps_max_heap (array : list Z) (key : Z) :
  (Z.of_nat (length array) < 2 ^ 63 - 1)%Z → is_max_heap array →
  ∃ array', insert array key = Returns array' ∧
            is_max_heap array' ∧ array' ≡ₚ key :: array.
Proof.
  intros Hlen Hh. apply is_max_heap_nat in Hh; [|lia].
  destruct (insert_sifts array key Hlen Hh) as (a' & Hr & Hp & Hh').
  exists a'. split_and!; try done.
  apply is_max_heap_nat; [|done]. rewrite Hp. simpl. lia.
Qed.

Lemma insert_keeps_max_heap_witness :
  insert [50; 40; 20; 30; 10]%Z 60 = Returns [60; 40; 50; 30; 10; 20]%Z ∧
  ∃ array', insert [50; 40; 20; 30; 10]%Z 60 = Returns array' ∧
            is_max_heap array' ∧ array' ≡ₚ 60%Z :: [50; 40; 20; 30; 10]%Z.
Proof.
  split; [reflexivity|].
  apply insert_keeps_max_heap; [vm_compute; reflexivity|].
  apply is_max_heap_nat; [vm_compute; reflexivity|].
  intros j Hj. simpl in Hj.
  destruct j as [|[|[|[|[|j]]]]]; try lia; vm_compute; discriminate.
Defined.

(** X5: the loop of [main], for any [buildHeap]: inserting the values one
    by one into the empty heap returns a slice that holds exactly the
    values inserted, is a max heap, and has a greatest value at index 0. *)
Theorem heap_main_builds_max_heap (buildHeap : list Z) :
  (Z.of_nat (length buildHeap) < 2 ^ 63)%Z →
  ∃ array, heap_main buildHeap = Returns array ∧
           array ≡ₚ buildHeap ∧ is_max_heap array ∧
           ∀ v, v ∈ buildHeap →
             ∃ root, elem array 0 = Some root ∧ (v ≤ root)%Z.
Proof.
  intros Hlen.
  destruct (build_from_heap buildHeap []) as (a & Hr & Hp & Hh).
  { simpl. lia. }
  { intros j Hj. simpl in Hj. lia. }
  simpl in Hp. exists a. split_and!; try done.
  - apply is_max_heap_nat; [|done]. by rewrite Hp.
  - intros v Hv. rewrite <- Hp in Hv.
    apply list_elem_of_lookup in Hv as [j Hj].
    pose proof (lookup_lt_Some _ _ _ Hj) as Hlt.
    destruct (lookup_lt_is_Some_2 a 0) as [root Hroot]; [lia|].
    exists root. split; [exact Hroot|].
    pose proof (heap_nat_root a Hh j Hlt) as Hle.
    rewrite (list_lookup_total_correct _ _ _ Hj) in Hle.
    by rewrite (list_lookup_total_correct _ _ _ Hroot) in Hle.
Qed.

Lemma heap_main_builds_max_heap_witness :
  heap_main [50; 30; 20; 40; 10; 60; 70]%Z =
    Returns [70; 40; 60; 30; 10; 20; 50]%Z ∧
  ∃ array, heap_main [50; 30; 20; 40; 10; 60; 70]%Z = Returns array ∧
           array ≡ₚ [50; 30; 20; 40; 10; 60; 70]%Z ∧ is_max_heap array ∧
           ∀ v, v ∈ [50; 30; 20; 40; 10; 60; 70]%Z →
             ∃ root, elem array 0 = Some root ∧ (v ≤ root)%Z.
Proof.
  split; [reflexivity|].
  apply heap_main_builds_max_heap. vm_compute. reflexivity.
Defined.

(** X6: [swap] with both indices in range exchanges the two elements and
    leaves the others, so the slice keeps its elements, and swapping again
    restores it; with an index out of range it panics. *)
Theorem swap_exchanges_two_elements (array : list Z) (index1 index2 : Z) :
  (∀ x y, elem array index1 = Some x → elem array index2 = Some y →
     ∃ array', swap array index1 index2 = Some array' ∧
               elem array' index1 = Some y ∧ elem array' index2 = Some x ∧
               (∀ i, i ≠ index1 → i ≠ index2 →
                     elem array' i = elem array i) ∧
               array' ≡ₚ array ∧
               swap array' index1 index2 = Some array) ∧
  (elem array index1 = None ∨ elem array index2 = None →
   swap array index1 index2 = None).
Proof.
  split.
  - intros x y Hx Hy.
    apply elem_Some in Hx as (i & -> & Hi & Hil).
    apply elem_Some in Hy as (j & -> & Hj & Hjl).
    rewrite (swap_nat _ _ _ x y) by done. eexists. split; [done|].
    assert (<[j := x]> (<[i := y]> array) !! j = Some x) as Ej
      by (apply list_lookup_insert_eq; by rewrite length_insert).
    assert (<[j := x]> (<[i := y]> array) !! i = Some y) as Ei.
    { destruct (decide (i = j)) as [->|Hne]; [by simplify_eq|].
      rewrite list_lookup_insert_ne by done.
      by apply list_lookup_insert_eq. }
    split_and!.
    + by rewrite elem_nat.
    + by rewrite elem_nat.
    + intros k Hki Hkj. unfold elem. destruct (k <? 0)%Z eqn:Hk; [done|].
      apply Z.ltb_ge in Hk. rewrite !list_lookup_insert_ne by lia. done.
    + by apply (swap_perm array i j x y).
    + rewrite (swap_nat _ _ _ y x) by done. f_equal.
      by apply swap_back.
  - intros [H|H]; unfold swap; rewrite H; [|done].
    by destruct (elem array index2).
Qed.

(** ** The linear pipelines *)

(** X7: a chain of stages computes the composition of its stage functions.
    Under every schedule, any chain [generate -> st1 -> ... -> stk] ends
    with channel [j] having carried, in input order, the first [j] stage
    functions applied to each input, and the consumer having received the
    whole composition; for the two pipelines of [main] that is
    [(n*n + 10) * 2] and [(n*3 - 5) * (n*3 - 5)] for each input [n]. *)
Theorem chain_computes_composition (nums : list Z) (sts : list stage) :
  inevitably
    (λ σ, final σ = true ∧
          (∀ j, j ≤ length sts →
             sent_on j (log σ) = chain_fn (take j sts) <$> nums ∧
             received_from j (log σ) = chain_fn (take j sts) <$> nums) ∧
          received_from (length sts) (log σ) = chain_fn sts <$> nums)
    (boot (chain_main nums sts)) ∧
  inevitably
    (λ σ, final σ = true ∧
          received_from 3 (log σ) =
            (λ n, int_mul (int_add (int_mul n n) 10) 2) <$> nums)
    (boot (pipeline_main nums)) ∧
  inevitably
    (λ σ, final σ = true ∧
          received_from 3 (log σ) =
            (λ n, int_mul (int_sub (int_mul n 3) 5)
                          (int_sub (int_mul n 3) 5)) <$> nums)
    (boot (generic_main nums)).
Proof.
  assert (∀ sts', inevitably
    (λ σ, final σ = true ∧
          (∀ j, j ≤ length sts' →
             sent_on j (log σ) = chain_fn (take j sts') <$> nums ∧
             received_from j (log σ) = chain_fn (take j sts') <$> nums) ∧
          received_from (length sts') (log σ) = chain_fn sts' <$> nums)
    (boot (chain_main nums sts'))) as Hall.
  { intros sts'.
    eapply inevitably_mono;
      [|apply chain_terminates, chain_boot_inv].
    intros σ [Hf Hinv]. split; [done|].
    pose proof (chain_final_all _ _ _ Hinv Hf) as Hs.
    destruct (chain_safety _ _ _ Hinv) as (_ & _ & _ & Hr & _).
    split.
    - intros j Hj. rewrite Hr. split; by apply Hs.
    - rewrite Hr, Hs by done. by rewrite firstn_all. }
  split; [apply Hall|]. split.
  - rewrite pipeline_main_chain.
    eapply inevitably_mono; [|apply Hall].
    intros σ (Hf & _ & Hr). split; [done|]. exact Hr.
  - rewrite generic_main_chain.
    eapply inevitably_mono; [|apply Hall].
    intros σ (Hf & _ & Hr). split; [done|]. exact Hr.
Qed.

(** X8: back-pressure.  All channels of a chain are unbuffered, so in every
    reachable configuration no channel holds an item, each stage has
    emitted as many items as it has taken or one less, and the generator
    is never more than [j] items ahead of what has been received from
    channel [j]: with [k] stages at most [k] items are in flight. *)
Theorem chain_backpressure (nums : list Z) (sts : list stage) (σ : config) :
  rtc step (boot (chain_main nums sts)) σ →
  (∀ j, j < length sts →
     length (sent_on (S j) (log σ)) ≤ length (sent_on j (log σ)) ∧
     length (sent_on j (log σ)) ≤ S (length (sent_on (S j) (log σ)))) ∧
  (∀ j, j ≤ length sts →
     length (sent_on 0 (log σ)) ≤ length (received_from j (log σ)) + j) ∧
  (∀ c ch, chans σ !! c = Some ch → buf ch = [] ∧ cap ch = 0).
Proof.
  intros Hr0. pose proof (chain_reachable nums sts σ Hr0) as Hinv.
  destruct (chain_lockstep _ _ _ Hinv) as [Hl Hb].
  destruct (chain_safety _ _ _ Hinv) as (_ & _ & _ & Hr & _).
  split_and!; try done.
  intros j Hj. rewrite Hr. by apply (chain_lag nums sts).
Qed.

Lemma chain_backpressure_witness :
  ∃ σ, run [Sync 1 2; Sync 2 3; Sync 1 2]
         (boot (chain_main [1; 2; 3]%Z [StSquare; StAddTen])) = Some σ ∧
       sent_on 0 (log σ) = [1; 2]%Z ∧
       received_from 2 (log σ) = [] ∧
       length (sent_on 0 (log σ)) ≤ length (received_from 2 (log σ)) + 2.
Proof.
  eexists. split; [vm_compute; reflexivity|].
  split; [reflexivity|]. split; [reflexivity|].
  refine (proj1 (proj2
    (chain_backpressure [1; 2; 3]%Z [StSquare; StAddTen] _ _)) 2 _).
  - apply (run_rtc [Sync 1 2; Sync 2 3; Sync 1 2]). vm_compute. reflexivity.
  - simpl. lia.
Defined.

(** ** The fan-out/fan-in program *)

(** X9: end to end, the fan-out/fan-in [main] with any positive number of
    workers receives the square of every input exactly once: under every
    schedule it terminates having received a permutation of the squares
    of the inputs, in which the squares computed by one worker keep the
    order of that worker's inputs. *)
Theorem fan_main_squares_every_input (nums : list Z) (numWorkers : nat) :
  0 < numWorkers → (Z.of_nat (length nums) < 2 ^ 63)%Z →
  inevitably
    (λ σ, final σ = true ∧ crashed σ = false ∧
          received_from (S (numWorkers + numWorkers)) (log σ) ≡ₚ
            (λ n, int_mul n n) <$> nums ∧
          ∀ j, j < numWorkers →
            ((λ n, int_mul n n) <$> lane_items numWorkers j nums)
              `sublist_of`
            received_from (S (numWorkers + numWorkers)) (log σ))
    (boot (fan_main nums numWorkers)).
Proof.
  intros Hpos Hint.
  eapply inevitably_mono; [|by apply fan_terminates, fan_boot_inv].
  intros σ [Hf Hinv]. split; [done|].
  destruct (fan_safety _ _ _ Hinv) as (Hc & _).
  destruct (fan_final _ _ _ Hinv Hf) as (_ & _ & Hm & Hr & _).
  split; [done|]. rewrite Hr. split.
  - rewrite <- (interleave_perm _ _ Hm).
    rewrite (concat_fmap_fmap (λ n, int_mul n n)
               (λ j, lane_items numWorkers j nums)).
    by rewrite lane_items_perm.
  - intros j Hj. eapply interleave_sublist; [exact Hm|].
    rewrite list_lookup_fmap, lookup_seq_lt by done. done.
Qed.

Lemma fan_main_squares_every_input_witness :
  inevitably
    (λ σ, final σ = true ∧ crashed σ = false ∧
          received_from 7 (log σ) ≡ₚ
            [1; 4; 9; 16; 25; 36; 49; 64; 81; 100]%Z ∧
          ∀ j, j < 3 →
            ((λ n, int_mul n n) <$>
               lane_items 3 j [1; 2; 3; 4; 5; 6; 7; 8; 9; 10]%Z)
              `sublist_of` received_from 7 (log σ))
    (boot (fan_main [1; 2; 3; 4; 5; 6; 7; 8; 9; 10]%Z 3)).
Proof.
  apply (fan_main_squares_every_input [1; 2; 3; 4; 5; 6; 7; 8; 9; 10]%Z 3).
  - lia.
  - vm_compute. reflexivity.
Defined.

(** ** The worker pool *)

(** X10: in the worker pool no send ever blocks.  [jobs] and [results]
    both have room for [numJobs] items, so in every reachable
    configuration a goroutine that is about to send ([main] on [jobs], a
    worker on [results]) finds its channel open and not full, and the send
    can be taken at once; this is why [main] may queue every job and wait
    for the workers before it reads a single result. *)
Theorem pool_sends_never_block (numJobs numWorkers : nat) (σ : config)
    (t : nat) (g : goroutine) (c : nat) (v : Z) (k : goroutine) :
  (Z.of_nat numJobs < 2 ^ 63 - 1)%Z →
  rtc step (boot (pool_main numJobs numWorkers)) σ →
  pool σ !! t = Some g → next g = ASend c v k →
  ∃ b, chans σ !! c = Some (Chan b numJobs false) ∧
       length b < numJobs ∧
       exec (Solo t) σ =
       Some (Config (<[c := Chan (b ++ [v]) numJobs false]> (chans σ))
               (wgs σ) (<[t := k]> (pool σ)) (log σ ++ [EvSend t c v])
               false).
Proof.
  intros Hint Hr Hg Hn.
  destruct (pool_reachable _ _ _ Hr Hint)
    as (jb & cj & rb & cr & wg & m & ws & L & -> & Hok).
  destruct (pool_bounds _ _ _ _ _ _ _ _ _ _ Hok) as (B1 & B2 & B3 & B4).
  simpl in Hg.
  apply (pool_thread _ _ _ _ _ _ _ _ _ _ _ _ Hok) in Hg
    as [(-> & -> & Hm)|(i & -> & Hw & Hwo)].
  - destruct Hm as [j Hj Hcj Hcr Hs Hr'| | | |];
      try (simpl in Hn; discriminate).
    subst. simpl in Hn.
    destruct (Z.leb_spec (Z.of_nat j) (Z.of_nat numJobs)) as [Hle|];
      [|discriminate].
    inversion Hn; subst; clear Hn.
    rewrite Hs, jobs_before_length in B2.
    exists jb. split; [done|]. split; [lia|].
    unfold exec, halted, main_returned, returned. simpl.
    rewrite (proj2 (Z.leb_le _ _) Hle). simpl.
    unfold exec_solo. simpl. rewrite (proj2 (Z.leb_le _ _) Hle). simpl.
    by rewrite bool_decide_eq_true_2 by lia.
  - destruct Hwo as [|job| |]; try (simpl in Hn; discriminate).
    simpl in Hn. inversion Hn; subst; clear Hn.
    pose proof (holding_pos _ _ _ _ _ _ Hw) as Hpos.
    assert (cr = false) as ->.
    { destruct cr; [|done].
      pose proof (pool_results_closed _ _ _ _ _ _ _ _ _ Hok).
      assert (WorkerSend 0 1 0 job ≠ Exited) as Hne by done.
      pose proof (pool_worker_alive _ _ _ _ _ _ _ _ _ _ _ _ Hok Hw Hne).
      lia. }
    exists rb. split; [done|]. split; [lia|].
    unfold exec, halted, main_returned. simpl.
    rewrite (pool_main_running _ _ _ _ _ _
               (po_main _ _ _ _ _ _ _ _ _ _ Hok)).
    simpl. unfold exec_solo. simpl. rewrite Hw. simpl.
    by rewrite bool_decide_eq_true_2 by lia.
Qed.

Lemma pool_sends_never_block_witness :
  ∃ σ, run [Solo 0; Solo 0; Solo 1] (boot (pool_main 5 3)) = Some σ ∧
       pool σ !! 1 = Some (WorkerSend 0 1 0 1) ∧
       ∃ b, chans σ !! 1 = Some (Chan b 5 false) ∧ length b < 5 ∧
            exec (Solo 1) σ =
            Some (Config (<[1 := Chan (b ++ [int_mul 1 2]) 5 false]> (chans σ))
                    (wgs σ) (<[1 := WorkerRecv 0 1 0]> (pool σ))
                    (log σ ++ [EvSend 1 1 (int_mul 1 2)]) false).
Proof.
  eexists. split; [vm_compute; reflexivity|]. split; [reflexivity|].
  apply (pool_sends_never_block 5 3 _ 1 (WorkerSend 0 1 0 1) 1 (int_mul 1 2)
           (WorkerRecv 0 1 0)).
  - vm_compute. reflexivity.
  - apply (run_rtc [Solo 0; Solo 0; Solo 1]). vm_compute. reflexivity.
  - reflexivity.
  - reflexivity.
Defined.

(** X11: with at least one worker the pool processes every job exactly
    once.  Under every schedule the program terminates with the jobs
    [1 .. numJobs] taken from [jobs] in the order [main] queued them, and
    with [main] having received exactly the doubles of the jobs, each
    once, in some order. *)
Theorem pool_doubles_every_job (numJobs numWorkers : nat) :
  (Z.of_nat numJobs < 2 ^ 63 - 1)%Z → 0 < numWorkers →
  inevitably
    (λ σ, final σ = true ∧
          received_from 0 (log σ) = jobs_before (S numJobs) ∧
          received_from 1 (log σ) ≡ₚ
            (λ job, int_mul job 2) <$> jobs_before (S numJobs) ∧
          length (received_from 1 (log σ)) = numJobs)
    (boot (pool_main numJobs numWorkers)).
Proof.
  intros Hint Hw.
  eapply inevitably_mono; [|by apply pool_results_terminates].
  intros σ (Hf & Hinv & Hacc). split; [done|].
  destruct (pool_final _ _ _ Hinv Hf)
    as (_ & _ & Hs & Hr & _ & jb & _ & Hj & Hjb & _).
  rewrite (Hjb Hw), app_nil_r in Hj.
  unfold results_accounted in Hacc.
  rewrite (final_nothing_pending _ Hf), app_nil_r in Hacc.
  assert (received_from 1 (log σ) ≡ₚ
          (λ job, int_mul job 2) <$> jobs_before (S numJobs)) as Hp.
  { by rewrite Hr, <- Hacc, <- Hj, Hs. }
  split_and!; try done.
  - by rewrite <- Hj.
  - rewrite Hp, length_fmap, jobs_before_length. lia.
Qed.

Lemma pool_doubles_every_job_witness :
  (λ job, int_mul job 2) <$> jobs_before 6 = [2; 4; 6; 8; 10]%Z ∧
  inevitably
    (λ σ, final σ = true ∧
          received_from 0 (log σ) = jobs_before 6 ∧
          received_from 1 (log σ) ≡ₚ
            (λ job, int_mul job 2) <$> jobs_before 6 ∧
          length (received_from 1 (log σ)) = 5)
    (boot (pool_main 5 3)).
Proof.
  split; [reflexivity|].
  apply (pool_doubles_every_job 5 3).
  - vm_compute. reflexivity.
  - lia.
Defined.

